(** * Verification of the deep-search chat application

    A shallow embedding of the chat route handlers, their tools and the
    conversation store queries, followed by the properties they satisfy.

    Asynchronous functions are embedded as functions over an explicit state:
    every [await] is a sequencing point and a rejected promise is the
    [Thrown] result.  External collaborators (the model, the search provider,
    the network) are oracles passed as parameters. *)

From stdpp Require Import gmap strings list fin_maps sorting pretty.

Local Open Scope string_scope.
Local Open Scope list_scope.
Local Open Scope nat_scope.

(** ** Results and the state-and-exception monad *)

Inductive Result (A : Type) : Type :=
| Ok (a : A)
| Thrown (e : string).
Arguments Ok {A} a.
Arguments Thrown {A} e.

(** A computation over a state [S] that returns or throws; the state reached
    so far is kept when it throws (nothing is rolled back). *)
Definition Eff (S A : Type) : Type := S → Result A * S.

Definition ret {S A} (a : A) : Eff S A := λ s, (Ok a, s).
Definition throw {S A} (e : string) : Eff S A := λ s, (Thrown e, s).
Definition bind {S A B} (c : Eff S A) (k : A → Eff S B) : Eff S B :=
  λ s, match c s with
       | (Ok a, s') => k a s'
       | (Thrown e, s') => (Thrown e, s')
       end.
Definition gets {S A} (f : S → A) : Eff S A := λ s, (Ok (f s), s).
Definition modify {S} (f : S → S) : Eff S unit := λ s, (Ok tt, f s).

(** [try c catch h]: run [c]; when it throws, run the handler. *)
Definition try_catch {S A} (c : Eff S A) (h : string → Eff S A) : Eff S A :=
  λ s, match c s with
       | (Ok a, s') => (Ok a, s')
       | (Thrown e, s') => h e s'
       end.

(** [wp c Q s]: run from [s], the computation [c] ends with a result and a
    state that satisfy [Q]. *)
Definition wp {S A} (c : Eff S A) (Q : Result A → S → Prop) (s : S) : Prop :=
  Q (c s).1 (c s).2.

Notation "'let!' x ':=' c 'in' k" := (bind c (λ x, k))
  (at level 10, x name, c at level 100, k at level 200).
Notation "c ';;' k" := (bind c (λ _, k))
  (at level 100, k at level 200, right associativity).

(** ** JavaScript values used by the handlers *)

Module Js.

(** [s.slice(start, end)] for [0 ≤ start], [0 ≤ end]: the code units from
    [start] up to, not including, [end], clamped to the string.  The
    characters of a [string] stand for the code units of the JavaScript
    string. *)
Definition slice (s : string) (start end_ : nat) : string :=
  String.substring start (end_ - start) s.

(** [a[a.length - 1]]: [undefined] on the empty array. *)
Definition lastElement {A} (a : list A) : option A := last a.

(** [s.slice(start)]: the code units from [start] to the end. *)
Definition sliceFrom (s : string) (start : nat) : string :=
  slice s start (String.length s).

(** [s.charAt(i)]: the code unit at [i] as a string, the empty string when
    there is none. *)
Definition charAt (s : string) (i : nat) : string :=
  match String.get i s with
  | Some c => String c ""
  | None => ""
  end.

(** [s.split(sep)] for a separator of one code unit: the pieces between the
    separators, in order; never the empty array. *)
Fixpoint split (sep : Ascii.ascii) (s : string) : list string :=
  match s with
  | EmptyString => [""]
  | String c s' =>
      if decide (c = sep) then "" :: split sep s'
      else match split sep s' with
           | w :: ws => String c w :: ws
           | [] => [String c ""]
           end
  end.

(** [a.join(sep)] *)
Fixpoint join (sep : string) (a : list string) : string :=
  match a with
  | [] => ""
  | [w] => w
  | w :: ws => w +:+ sep +:+ join sep ws
  end.

End Js.

(** ** The [Message] of the chat protocol *)

(** [Message["role"]] *)
Inductive Role : Type := RoleSystem | RoleUser | RoleAssistant | RoleData.

Global Instance Role_eq_dec : EqDecision Role.
Proof. solve_decision. Defined.

Record Message : Type := mkMessage {
  id : string;
  role : Role;
  content : string;
}.

Global Instance Message_eq_dec : EqDecision Message.
Proof. solve_decision. Defined.

(** ** The conversation store: [server/db/queries.ts] *)

Module Db.

Record ChatRow : Type := mkChatRow {
  chat_id : string;
  chat_title : string;
  chat_userId : string;
  chat_createdAt : nat;
  chat_updatedAt : nat;
}.

Record MessageRow : Type := mkMessageRow {
  msg_id : string;
  msg_chatId : string;
  msg_role : Role;
  msg_parts : string;
  msg_order : nat;
}.

(** The two tables.  [chats.id] is the conflict target of the upsert, hence
    unique: the table is a map from id to row.  Message rows are kept in
    insertion order; [idSeq] counts the row ids handed out so far. *)
Record Database : Type := mkDatabase {
  chats : gmap string ChatRow;
  messages : list MessageRow;
  idSeq : nat;
}.

Definition empty : Database :=
  {| chats := ∅; messages := []; idSeq := 0 |}.

Record UpsertOpts : Type := mkUpsertOpts {
  userId : string;
  chatId : string;
  title : string;
  messageList : list Message;
}.

Record Conversation : Type := mkConversation {
  conv_chat : ChatRow;
  conv_messages : list Message;
}.

Record ChatSummary : Type := mkChatSummary {
  summary_id : string;
  summary_title : string;
  summary_createdAt : nat;
  summary_updatedAt : nat;
}.

Section Queries.

(** The schema is not part of the sources: the default of the
    [messages.id] column is a parameter, a function of the number of rows
    created before. *)
Variable newMessageId : nat → string.

(** [db.select().from(chats).where(eq(chats.id, chatId)).limit(1)] *)
Definition selectChat (cid : string) : Eff Database (list ChatRow) :=
  gets (λ db, match chats db !! cid with Some c => [c] | None => [] end).

(** [db.delete(messages).where(eq(messages.chatId, chatId))] *)
Definition deleteMessages (cid : string) : Eff Database unit :=
  modify (λ db,
    {| chats := chats db;
       messages := filter (λ m, msg_chatId m ≠ cid) (messages db);
       idSeq := idSeq db |}).

(** [db.insert(chats).values({id, title, userId, updatedAt})
      .onConflictDoUpdate({target: chats.id, set: {title, updatedAt}})] *)
Definition insertChat (cid ttl uid : string) (now : nat)
  : Eff Database unit :=
  modify (λ db,
    let row :=
      match chats db !! cid with
      | Some c =>
          {| chat_id := chat_id c; chat_title := ttl;
             chat_userId := chat_userId c;
             chat_createdAt := chat_createdAt c; chat_updatedAt := now |}
      | None =>
          {| chat_id := cid; chat_title := ttl; chat_userId := uid;
             chat_createdAt := now; chat_updatedAt := now |}
      end in
    {| chats := <[cid := row]> (chats db);
       messages := messages db;
       idSeq := idSeq db |}).

(** [messageList.map((message, index) => ({chatId, role, parts, order}))] *)
Definition messageValues (cid : string) (ms : list Message)
  : list (string * Role * string * nat) :=
  imap (λ index message, (cid, role message, content message, index)) ms.

(** [db.insert(messages).values(messageValues)] *)
Definition insertMessages (vals : list (string * Role * string * nat))
  : Eff Database unit :=
  modify (λ db,
    {| chats := chats db;
       messages := messages db ++
         imap (λ k '(cid, r, p, o),
                 {| msg_id := newMessageId (idSeq db + k);
                    msg_chatId := cid; msg_role := r;
                    msg_parts := p; msg_order := o |}) vals;
       idSeq := idSeq db + length vals |}).

Definition notOwner : string :=
  "Chat does not belong to the logged in user".

Definition upsertChat (opts : UpsertOpts) (now : nat)
  : Eff Database unit :=
  let! existingChat := selectChat (chatId opts) in
  if bool_decide (0 < length existingChat)
     && bool_decide (chat_userId <$> head existingChat ≠ Some (userId opts))
  then throw notOwner
  else
    (if bool_decide (0 < length existingChat)
     then deleteMessages (chatId opts) else ret tt) ;;
    insertChat (chatId opts) (title opts) (userId opts) now ;;
    if bool_decide (0 < length (messageList opts))
    then insertMessages (messageValues (chatId opts) (messageList opts))
    else ret tt.

(** [.orderBy(messages.order)]: ascending by the [order] column. *)
Definition byOrder (a b : MessageRow) : Prop :=
  (msg_order a ≤ msg_order b)%nat.

Global Instance byOrder_dec a b : Decision (byOrder a b).
Proof. unfold byOrder. apply _. Defined.

Definition orderByOrder (l : list MessageRow) : list MessageRow :=
  merge_sort byOrder l.

Definition getChat (cid : string) (db : Database) : option Conversation :=
  match chats db !! cid with
  | None => None
  | Some chat =>
      let chatMessages :=
        orderByOrder (filter (λ m, msg_chatId m = cid) (messages db)) in
      Some {| conv_chat := chat;
              conv_messages :=
                map (λ msg, {| id := msg_id msg; role := msg_role msg;
                               content := msg_parts msg |}) chatMessages |}
  end.

(** The rows [insertMessages] appends for a message list. *)
Definition rowsOf (base : nat) (cid : string) (ms : list Message)
  : list MessageRow :=
  imap (λ k m, {| msg_id := newMessageId (base + k); msg_chatId := cid;
                  msg_role := role m; msg_parts := content m;
                  msg_order := k |}) ms.

(** The chat row after a successful upsert. *)
Definition rowAfter (db : Database) (opts : UpsertOpts) (now : nat) : ChatRow :=
  match chats db !! chatId opts with
  | Some c =>
      {| chat_id := chat_id c; chat_title := title opts;
         chat_userId := chat_userId c;
         chat_createdAt := chat_createdAt c; chat_updatedAt := now |}
  | None =>
      {| chat_id := chatId opts; chat_title := title opts;
         chat_userId := userId opts;
         chat_createdAt := now; chat_updatedAt := now |}
  end.

(** Referential integrity: every message row belongs to a chat row. *)
Definition wellFormed (db : Database) : Prop :=
  ∀ m, m ∈ messages db → is_Some (chats db !! msg_chatId m).

(** The columns [getChats] selects: [{id, title, createdAt, updatedAt}]. *)
Definition summary (c : ChatRow) : ChatSummary :=
  {| summary_id := chat_id c; summary_title := chat_title c;
     summary_createdAt := chat_createdAt c;
     summary_updatedAt := chat_updatedAt c |}.

(** [.orderBy(desc(chats.updatedAt))] *)
Definition byUpdatedDesc (a b : ChatRow) : Prop :=
  (chat_updatedAt b ≤ chat_updatedAt a)%nat.

Global Instance byUpdatedDesc_dec a b : Decision (byUpdatedDesc a b).
Proof. unfold byUpdatedDesc. apply _. Defined.

(** [.from(chats).where(eq(chats.userId, userId))]: the rows of a user. *)
Definition chatsOf (uid : string) (m : gmap string ChatRow) : list ChatRow :=
  filter (λ c, chat_userId c = uid) (map_to_list m).*2.

(** [db.select({id, title, createdAt, updatedAt}).from(chats)
      .where(eq(chats.userId, userId)).orderBy(desc(chats.updatedAt))];
    rows with the same [updatedAt] come in an order the database does not
    fix, and no property below depends on it. *)
Definition getChats (uid : string) (db : Database) : list ChatSummary :=
  summary <$> merge_sort byUpdatedDesc (chatsOf uid (chats db)).

(** Every chat row is stored under its own id. *)
Definition keyed (db : Database) : Prop :=
  ∀ k c, chats db !! k = Some c → chat_id c = k.

(** The message rows of a chat, in table order. *)
Definition rowsOfChat (cid : string) (db : Database) : list MessageRow :=
  filter (λ m, msg_chatId m = cid) (messages db).

(** The message rows of every chat carry the orders 0, 1, 2, ... *)
Definition numbered (db : Database) : Prop :=
  ∀ cid, msg_order <$> rowsOfChat cid db
         = seq 0 (length (rowsOfChat cid db)).

Definition consistent (db : Database) : Prop :=
  wellFormed db ∧ keyed db ∧ numbered db.

(** The state reached from [db] by a sequence of calls, each with the time it
    is made at; a call that throws leaves what it had written. *)
Definition runUpsertsFrom (db : Database) (calls : list (UpsertOpts * nat))
  : Database :=
  foldl (λ db call, (upsertChat call.1 call.2 db).2) db calls.

Definition runUpserts (calls : list (UpsertOpts * nat)) : Database :=
  runUpsertsFrom empty calls.

End Queries.

End Db.

(** ** The Cache Layer: [cacheWithRedis] *)

Module Cache.

(** Modelled from the spec: the entry of the shared key-value store, that is
    the serialized output and the time at which the store drops it. *)
Record CacheEntry (Blob : Type) : Type := mkCacheEntry {
  value : Blob;
  expiry : nat;
}.
Arguments mkCacheEntry {Blob} value expiry.
Arguments value {Blob} c.
Arguments expiry {Blob} c.

Section Memoize.

Context {Args Output Blob W : Type}.

(** Deterministic serialization of the arguments, the hash that makes the
    key, and the codec of the stored outputs. *)
Variable serializeArgs : Args → string.
Variable hash : string → string.
Variable serialize : Output → Blob.
Variable deserialize : Blob → Output.

(** The fixed time to live of an entry. *)
Variable ttl : nat.

(** Modelled from the spec: [key = hash(operationName + serialized(args))]. *)
Definition cacheKey (operationName : string) (args : Args) : string :=
  hash (operationName +:+ serializeArgs args).

(** Modelled from the spec: [GET key] at time [now]; an expired entry is
    absent. *)
Definition storeGet (now : nat) (key : string)
    (store : gmap string (CacheEntry Blob)) : option Blob :=
  match store !! key with
  | Some e => if bool_decide (now < expiry e) then Some (value e) else None
  | None => None
  end.

(** Modelled from the spec: [SET key value EX ttl] at time [now]. *)
Definition storeSet (now : nat) (key : string) (v : Blob)
    (store : gmap string (CacheEntry Blob)) : gmap string (CacheEntry Blob) :=
  <[key := mkCacheEntry v (now + ttl)]> store.

(** Modelled from the spec: [cacheWithRedis] of [server/redis/redis.ts],
    which is not among the sources, after the contract of the Cache
    Layer: compute the key; on a hit deserialize and return the stored
    value without invoking [fn]; on a miss invoke [fn] and, when it
    succeeds, store the serialized result under the key with the fixed
    time to live; when [fn] fails the error propagates and nothing is
    stored.  The state is the shared store paired with the world [fn]
    acts on; the backing store is taken to be reachable. *)
Definition cacheWithRedis (operationName : string) (fn : Args → Eff W Output)
    (args : Args) (now : nat)
  : Eff (gmap string (CacheEntry Blob) * W) Output :=
  λ '(store, w),
    let key := cacheKey operationName args in
    match storeGet now key store with
    | Some v => (Ok (deserialize v), (store, w))
    | None =>
        match fn args w with
        | (Ok out, w') =>
            (Ok out, (storeSet now key (serialize out) store, w'))
        | (Thrown e, w') => (Thrown e, (store, w'))
        end
    end.

End Memoize.

End Cache.

(** ** The Bulk Extractor: [bulkCrawlWebsites] *)

Module Crawler.

(** The result of crawling one page, as the route reads it:
    [{success: true, data}] or [{success: false, error}]. *)
Inductive CrawlResponse : Type :=
| CrawlSuccess (data : string)
| CrawlError (error : string).

Definition crawl_success (r : CrawlResponse) : bool :=
  match r with CrawlSuccess _ => true | CrawlError _ => false end.

Record CrawlOutcome : Type := mkCrawlOutcome {
  outcome_url : string;
  outcome_result : CrawlResponse;
}.

(** Modelled from the spec: the ordered outcomes and their conjunction. *)
Record CrawlBatch : Type := mkCrawlBatch {
  outcomes : list CrawlOutcome;
  overallSuccess : bool;
}.

(** What the route's two branches are typed against: when [success] is
    true every per-URL result is a success and carries [data]. *)
Inductive BulkCrawlResponse : Type :=
| BulkSuccess (results : list (string * string))
| BulkFailure (results : list CrawlOutcome) (error : string).

(** Modelled from the spec: the failure taxonomy of one URL. *)
Inductive FetchFailure : Type :=
| FetchTimeout
| FetchError (message : string)
| ExtractionError (message : string).

(** Modelled from the spec: the message that stands for a failure. *)
Definition describe (f : FetchFailure) : string :=
  match f with
  | FetchTimeout => "Timed out fetching the page"
  | FetchError m => "Failed to fetch the page: " +:+ m
  | ExtractionError m => "Failed to extract content: " +:+ m
  end.

(** Modelled from the spec: the parameters of [crawlAll]. *)
Record CrawlOptions : Type := mkCrawlOptions {
  maxConcurrency : nat;
  perUrlTimeout : nat;
  maxRetries : nat;
}.

(** Modelled from the spec: the worker pool, that is the URLs not yet
    dispatched, the URLs being fetched, and the outcomes in the order the
    workers completed them; every URL carries its position in the input. *)
Record Pool : Type := mkPool {
  queue : list (nat * string);
  inflight : list (nat * string);
  completed : list (nat * CrawlOutcome);
}.

(** Modelled from the spec: the input order, by which the batch is
    assembled. *)
Definition byPosition (a b : nat * CrawlOutcome) : Prop := (a.1 ≤ b.1)%nat.

Global Instance byPosition_dec a b : Decision (byPosition a b).
Proof. unfold byPosition. apply _. Defined.

Section BulkExtractor.

(** The web: the readable text extracted from a URL at a given attempt
    under a given timeout, or why the attempt failed. *)
Variable fetchPage : string → nat → nat → string + FetchFailure.
(** Which failures are worth another attempt. *)
Variable transient : FetchFailure → bool.
(** The maximum length of the text kept. *)
Variable maxLength : nat.
(** The scheduler: which of the workers in flight completes at a step. *)
Variable pick : nat → nat.

(** Modelled from the spec: one worker on one URL fetches, on a transient
    failure retries while retries remain, then records the failure. *)
Fixpoint crawlAttempts (url : string) (timeout attempt retries : nat)
  : CrawlResponse :=
  match fetchPage url attempt timeout with
  | inl text => CrawlSuccess (Js.slice text 0 maxLength)
  | inr f =>
      match retries with
      | S r =>
          if transient f then crawlAttempts url timeout (S attempt) r
          else CrawlError (describe f)
      | 0 => CrawlError (describe f)
      end
  end.

(** Modelled from the spec: the outcome of one URL. *)
Definition crawlWebsite (opts : CrawlOptions) (url : string)
  : CrawlOutcome :=
  {| outcome_url := url;
     outcome_result :=
       crawlAttempts url (perUrlTimeout opts) 0 (maxRetries opts) |}.

(** What a worker records for a dispatched URL. *)
Definition record (opts : CrawlOptions) (task : nat * string)
  : nat * CrawlOutcome :=
  (task.1, crawlWebsite opts task.2).

(** Every outcome of the pool, recorded or still to come. *)
Definition allOutcomes (opts : CrawlOptions) (p : Pool)
  : list (nat * CrawlOutcome) :=
  completed p ++ (record opts <$> inflight p) ++ (record opts <$> queue p).

(** The URLs the pool has not completed. *)
Definition pending (p : Pool) : nat :=
  length (inflight p) + length (queue p).

(** Modelled from the spec: idle workers take the next URLs of the queue. *)
Definition refill (size : nat) (p : Pool) : Pool :=
  let free := size - length (inflight p) in
  {| queue := drop free (queue p);
     inflight := inflight p ++ take free (queue p);
     completed := completed p |}.

(** Modelled from the spec: the worker chosen by the scheduler completes
    and records its outcome. *)
Definition finishOne (opts : CrawlOptions) (t : nat) (p : Pool) : Pool :=
  let j := pick t `mod` length (inflight p) in
  match inflight p !! j with
  | Some (i, u) =>
      {| queue := queue p;
         inflight := delete j (inflight p);
         completed := completed p ++ [(i, crawlWebsite opts u)] |}
  | None => p
  end.

(** Modelled from the spec: the pool at work for a number of steps. *)
Fixpoint runPool (opts : CrawlOptions) (t steps : nat) (p : Pool) : Pool :=
  match steps with
  | 0 => p
  | S k =>
      runPool opts (S t) k (finishOne opts t (refill (maxConcurrency opts) p))
  end.

(** Modelled from the spec: the Bulk Extractor ([scraper.ts] is not among
    the sources).  The URLs are dispatched against a pool of
    [maxConcurrency] workers, each fetching one URL with the per-URL
    timeout and retries; the outcomes, recorded in completion order, are
    put back in input order; [overallSuccess] is the conjunction of the
    outcomes' success.  A pool without workers is a configuration
    error. *)
Definition crawlAll (urls : list string) (opts : CrawlOptions)
  : Result CrawlBatch :=
  if bool_decide (maxConcurrency opts = 0)
  then Thrown "maxConcurrency must be positive"
  else
    let tasks := imap (λ i u, (i, u)) urls in
    let p := runPool opts 0 (length urls)
               {| queue := tasks; inflight := []; completed := [] |} in
    let ordered := (merge_sort byPosition (completed p)).*2 in
    Ok {| outcomes := ordered;
          overallSuccess :=
            forallb (λ o, crawl_success (outcome_result o)) ordered |}.

(** Modelled from the spec: the result of a success, as the response gives
    it. *)
Definition successData (o : CrawlOutcome) : option (string * string) :=
  match outcome_result o with
  | CrawlSuccess d => Some (outcome_url o, d)
  | CrawlError _ => None
  end.

(** Modelled from the spec: the error of a batch with failures. *)
Definition failureSummary (os : list CrawlOutcome) : string :=
  String.concat "; "
    (omap (λ o, match outcome_result o with
                | CrawlSuccess _ => None
                | CrawlError e => Some (outcome_url o +:+ ": " +:+ e)
                end) os).

(** Modelled from the spec: [bulkCrawlWebsites({urls})] is the Bulk
    Extractor's batch given as the response the route consumes. *)
Definition bulkCrawlWebsites (opts : CrawlOptions) (urls : list string)
  : Result BulkCrawlResponse :=
  match crawlAll urls opts with
  | Thrown e => Thrown e
  | Ok batch =>
      match (if overallSuccess batch
             then mapM successData (outcomes batch) else None) with
      | Some rs => Ok (BulkSuccess rs)
      | None =>
          Ok (BulkFailure (outcomes batch)
                (failureSummary (outcomes batch)))
      end
  end.

End BulkExtractor.

End Crawler.

(** ** The tools of the agent: [searchWeb] and [scrapePages] *)

Module Tools.

(** The cancellation token of the step a tool call belongs to. *)
Record AbortSignal : Type := mkAbortSignal {
  aborted : bool;
}.

Record SerperRequest : Type := mkSerperRequest {
  q : string;
  num : nat;
}.

Record OrganicResult : Type := mkOrganicResult {
  organic_title : string;
  organic_link : string;
  organic_snippet : string;
  organic_date : option string;
}.

Record SerperResponse : Type := mkSerperResponse {
  organic : list OrganicResult;
}.

(** [{title, link, snippet}] *)
Record SearchHit : Type := mkSearchHit {
  hit_title : string;
  hit_link : string;
  hit_snippet : string;
}.

(** [{title, link, snippet, date}], where [date] may be [undefined]. *)
Record DatedSearchHit : Type := mkDatedSearchHit {
  dated_title : string;
  dated_link : string;
  dated_snippet : string;
  dated_date : option string;
}.

(** [{url, content, success}] *)
Record ScrapedPage : Type := mkScrapedPage {
  page_url : string;
  page_content : string;
  page_success : bool;
}.

Section Search.

Context {W : Type}.

(** [searchSerper] of [serper.ts]: the call to the search provider. *)
Variable searchSerper : SerperRequest → AbortSignal → Eff W SerperResponse.

(** [searchWeb.execute] of the handler without the scraping tool. *)
Definition searchWeb_execute (query : string) (abortSignal : AbortSignal)
  : Eff W (list SearchHit) :=
  let! results := searchSerper {| q := query; num := 10 |} abortSignal in
  ret (map (λ result,
              {| hit_title := organic_title result;
                 hit_link := organic_link result;
                 hit_snippet := organic_snippet result |})
           (organic results)).

(** [searchWeb.execute] of the day-3 handler. *)
Definition searchWeb_execute_dated (query : string) (abortSignal : AbortSignal)
  : Eff W (list DatedSearchHit) :=
  let! results := searchSerper {| q := query; num := 10 |} abortSignal in
  ret (map (λ result,
              {| dated_title := organic_title result;
                 dated_link := organic_link result;
                 dated_snippet := organic_snippet result;
                 dated_date := organic_date result |})
           (organic results)).

(** The provider together with a log of the calls made to it. *)
Definition recorded (body : SerperRequest) (abortSignal : AbortSignal)
  : Eff (W * list (SerperRequest * AbortSignal)) SerperResponse :=
  λ '(w, calls),
    let '(r, w') := searchSerper body abortSignal w in
    (r, (w', calls ++ [(body, abortSignal)])).

End Search.

Section CachedSearch.

Context {W Blob : Type}.

Variable serializeArgs : SerperRequest → string.
Variable hash : string → string.
Variable serialize : SerperResponse → Blob.
Variable deserialize : Blob → SerperResponse.
Variable ttl : nat.

(** The search provider itself: the request over the network. *)
Variable fetchFromSerper : SerperRequest → AbortSignal → Eff W SerperResponse.

(** Modelled from the spec: [searchSerper] of [serper.ts], which is not
    among the sources: the call to the external search collaborator is
    wrapped by the Cache Layer, keyed on the request. *)
Definition cachedSearchSerper (now : nat)
    (body : SerperRequest) (abortSignal : AbortSignal)
  : Eff (gmap string (Cache.CacheEntry Blob) * W) SerperResponse :=
  Cache.cacheWithRedis serializeArgs hash serialize deserialize ttl
    "serper" (λ body, fetchFromSerper body abortSignal) body now.

End CachedSearch.

(** A response of the extractor that has one result per requested URL, in the
    order requested. *)
Definition coversUrls (urls : list string) (r : Crawler.BulkCrawlResponse)
  : Prop :=
  match r with
  | Crawler.BulkSuccess results => results.*1 = urls
  | Crawler.BulkFailure results _ => Crawler.outcome_url <$> results = urls
  end.

(** The record the tool gives for an outcome, in the words of the tool's
    description: the extracted text on success, the error prefixed for
    visibility on failure. *)
Definition pageOfOutcome (o : Crawler.CrawlOutcome) : ScrapedPage :=
  match Crawler.outcome_result o with
  | Crawler.CrawlSuccess text =>
      {| page_url := Crawler.outcome_url o; page_content := text;
         page_success := true |}
  | Crawler.CrawlError e =>
      {| page_url := Crawler.outcome_url o; page_content := "Error: " +:+ e;
         page_success := false |}
  end.

(** The pages describe a batch of outcomes, one per URL and in order. *)
Definition describes (urls : list string) (pages : list ScrapedPage) : Prop :=
  ∃ outcomes, Crawler.outcome_url <$> outcomes = urls
              ∧ pages = pageOfOutcome <$> outcomes.

Section Scrape.

Context {W Blob : Type}.

Variable serializeArgs : list string → string.
Variable hash : string → string.
Variable serialize : list ScrapedPage → Blob.
Variable deserialize : Blob → list ScrapedPage.
Variable ttl : nat.

(** [bulkCrawlWebsites] of [scraper.ts]. *)
Variable bulkCrawlWebsites : list string → Eff W Crawler.BulkCrawlResponse.

(** The function given to [cacheWithRedis]. *)
Definition scrapeUncached (urlsToScrape : list string)
  : Eff W (list ScrapedPage) :=
  let! result := bulkCrawlWebsites urlsToScrape in
  match result with
  | Crawler.BulkSuccess results =>
      ret (map (λ '(url, data),
                  {| page_url := url; page_content := data;
                     page_success := true |}) results)
  | Crawler.BulkFailure results _ =>
      ret (map (λ o,
                  {| page_url := Crawler.outcome_url o;
                     page_content :=
                       match Crawler.outcome_result o with
                       | Crawler.CrawlSuccess data => data
                       | Crawler.CrawlError error => "Error: " +:+ error
                       end;
                     page_success :=
                       Crawler.crawl_success (Crawler.outcome_result o) |})
               results)
  end.

(** [scrapePages.execute] at time [now]. *)
Definition scrapePages_execute (now : nat)
    (urls : list string) (abortSignal : AbortSignal)
  : Eff (gmap string (Cache.CacheEntry Blob) * W) (list ScrapedPage) :=
  let scrapePagesWithCache :=
    Cache.cacheWithRedis serializeArgs hash serialize deserialize ttl
      "scrapePages" scrapeUncached in
  scrapePagesWithCache urls now.

(** The store only holds, under the key of a URL list, pages that describe a
    batch for that list. *)
Definition coherent (store : gmap string (Cache.CacheEntry Blob)) : Prop :=
  ∀ urls e,
    store !! Cache.cacheKey serializeArgs hash "scrapePages" urls = Some e →
    describes urls (deserialize (Cache.value e)).

End Scrape.

End Tools.

(** ** The agent loop: [streamText] *)

Module Agent.

(** Modelled from the spec: a tool call requested by the model. *)
Record ToolCall : Type := mkToolCall {
  call_id : string;
  call_toolName : string;
  call_arguments : string;
}.

(** Modelled from the spec: the output of a tool, or the error it failed
    with; both are results the model sees. *)
Record ToolResult : Type := mkToolResult {
  result_callId : string;
  result_toolName : string;
  result_output : Result string;
}.

(** Modelled from the spec: what the model emits in one step, text and zero
    or more tool calls. *)
Record StepOutput : Type := mkStepOutput {
  step_text : string;
  step_toolCalls : list ToolCall;
}.

(** Modelled from the spec: a step of the loop. *)
Record AgentStep : Type := mkAgentStep {
  stepIndex : nat;
  raw : StepOutput;
  toolResults : list ToolResult;
}.

(** Modelled from the spec: the text returned as final is that of the last
    step, if any. *)
Definition finalText (steps : list AgentStep) : option string :=
  (step_text ∘ raw) <$> last steps.

Section Loop.

Context {W : Type}.

(** The model provider: given the conversation and the steps so far, the next
    step's output, or a provider error. *)
Variable generate : list Message → list AgentStep → Eff W StepOutput.
(** The tool registry: look up, validate and execute one call. *)
Variable executeTool : ToolCall → Eff W string.

(** Modelled from the spec: the state of a loop, that is the world of the
    model and of the tools, and the number of generations started. *)
Definition LoopState : Type := W * nat.

(** Modelled from the spec: Generate. *)
Definition generateStep (transcript : list Message) (steps : list AgentStep)
  : Eff LoopState StepOutput :=
  λ '(w, n), let '(r, w') := generate transcript steps w in (r, (w', S n)).

(** Modelled from the spec: a failing tool does not abort the loop, its
    error is the result. *)
Definition dispatchOne (c : ToolCall) : Eff LoopState ToolResult :=
  λ '(w, n),
    let '(r, w') := executeTool c w in
    (Ok {| result_callId := call_id c;
           result_toolName := call_toolName c;
           result_output := r |}, (w', n)).

(** Modelled from the spec: Dispatch, in call order. *)
Fixpoint dispatch (calls : list ToolCall) : Eff LoopState (list ToolResult) :=
  match calls with
  | [] => ret []
  | c :: calls' =>
      let! r := dispatchOne c in
      let! rs := dispatch calls' in
      ret (r :: rs)
  end.

(** Modelled from the spec: Generate, Dispatch, Advance, with [budget] steps
    left. *)
Fixpoint loop (budget : nat) (transcript : list Message)
    (steps : list AgentStep) : Eff LoopState (list AgentStep) :=
  match budget with
  | 0 => ret steps
  | S budget' =>
      let! out := generateStep transcript steps in
      match step_toolCalls out with
      | [] =>
          ret (steps ++ [{| stepIndex := length steps; raw := out;
                            toolResults := [] |}])%list
      | _ :: _ =>
          let! results := dispatch (step_toolCalls out) in
          loop budget' transcript
            (steps ++ [{| stepIndex := length steps; raw := out;
                          toolResults := results |}])%list
      end
  end.

(** Modelled from the spec: the agent loop behind [streamText], which
    belongs to the AI SDK and is not among the sources.  A state machine over
    steps [0 ≤ stepIndex < maxSteps]: a step with tool calls dispatches them
    in call order and advances; a text-only step terminates the loop; at
    [stepIndex = maxSteps] the loop stops.  A provider error aborts the
    turn. *)
Definition run (maxSteps : nat) (transcript : list Message)
  : Eff LoopState (list AgentStep) :=
  loop maxSteps transcript [].

End Loop.

End Agent.

(** ** What the chat route handlers share *)

Module Route.

Record Session : Type := mkSession {
  user_id : string;
}.

(** The JSON body of a request to the handlers that are told whether the
    chat is new. *)
Record Body : Type := mkBody {
  messages : list Message;
  chatId : string;
  isNewChat : bool;
}.

Inductive ResponseBody : Type :=
| Text (s : string)
| DataStream.

Record Response : Type := mkResponse {
  response_body : ResponseBody;
  status : nat;
}.

(** The options given to [streamText]. *)
Record StreamTextOptions : Type := mkStreamTextOptions {
  opt_messages : list Message;
  opt_maxSteps : nat;
  opt_tools : list string;
}.

(** What a handler does to the outside, in the order it does it. *)
Inductive Event : Type :=
| EvTrace (sessionId userId : string)
| EvSpan (name : string)
| EvSpanEnd (success : bool)
| EvUpsertChat (opts : Db.UpsertOpts)
| EvFindChat (chatId : string)
| EvWriteData (chatId : string)
| EvStreamText (opts : StreamTextOptions)
| EvStreamError (message : string)
| EvFlush.

(** The world of a handler: the database, the time, the world of the model
    and of the tools with the number of generations started, and the
    events so far. *)
Record World (W : Type) : Type := mkWorld {
  db : Db.Database;
  clock : nat;
  agent : W * nat;
  events : list Event;
}.
Arguments mkWorld {W} db clock agent events.
Arguments db {W} w.
Arguments clock {W} w.
Arguments agent {W} w.
Arguments events {W} w.

Section Common.

Context {W : Type}.

Variable newMessageId : nat → string.
Variable generate :
  list Message → list Agent.AgentStep → Eff W Agent.StepOutput.
Variable executeTool : Agent.ToolCall → Eff W string.

Definition emit (e : Event) : Eff (World W) unit :=
  modify (λ w, {| db := db w; clock := clock w; agent := agent w;
                  events := events w ++ [e] |}).

(** Run a query against the database of the world, at the world's time. *)
Definition onDb {A} (c : nat → Eff Db.Database A) : Eff (World W) A :=
  λ w, let '(r, d) := c (clock w) (db w) in
       (r, {| db := d; clock := clock w; agent := agent w;
              events := events w |}).

Definition onAgent {A} (c : Eff (W * nat) A) : Eff (World W) A :=
  λ w, let '(r, a) := c (agent w) in
       (r, {| db := db w; clock := clock w; agent := a;
              events := events w |}).

(** A call to [upsertChat] of [server/db/queries.ts]. *)
Definition upsertChat (opts : Db.UpsertOpts) : Eff (World W) unit :=
  emit (EvUpsertChat opts) ;;
  onDb (Db.upsertChat newMessageId opts).

(** [db.query.chats.findFirst({where: eq(chats.id, chatId)})] *)
Definition findFirst (chatId : string) : Eff (World W) (option Db.ChatRow) :=
  emit (EvFindChat chatId) ;;
  gets (λ w, Db.chats (db w) !! chatId).

(** [streamText(options)]: the agent loop with the step budget of the
    options. *)
Definition streamText (opts : StreamTextOptions)
  : Eff (World W) (list Agent.AgentStep) :=
  emit (EvStreamText opts) ;;
  onAgent (Agent.run generate executeTool (opt_maxSteps opts)
             (opt_messages opts)).

(** [messages[messages.length - 1]!.content]: reading [content] of
    [undefined] throws. *)
Definition lastContent (messages : list Message) : Eff (World W) string :=
  match Js.lastElement messages with
  | Some m => ret (content m)
  | None =>
      throw "TypeError: Cannot read properties of undefined (reading 'content')"
  end.

(** [new Response(body, {status})] *)
Definition textResponse (body : string) (code : nat) : Response :=
  {| response_body := Text body; status := code |}.

Definition streamResponse : Response :=
  {| response_body := DataStream; status := 200 |}.

(** [createDataStreamResponse({execute, onError})]: an error of [execute] is
    reported in the stream. *)
Definition createDataStreamResponse (execute : Eff (World W) unit)
    (onError : string → string) : Eff (World W) Response :=
  try_catch execute (λ e, emit (EvStreamError (onError e))) ;;
  ret streamResponse.

(** [const span = trace.span(..); try { body; span.end(success) }
     catch (error) { span.end(failure); throw error }] *)
Definition inSpan {A} (name : string) (c : Eff (World W) A)
  : Eff (World W) A :=
  emit (EvSpan name) ;;
  try_catch
    (let! a := c in emit (EvSpanEnd true) ;; ret a)
    (λ e, emit (EvSpanEnd false) ;; throw e).

End Common.

(** An event that is not a call to [upsertChat] with another title. *)
Definition titled (t : string) (e : Event) : Prop :=
  match e with
  | EvUpsertChat opts => Db.title opts = t
  | _ => True
  end.

(** The titles of the calls to [upsertChat] in a trace of events. *)
Definition upsertTitles (evs : list Event) : list string :=
  omap (λ e, match e with
             | EvUpsertChat opts => Some (Db.title opts)
             | _ => None
             end) evs.

(** The computation only adds events, all of them satisfying [P]. *)
Definition appends {W A} (P : Event → Prop) (c : Eff (World W) A) : Prop :=
  ∀ w, ∃ new, events (c w).2 = events w ++ new ∧ Forall P new.

(** The computation only adds events, the given one among them. *)
Definition mentions {W A} (e : Event) (c : Eff (World W) A) : Prop :=
  ∀ w, ∃ new, events (c w).2 = events w ++ new ∧ e ∈ new.

(** The computation takes the database to one related to it by [R]. *)
Definition keeps {W A} (R : relation Db.Database) (c : Eff (World W) A)
  : Prop :=
  ∀ w, R (db w) (db (c w).2).

(** The events a computation adds to those of the world it starts in. *)
Definition added {W A} (c : Eff (World W) A) (w : World W) : list Event :=
  drop (length (events w)) (events (c w).2).

(** The spans opened, and the outcomes of the spans ended, in a trace of
    events. *)
Definition opened (evs : list Event) : list string :=
  omap (λ e, match e with EvSpan name => Some name | _ => None end) evs.

Definition ended (evs : list Event) : list bool :=
  omap (λ e, match e with EvSpanEnd success => Some success | _ => None end)
    evs.

End Route.

(** ** The handler with the search tool: [route.ts] beside [queries.ts] *)

Module SearchRoute.

Import Route.

Section Handler.

Context {W : Type}.

Variable newMessageId : nat → string.
Variable generate :
  list Message → list Agent.AgentStep → Eff W Agent.StepOutput.
Variable executeTool : Agent.ToolCall → Eff W string.
(** [appendResponseMessages] of the AI SDK. *)
Variable appendResponseMessages :
  list Message → list Agent.AgentStep → list Message.

Local Abbreviation upsertChat := (Route.upsertChat (W := W) newMessageId).
Local Abbreviation streamText := (Route.streamText generate executeTool).

(** [{model, messages, maxSteps: 10, tools: {searchWeb}, ...}] *)
Definition options (messages : list Message) : StreamTextOptions :=
  {| opt_messages := messages; opt_maxSteps := 10;
     opt_tools := ["searchWeb"] |}.

Definition onFinish (session : Session) (body : Body)
    (response : list Agent.AgentStep) : Eff (World W) unit :=
  let updatedMessages := appendResponseMessages (messages body) response in
  match Js.lastElement (messages body) with
  | None => ret tt
  | Some lastMessage =>
      upsertChat {| Db.userId := user_id session;
                    Db.chatId := chatId body;
                    Db.title := Js.slice (content lastMessage) 0 50 +:+ "...";
                    Db.messageList := updatedMessages |} ;;
      emit EvFlush
  end.

Definition POST (session : option Session) (body : Body)
  : Eff (World W) Response :=
  match session with
  | None => ret (textResponse "Unauthorized" 401)
  | Some session =>
      if bool_decide (length (messages body) = 0)
      then ret (textResponse "No messages provided" 400)
      else
        emit (EvTrace (chatId body) (user_id session)) ;;
        let! early :=
          (if isNewChat body
           then
             let! c := lastContent (messages body) in
             upsertChat {| Db.userId := user_id session;
                           Db.chatId := chatId body;
                           Db.title := Js.slice c 0 50 +:+ "...";
                           Db.messageList := messages body |} ;;
             ret None
           else
             let! chat := findFirst (chatId body) in
             match chat with
             | Some c =>
                 if bool_decide (Db.chat_userId c ≠ user_id session)
                 then ret (Some (textResponse
                                   "Chat not found or unauthorized" 404))
                 else ret None
             | None =>
                 ret (Some (textResponse
                              "Chat not found or unauthorized" 404))
             end) in
        match early with
        | Some r => ret r
        | None =>
            createDataStreamResponse
              ((if isNewChat body
                then emit (EvWriteData (chatId body)) else ret tt) ;;
               let! result := streamText (options (messages body)) in
               onFinish session body result)
              (λ _, "Oops, an error occurred!")
        end
  end.

End Handler.

End SearchRoute.

(** ** The day-3 handler, with the scraping tool and the trace spans *)

Module Day3Route.

Import Route.

Section Handler.

Context {W : Type}.

Variable newMessageId : nat → string.
Variable generate :
  list Message → list Agent.AgentStep → Eff W Agent.StepOutput.
Variable executeTool : Agent.ToolCall → Eff W string.
(** [appendResponseMessages] of the AI SDK. *)
Variable appendResponseMessages :
  list Message → list Agent.AgentStep → list Message.

Local Abbreviation upsertChat := (Route.upsertChat (W := W) newMessageId).
Local Abbreviation streamText := (Route.streamText generate executeTool).

(** [{model, messages, maxSteps: 10, tools: {searchWeb, scrapePages}, ...}] *)
Definition options (messages : list Message) : StreamTextOptions :=
  {| opt_messages := messages; opt_maxSteps := 10;
     opt_tools := ["searchWeb"; "scrapePages"] |}.

Definition onFinish (session : Session) (body : Body)
    (response : list Agent.AgentStep) : Eff (World W) unit :=
  let updatedMessages := appendResponseMessages (messages body) response in
  match Js.lastElement (messages body) with
  | None => ret tt
  | Some lastMessage =>
      inSpan "save-chat-history"
        (upsertChat {| Db.userId := user_id session;
                       Db.chatId := chatId body;
                       Db.title :=
                         Js.slice (content lastMessage) 0 50 +:+ "...";
                       Db.messageList := updatedMessages |}) ;;
      emit EvFlush
  end.

Definition POST (session : option Session) (body : Body)
  : Eff (World W) Response :=
  match session with
  | None => ret (textResponse "Unauthorized" 401)
  | Some session =>
      if bool_decide (length (messages body) = 0)
      then ret (textResponse "No messages provided" 400)
      else
        emit (EvTrace (chatId body) (user_id session)) ;;
        let! early :=
          (if isNewChat body
           then
             let! c := lastContent (messages body) in
             emit (EvSpan "create-new-chat") ;;
             try_catch
               (upsertChat {| Db.userId := user_id session;
                              Db.chatId := chatId body;
                              Db.title := Js.slice c 0 50 +:+ "...";
                              Db.messageList := messages body |} ;;
                emit (EvSpanEnd true))
               (λ e, emit (EvSpanEnd false) ;; throw e) ;;
             ret None
           else
             emit (EvSpan "verify-chat-ownership") ;;
             try_catch
               (let! chat := findFirst (chatId body) in
                match chat with
                | Some c =>
                    if bool_decide (Db.chat_userId c ≠ user_id session)
                    then
                      emit (EvSpanEnd false) ;;
                      ret (Some (textResponse
                                   "Chat not found or unauthorized" 404))
                    else emit (EvSpanEnd true) ;; ret None
                | None =>
                    emit (EvSpanEnd false) ;;
                    ret (Some (textResponse
                                 "Chat not found or unauthorized" 404))
                end)
               (λ e, emit (EvSpanEnd false) ;; throw e)) in
        match early with
        | Some r => ret r
        | None =>
            createDataStreamResponse
              ((if isNewChat body
                then emit (EvWriteData (chatId body)) else ret tt) ;;
               let! result := streamText (options (messages body)) in
               onFinish session body result)
              (λ _, "Oops, an error occurred!")
        end
  end.

End Handler.

End Day3Route.

(** ** The earlier handler, which takes an optional chat id *)

Module FirstRoute.

Import Route.

(** The JSON body of the request: [chatId] may be missing. *)
Record Body : Type := mkBody {
  messages : list Message;
  chatId : option string;
}.

Section Handler.

Context {W : Type}.

Variable newMessageId : nat → string.
Variable generate :
  list Message → list Agent.AgentStep → Eff W Agent.StepOutput.
Variable executeTool : Agent.ToolCall → Eff W string.
(** [appendResponseMessages] of the AI SDK. *)
Variable appendResponseMessages :
  list Message → list Agent.AgentStep → list Message.
(** [crypto.randomUUID()], a function of the time it is called at. *)
Variable randomUUID : nat → string.

Local Abbreviation upsertChat := (Route.upsertChat (W := W) newMessageId).
Local Abbreviation streamText := (Route.streamText generate executeTool).

(** [{model, messages, maxSteps: 10, tools: {searchWeb}, ...}] *)
Definition options (messages : list Message) : StreamTextOptions :=
  {| opt_messages := messages; opt_maxSteps := 10;
     opt_tools := ["searchWeb"] |}.

(** [!chatId]: [undefined] and the empty string are both falsy. *)
Definition falsy (chatId : option string) : bool :=
  match chatId with
  | None => true
  | Some s => bool_decide (s = "")
  end.

(** [content.slice(0, 100) + (content.length > 100 ? "..." : "")] *)
Definition title (c : string) : string :=
  Js.slice c 0 100
  +:+ (if bool_decide (100 < String.length c) then "..." else "").

(** [upsertChat(..).catch((error) => console.error(..))] inside. *)
Definition onFinish (session : Session) (body : Body)
    (finalChatId : string) (response : list Agent.AgentStep)
  : Eff (World W) unit :=
  let updatedMessages := appendResponseMessages (messages body) response in
  match Js.lastElement (messages body) with
  | Some userMessage =>
      try_catch
        (upsertChat {| Db.userId := user_id session;
                       Db.chatId := finalChatId;
                       Db.title := title (content userMessage);
                       Db.messageList := updatedMessages |})
        (λ _, ret tt)
  | None => ret tt
  end.

Definition POST (session : option Session) (body : Body)
  : Eff (World W) Response :=
  match session with
  | None => ret (textResponse "Unauthorized" 401)
  | Some session =>
      let! finalChatId :=
        (if falsy (chatId body)
         then
           let! fresh := gets (λ w, randomUUID (clock w)) in
           match Js.lastElement (messages body) with
           | Some userMessage =>
               upsertChat {| Db.userId := user_id session;
                             Db.chatId := fresh;
                             Db.title := title (content userMessage);
                             Db.messageList := messages body |} ;;
               ret fresh
           | None => ret fresh
           end
         else ret (default "" (chatId body))) in
      createDataStreamResponse
        ((if falsy (chatId body)
          then emit (EvWriteData finalChatId) else ret tt) ;;
         let! result := streamText (options (messages body)) in
         onFinish session body finalChatId result)
        (λ _, "Oops, an error occured!")
  end.

End Handler.

End FirstRoute.

(** ** The day-1 handler: the search tool, nothing stored *)

Module Day1Route.

Import Route.

(** The JSON body of the request. *)
Record Body : Type := mkBody {
  messages : list Message;
}.

Section Handler.

Context {W : Type}.

Variable generate :
  list Message → list Agent.AgentStep → Eff W Agent.StepOutput.
Variable executeTool : Agent.ToolCall → Eff W string.

Local Abbreviation streamText := (Route.streamText generate executeTool).

(** [{model, messages, system, maxSteps: 10, tools: {searchWeb}}] *)
Definition options (messages : list Message) : StreamTextOptions :=
  {| opt_messages := messages; opt_maxSteps := 10;
     opt_tools := ["searchWeb"] |}.

Definition POST (session : option Session) (body : Body)
  : Eff (World W) Response :=
  match session with
  | None => ret (textResponse "Unauthorized" 401)
  | Some session =>
      createDataStreamResponse
        (let! result := streamText (options (messages body)) in
         ret tt)
        (λ _, "Oops, an error occured!")
  end.

End Handler.

End Day1Route.

(** ** The handler with search grounding: no tools, nothing stored *)

Module GroundingRoute.

Import Route.

(** The JSON body of the request. *)
Record Body : Type := mkBody {
  messages : list Message;
}.

Section Handler.

Context {W : Type}.

Variable generate :
  list Message → list Agent.AgentStep → Eff W Agent.StepOutput.
Variable executeTool : Agent.ToolCall → Eff W string.

Local Abbreviation streamText := (Route.streamText generate executeTool).

(** [{model, messages, system, maxSteps: 10}] *)
Definition options (messages : list Message) : StreamTextOptions :=
  {| opt_messages := messages; opt_maxSteps := 10; opt_tools := [] |}.

Definition POST (session : option Session) (body : Body)
  : Eff (World W) Response :=
  match session with
  | None => ret (textResponse "Unauthorized" 401)
  | Some session =>
      createDataStreamResponse
        (let! result := streamText (options (messages body)) in
         ret tt)
        (λ _, "Oops, an error occured!")
  end.

End Handler.

End GroundingRoute.

(** ** The message component: [chat-message.tsx] *)

Module ChatMessage.

Section ToolInvocationPart.

(** [String.prototype.toUpperCase]. *)
Variable toUpperCase : string → string.

(** The character ["-"]. *)
Definition dash : Ascii.ascii := Ascii.ascii_of_nat 45.

(** [name.split("-")
        .map((word) => word.charAt(0).toUpperCase() + word.slice(1))
        .join(" ")] *)
Definition formatToolName (name : string) : string :=
  Js.join " "
    (map (λ word, toUpperCase (Js.charAt word 0) +:+ Js.sliceFrom word 1)
         (Js.split dash name)).

End ToolInvocationPart.

End ChatMessage.

(** ** Sample data *)

Module Sample.

Definition rowId (n : nat) : string := "row-" +:+ pretty n.

Definition hello : Message :=
  {| id := "m1"; role := RoleUser; content := "What is Rocq?" |}.

Definition answer : Message :=
  {| id := "m2"; role := RoleAssistant; content := "A proof assistant." |}.

Definition aliceChat : Db.UpsertOpts :=
  {| Db.userId := "alice"; Db.chatId := "chat-1";
     Db.title := "What is Rocq?..."; Db.messageList := [hello] |}.

Definition aliceChatSaved : Db.UpsertOpts :=
  {| Db.userId := "alice"; Db.chatId := "chat-1";
     Db.title := "What is Rocq?..."; Db.messageList := [hello; answer] |}.

Definition bobChat : Db.UpsertOpts :=
  {| Db.userId := "bob"; Db.chatId := "chat-1"; Db.title := "Mine now...";
     Db.messageList := [answer] |}.

Definition aliceRetitled : Db.UpsertOpts :=
  {| Db.userId := "alice"; Db.chatId := "chat-1";
     Db.title := "Rocq, again"; Db.messageList := [hello; answer] |}.

Definition carolChat : Db.UpsertOpts :=
  {| Db.userId := "carol"; Db.chatId := "chat-2";
     Db.title := "hi"; Db.messageList := [answer] |}.

Definition aliceRow : Db.ChatRow :=
  {| Db.chat_id := "chat-1"; Db.chat_title := "What is Rocq?...";
     Db.chat_userId := "alice"; Db.chat_createdAt := 1;
     Db.chat_updatedAt := 1 |}.

(** An operation that fails until it has been tried once; the world counts
    the invocations. *)
Definition flaky (args : string) : Eff nat string :=
  λ n, match n with
       | 0 => (Thrown "connection reset", 1)
       | S _ => (Ok ("result for " +:+ args), S n)
       end.

Definition idString (s : string) : string := s.

(** A search provider that answers every query with the same two results and
    logs the requests it receives. *)
Definition twoResults : Tools.SerperResponse :=
  {| Tools.organic :=
       [ {| Tools.organic_title := "Rocq";
            Tools.organic_link := "https://rocq-prover.org";
            Tools.organic_snippet := "The Rocq prover";
            Tools.organic_date := Some "2025-03-01" |};
         {| Tools.organic_title := "stdpp";
            Tools.organic_link := "https://gitlab.mpi-sws.org/iris/stdpp";
            Tools.organic_snippet := "An extended standard library";
            Tools.organic_date := None |} ] |}.

Definition loggingProvider (body : Tools.SerperRequest)
    (abortSignal : Tools.AbortSignal)
  : Eff (list Tools.SerperRequest) Tools.SerperResponse :=
  λ log, (Ok twoResults, log ++ [body]).

Definition requestText (body : Tools.SerperRequest) : string :=
  Tools.q body +:+ "#" +:+ pretty (Tools.num body).

Definition idResponse (r : Tools.SerperResponse) : Tools.SerperResponse := r.

Definition rocqRequest : Tools.SerperRequest :=
  {| Tools.q := "rocq"; Tools.num := 10 |}.

Definition standing : Tools.AbortSignal := {| Tools.aborted := false |}.

Definition cachedSearch (now : nat) :=
  Tools.searchWeb_execute_dated
    (Tools.cachedSearchSerper requestText idString idResponse idResponse 3600
       loggingProvider now).

Definition emptyStore : gmap string (Cache.CacheEntry Tools.SerperResponse) :=
  ∅.

Definition storeAfterSearch
  : gmap string (Cache.CacheEntry Tools.SerperResponse) :=
  {[ "serperrocq#10" := Cache.mkCacheEntry twoResults 3700 ]}.

Definition rocqHits : list Tools.DatedSearchHit :=
  [ {| Tools.dated_title := "Rocq";
       Tools.dated_link := "https://rocq-prover.org";
       Tools.dated_snippet := "The Rocq prover";
       Tools.dated_date := Some "2025-03-01" |};
    {| Tools.dated_title := "stdpp";
       Tools.dated_link := "https://gitlab.mpi-sws.org/iris/stdpp";
       Tools.dated_snippet := "An extended standard library";
       Tools.dated_date := None |} ].

(** A web with one page that answers, one that times out and one that
    answers at the second attempt. *)
Definition web (url : string) (attempt timeout : nat)
  : string + Crawler.FetchFailure :=
  if bool_decide (url = "https://rocq-prover.org") then inl "The Rocq prover"
  else if bool_decide (url = "https://slow.example")
       then (if bool_decide (attempt = 0)
             then inr (Crawler.FetchError "503") else inl "At last")
       else inr Crawler.FetchTimeout.

Definition retryable (f : Crawler.FetchFailure) : bool :=
  match f with
  | Crawler.ExtractionError _ => false
  | _ => true
  end.

(** The worker dispatched last completes first. *)
Definition lastFirst (t : nat) : nat := 1.

Definition threeUrls : list string :=
  ["https://down.example"; "https://rocq-prover.org"; "https://slow.example"].

Definition twoWorkers : Crawler.CrawlOptions :=
  {| Crawler.maxConcurrency := 2; Crawler.perUrlTimeout := 1000;
     Crawler.maxRetries := 2 |}.

(** A serialization of URL lists: every character is announced by [1], the
    end of a URL by [0]. *)
Fixpoint encodeUrl (s : string) : string :=
  match s with
  | EmptyString => "0"
  | String c s' => String (Ascii.ascii_of_nat 49) (String c (encodeUrl s'))
  end.

Fixpoint encodeUrls (urls : list string) : string :=
  match urls with
  | [] => ""
  | u :: urls' => encodeUrl u +:+ encodeUrls urls'
  end.

Definition idPages (pages : list Tools.ScrapedPage) : list Tools.ScrapedPage :=
  pages.

Definition crawlTheWeb (urls : list string)
  : Eff unit Crawler.BulkCrawlResponse :=
  λ w, (Crawler.bulkCrawlWebsites web retryable 2000 lastFirst twoWorkers urls,
        w).

(** A model that asks for a search at every step, and a tool that echoes
    its arguments. *)
Definition alwaysSearching (transcript : list Message)
    (steps : list Agent.AgentStep) : Eff unit Agent.StepOutput :=
  ret {| Agent.step_text := "Let me look that up.";
         Agent.step_toolCalls :=
           [ {| Agent.call_id := "call-" +:+ pretty (length steps);
                Agent.call_toolName := "searchWeb";
                Agent.call_arguments := "rocq" |} ] |}.

Definition echoTool (c : Agent.ToolCall) : Eff unit string :=
  ret (Agent.call_arguments c).

Definition assistantTurns (messages : list Message)
    (steps : list Agent.AgentStep) : list Message :=
  messages ++
  map (λ s, {| id := "a" +:+ pretty (Agent.stepIndex s);
               role := RoleAssistant;
               content := Agent.step_text (Agent.raw s) |}) steps.

Definition freshWorld : Route.World unit :=
  {| Route.db := Db.empty; Route.clock := 7; Route.agent := (tt, 0);
     Route.events := [] |}.

Definition alice : Route.Session := {| Route.user_id := "alice" |}.

Definition hi : Message :=
  {| id := "m1"; role := RoleUser; content := "hi" |}.

Definition newChat : Route.Body :=
  {| Route.messages := [hello]; Route.chatId := "chat-1";
     Route.isNewChat := true |}.

Definition noMessages : Route.Body :=
  {| Route.messages := []; Route.chatId := "chat-1";
     Route.isNewChat := true |}.

Definition justHi : FirstRoute.Body :=
  {| FirstRoute.messages := [hi]; FirstRoute.chatId := None |}.

Definition nothing : FirstRoute.Body :=
  {| FirstRoute.messages := []; FirstRoute.chatId := None |}.

Definition uuid (n : nat) : string := "uuid-" +:+ pretty n.

(** A model that answers at once, and one that is out of service. *)
Definition answering (transcript : list Message)
    (steps : list Agent.AgentStep) : Eff unit Agent.StepOutput :=
  ret {| Agent.step_text := "A proof assistant.";
         Agent.step_toolCalls := [] |}.

Definition failing (transcript : list Message)
    (steps : list Agent.AgentStep) : Eff unit Agent.StepOutput :=
  throw "model overloaded".

Definition oneStep : list Agent.AgentStep :=
  [ {| Agent.stepIndex := 0;
       Agent.raw := {| Agent.step_text := "A proof assistant.";
                       Agent.step_toolCalls := [] |};
       Agent.toolResults := [] |} ].

(** The world in which alice has saved her chat. *)
Definition aliceWorld : Route.World unit :=
  {| Route.db := Db.runUpserts rowId [(aliceChat, 1)]; Route.clock := 7;
     Route.agent := (tt, 0); Route.events := [] |}.

Definition bob : Route.Session := {| Route.user_id := "bob" |}.

Definition intoAlices : FirstRoute.Body :=
  {| FirstRoute.messages := [hi]; FirstRoute.chatId := Some "chat-1" |}.

End Sample.

(** * Properties *)

(** ** The embedding on sample inputs *)

Example slice_cuts_at_50 :
  Js.slice "0123456789012345678901234567890123456789012345678901234567890" 0 50
  = "01234567890123456789012345678901234567890123456789".
Proof. reflexivity. Qed.

Example slice_keeps_short : Js.slice "What is Rocq?" 0 50 = "What is Rocq?".
Proof. reflexivity. Qed.

Example upsert_then_get :
  Db.conv_messages <$>
    Db.getChat "chat-1"
      (Db.runUpserts Sample.rowId
         [(Sample.aliceChat, 1); (Sample.aliceChatSaved, 2)])
  = Some [ {| id := "row-1"; role := RoleUser; content := "What is Rocq?" |};
           {| id := "row-2"; role := RoleAssistant;
              content := "A proof assistant." |} ].
Proof. vm_compute. reflexivity. Qed.

Example upsert_by_another_user :
  (Db.upsertChat Sample.rowId Sample.bobChat 2
     (Db.runUpserts Sample.rowId [(Sample.aliceChat, 1)])).1
  = Thrown "Chat does not belong to the logged in user".
Proof. vm_compute. reflexivity. Qed.

(** The workers complete out of order; the batch is in input order. *)
Example pool_completion_order :
  (Crawler.completed
     (Crawler.runPool Sample.web Sample.retryable 2000 Sample.lastFirst
        Sample.twoWorkers 0 3
        {| Crawler.queue := imap (λ i u, (i, u)) Sample.threeUrls;
           Crawler.inflight := []; Crawler.completed := [] |})).*1
  = [1; 2; 0].
Proof. vm_compute. reflexivity. Qed.

Example crawl_three_urls :
  Crawler.crawlAll Sample.web Sample.retryable 2000 Sample.lastFirst
    Sample.threeUrls Sample.twoWorkers
  = Ok {| Crawler.outcomes :=
            [ {| Crawler.outcome_url := "https://down.example";
                 Crawler.outcome_result :=
                   Crawler.CrawlError "Timed out fetching the page" |};
              {| Crawler.outcome_url := "https://rocq-prover.org";
                 Crawler.outcome_result :=
                   Crawler.CrawlSuccess "The Rocq prover" |};
              {| Crawler.outcome_url := "https://slow.example";
                 Crawler.outcome_result := Crawler.CrawlSuccess "At last" |} ];
          Crawler.overallSuccess := false |}.
Proof. vm_compute. reflexivity. Qed.

Example scrape_three_urls :
  (Tools.scrapePages_execute Sample.encodeUrls Sample.idString Sample.idPages
     Sample.idPages 3600 Sample.crawlTheWeb 100 Sample.threeUrls
     Sample.standing (∅, tt)).1
  = Ok [ {| Tools.page_url := "https://down.example";
            Tools.page_content := "Error: Timed out fetching the page";
            Tools.page_success := false |};
         {| Tools.page_url := "https://rocq-prover.org";
            Tools.page_content := "The Rocq prover";
            Tools.page_success := true |};
         {| Tools.page_url := "https://slow.example";
            Tools.page_content := "At last";
            Tools.page_success := true |} ].
Proof. vm_compute. reflexivity. Qed.

(** The first call fails and stores nothing; the second runs the operation
    again and stores its result; the third is served from the store. *)
Example flaky_then_cached :
  let call := Cache.cacheWithRedis Sample.idString Sample.idString
                Sample.idString Sample.idString 60 "op" Sample.flaky "q" in
  let s1 := (call 5 (∅, 0)).2 in
  let s2 := (call 6 s1).2 in
  (call 5 (∅, 0)).1 = Thrown "connection reset"
  ∧ s1 = (∅, 1)
  ∧ (call 6 s1).1 = Ok "result for q" ∧ s2.2 = 2
  ∧ (call 7 s2).1 = Ok "result for q" ∧ (call 7 s2).2 = s2
  ∧ (call 66 s2).2.2 = 3.
Proof. vm_compute. done. Qed.

(** A model that always asks for a tool is stopped after 10 generations. *)
Example ten_generations :
  let out := Agent.run Sample.alwaysSearching Sample.echoTool 10
               [Sample.hello] (tt, 0) in
  (length <$> (match out.1 with Ok steps => Some steps | Thrown _ => None end),
   out.2.2)
  = (Some 10, 10).
Proof. vm_compute. reflexivity. Qed.

Example new_chat_titles :
  Route.upsertTitles
    (Route.events
       (Day3Route.POST Sample.rowId Sample.alwaysSearching Sample.echoTool
          Sample.assistantTurns (Some Sample.alice) Sample.newChat
          Sample.freshWorld).2)
  = ["What is Rocq?..."; "What is Rocq?..."].
Proof. vm_compute. reflexivity. Qed.

Example unauthenticated :
  (SearchRoute.POST Sample.rowId Sample.alwaysSearching Sample.echoTool
     Sample.assistantTurns None Sample.newChat Sample.freshWorld).1
  = Ok {| Route.response_body := Route.Text "Unauthorized";
          Route.status := 401 |}.
Proof. reflexivity. Qed.

(** ** The conversation store *)

Section QueriesFacts.

Import Db.

Variable newMessageId : nat → string.

Local Abbreviation upsertChat := (Db.upsertChat newMessageId).
Local Abbreviation rowsOf := (Db.rowsOf newMessageId).

Lemma inserted_rows base cid ms :
  imap (λ k '(cid', r, p, o),
          {| msg_id := newMessageId (base + k); msg_chatId := cid';
             msg_role := r; msg_parts := p; msg_order := o |})
       (messageValues cid ms)
  = rowsOf base cid ms.
Proof.
  unfold messageValues, rowsOf.
  apply list_eq; intros i.
  rewrite !list_lookup_imap.
  destruct (ms !! i); done.
Qed.

Lemma upsertChat_foreign db opts now c :
  chats db !! chatId opts = Some c →
  chat_userId c ≠ userId opts →
  upsertChat opts now db = (Thrown notOwner, db).
Proof.
  intros Hc Hne.
  unfold Db.upsertChat, bind, selectChat, gets; rewrite Hc; simpl.
  rewrite !bool_decide_eq_true_2 by (simpl; (lia || congruence)).
  reflexivity.
Qed.

(** What a call that does not throw leaves behind. *)
Lemma upsertChat_accepted db opts now :
  (∀ c, chats db !! chatId opts = Some c → chat_userId c = userId opts) →
  ∃ db', upsertChat opts now db = (Ok tt, db')
    ∧ chats db' = <[chatId opts := rowAfter db opts now]> (chats db)
    ∧ messages db' =
        (match chats db !! chatId opts with
         | Some _ => filter (λ m, msg_chatId m ≠ chatId opts) (messages db)
         | None => messages db
         end ++ rowsOf (idSeq db) (chatId opts) (messageList opts))%list.
Proof.
  intros Hown.
  unfold Db.upsertChat, bind, selectChat, gets, rowAfter.
  destruct (chats db !! chatId opts) as [c|] eqn:Hc; simpl.
  - rewrite (bool_decide_eq_false_2 (_ ≠ _))
      by (intros H; apply H; simpl; f_equal; by apply Hown).
    simpl. unfold deleteMessages, insertChat, insertMessages, modify; simpl.
    rewrite Hc.
    destruct (messageList opts) as [|m ms] eqn:Hms; simpl.
    + eexists; split; [reflexivity|]. simpl. by rewrite app_nil_r.
    + eexists; split; [reflexivity|]. simpl. split; [done|].
      f_equal. rewrite <- Hms.
      pose proof (inserted_rows (idSeq db) (chatId opts) (messageList opts)) as E.
      rewrite Hms in E |- *. exact E.
  - unfold insertChat, insertMessages, modify; simpl. rewrite Hc.
    destruct (messageList opts) as [|m ms] eqn:Hms; simpl.
    + eexists; split; [reflexivity|]. simpl. by rewrite app_nil_r.
    + eexists; split; [reflexivity|]. simpl. split; [done|].
      f_equal.
      pose proof (inserted_rows (idSeq db) (chatId opts) (messageList opts)) as E.
      rewrite Hms in E. exact E.
Qed.

(** A call either throws the ownership error and changes nothing, or is
    accepted. *)
Lemma upsertChat_cases db opts now :
  (∃ c, chats db !! chatId opts = Some c ∧ chat_userId c ≠ userId opts
        ∧ upsertChat opts now db = (Thrown notOwner, db))
  ∨ (∀ c, chats db !! chatId opts = Some c → chat_userId c = userId opts).
Proof.
  destruct (chats db !! chatId opts) as [c|] eqn:Hc.
  - destruct (decide (chat_userId c = userId opts)) as [E|N].
    + right. intros c' [= <-]. exact E.
    + left. exists c. split; [done|]. split; [done|].
      by apply upsertChat_foreign with c.
  - right. intros c' [=].
Qed.

Lemma rowsOf_chatId base cid ms m :
  m ∈ rowsOf base cid ms → msg_chatId m = cid.
Proof.
  unfold rowsOf. intros (i & x & -> & _)%elem_of_lookup_imap. done.
Qed.

Lemma wellFormed_empty : wellFormed Db.empty.
Proof. intros m Hm. simpl in Hm. by apply not_elem_of_nil in Hm. Qed.

Lemma wellFormed_upsertChat db opts now :
  wellFormed db → wellFormed (upsertChat opts now db).2.
Proof.
  intros Hwf.
  destruct (upsertChat_cases db opts now) as [(c & _ & _ & ->)|Hown]; [done|].
  destruct (upsertChat_accepted db opts now Hown) as (db' & -> & Hch & Hms).
  simpl. intros m. rewrite Hch, Hms, elem_of_app.
  intros [Hm|Hm].
  - apply lookup_insert_is_Some'. right. apply Hwf.
    destruct (chats db !! chatId opts); [|done].
    by apply list_elem_of_filter in Hm as [_ ?].
  - apply rowsOf_chatId in Hm as ->.
    rewrite lookup_insert_eq. by eexists.
Qed.

Lemma wellFormed_runUpsertsFrom calls db :
  wellFormed db → wellFormed (runUpsertsFrom newMessageId db calls).
Proof.
  unfold runUpsertsFrom.
  revert db. induction calls as [|call calls IH]; intros db Hwf; [done|].
  simpl. apply IH. by apply wellFormed_upsertChat.
Qed.

Lemma filter_none {A} (P : A → Prop) `{∀ x, Decision (P x)} (l : list A) :
  (∀ x, x ∈ l → ¬ P x) → filter P l = [].
Proof.
  induction l as [|x l IH]; intros Hl; [done|].
  rewrite filter_cons_False by (apply Hl; left).
  apply IH. intros y Hy. apply Hl. by right.
Qed.

Lemma filter_all {A} (P : A → Prop) `{∀ x, Decision (P x)} (l : list A) :
  (∀ x, x ∈ l → P x) → filter P l = l.
Proof.
  induction l as [|x l IH]; intros Hl; [done|].
  rewrite filter_cons_True by (apply Hl; left).
  f_equal. apply IH. intros y Hy. apply Hl. by right.
Qed.

Global Instance byOrder_transitive : Transitive byOrder.
Proof. unfold byOrder. intros a b c. lia. Qed.

Global Instance byOrder_total : Total byOrder.
Proof. unfold byOrder. intros a b. lia. Qed.

Lemma rowsOf_sorted base cid ms : Sorted byOrder (rowsOf base cid ms).
Proof.
  apply StronglySorted_Sorted. unfold rowsOf.
  assert (∀ (g : nat → Message → MessageRow) k,
            (∀ i m, msg_order (g i m) = k + i) →
            StronglySorted byOrder (imap g ms)) as Hgen.
  { induction ms as [|m ms IH]; intros g k Hg; [constructor|].
    rewrite imap_cons. constructor.
    - apply (IH _ (S k)). intros i x. simpl. rewrite Hg. lia.
    - apply Forall_forall. intros y (i & x & -> & _)%elem_of_lookup_imap.
      unfold byOrder. simpl. rewrite !Hg. lia. }
  apply (Hgen _ 0). done.
Qed.

(** [ORDER BY order] returns the rows of one upsert in the order of the
    upserted list. *)
Lemma orderByOrder_rowsOf base cid ms :
  orderByOrder (rowsOf base cid ms) = rowsOf base cid ms.
Proof.
  unfold orderByOrder.
  apply (Sorted_unique_strong byOrder).
  - intros x1 x2 Hx1 Hx2 H12 H21.
    rewrite merge_sort_Permutation in Hx1.
    unfold rowsOf in Hx1, Hx2.
    apply elem_of_lookup_imap in Hx1 as (i & a & -> & Ha).
    apply elem_of_lookup_imap in Hx2 as (j & b & -> & Hb).
    unfold byOrder in H12, H21. simpl in *.
    assert (i = j) as -> by lia. congruence.
  - apply Sorted_merge_sort; apply _.
  - apply rowsOf_sorted.
  - apply merge_sort_Permutation.
Qed.

Lemma rowsOf_messages base cid ms :
  map (λ msg, {| id := msg_id msg; role := msg_role msg;
                 content := msg_parts msg |}) (rowsOf base cid ms)
  = imap (λ k m, {| id := newMessageId (base + k); role := role m;
                    content := content m |}) ms.
Proof.
  unfold rowsOf. apply list_eq. intros i.
  rewrite list_lookup_fmap, !list_lookup_imap.
  by destruct (ms !! i).
Qed.

(** Reading a chat back after an accepted upsert. *)
Lemma getChat_upsertChat db opts now db' :
  wellFormed db →
  upsertChat opts now db = (Ok tt, db') →
  getChat (chatId opts) db' =
    Some {| conv_chat := rowAfter db opts now;
            conv_messages :=
              imap (λ k m, {| id := newMessageId (idSeq db + k);
                              role := role m; content := content m |})
                   (messageList opts) |}.
Proof.
  intros Hwf Hup.
  destruct (upsertChat_cases db opts now) as [(c & _ & _ & E)|Hown];
    [congruence|].
  destruct (upsertChat_accepted db opts now Hown) as (db2 & E & Hch & Hms).
  assert (db2 = db') as -> by congruence.
  unfold getChat. rewrite Hch, lookup_insert_eq. do 2 f_equal.
  rewrite Hms, filter_app.
  rewrite (filter_all _ (rowsOf _ _ _)) by (intros m; apply rowsOf_chatId).
  rewrite (filter_none _ (match chats db !! chatId opts with
                          | Some _ => _ | None => _ end)).
  - simpl. rewrite orderByOrder_rowsOf. apply rowsOf_messages.
  - intros m Hm Hcid.
    destruct (chats db !! chatId opts) eqn:Hc.
    + by apply list_elem_of_filter in Hm as [? _].
    + apply Hwf in Hm. rewrite Hcid, Hc in Hm. by destruct Hm.
Qed.

(** A chat row is only created by a call for its id. *)
Lemma chats_upsertChat_other db opts now cid :
  chatId opts ≠ cid →
  chats (upsertChat opts now db).2 !! cid = chats db !! cid.
Proof.
  intros Hne.
  destruct (upsertChat_cases db opts now) as [(c & _ & _ & ->)|Hown]; [done|].
  destruct (upsertChat_accepted db opts now Hown) as (db' & -> & Hch & _).
  simpl. rewrite Hch. by rewrite lookup_insert_ne.
Qed.

Lemma chats_runUpsertsFrom_other calls db cid :
  (∀ call, call ∈ calls → chatId call.1 ≠ cid) →
  chats (runUpsertsFrom newMessageId db calls) !! cid = chats db !! cid.
Proof.
  unfold runUpsertsFrom.
  revert db. induction calls as [|call calls IH]; intros db Hcalls; [done|].
  simpl. rewrite IH.
  - apply chats_upsertChat_other. apply Hcalls. by left.
  - intros c Hc. apply Hcalls. by right.
Qed.

(** The owner of an existing chat survives any call. *)
Lemma owner_upsertChat db opts now cid c :
  chats db !! cid = Some c →
  ∃ c', chats (upsertChat opts now db).2 !! cid = Some c'
        ∧ chat_userId c' = chat_userId c.
Proof.
  intros Hc.
  destruct (upsertChat_cases db opts now) as [(c0 & _ & _ & ->)|Hown];
    [by exists c|].
  destruct (upsertChat_accepted db opts now Hown) as (db' & -> & Hch & _).
  simpl. rewrite Hch. destruct (decide (chatId opts = cid)) as [<-|Hne].
  - rewrite lookup_insert_eq. eexists; split; [done|].
    unfold rowAfter. by rewrite Hc.
  - rewrite lookup_insert_ne by done. by exists c.
Qed.

Lemma owner_runUpsertsFrom calls db cid c :
  chats db !! cid = Some c →
  ∃ c', chats (runUpsertsFrom newMessageId db calls) !! cid = Some c'
        ∧ chat_userId c' = chat_userId c.
Proof.
  unfold runUpsertsFrom.
  revert db c. induction calls as [|call calls IH]; intros db c Hc.
  { by exists c. }
  simpl.
  destruct (owner_upsertChat db call.1 call.2 cid c Hc) as (c1 & H1 & E1).
  destruct (IH _ c1 H1) as (c2 & H2 & E2).
  exists c2. split; [exact H2 | congruence].
Qed.

(** C5: an upsert of an existing chat by a user other than its owner throws
    and leaves the store as it was, the check coming before any deletion or
    insertion; and whatever calls follow, the chat keeps its owner. *)
Theorem upsertChat_owner_never_changes db opts now c :
  chats db !! chatId opts = Some c →
  chat_userId c ≠ userId opts →
  upsertChat opts now db = (Thrown notOwner, db)
  ∧ ∀ calls, ∃ c',
      chats (runUpsertsFrom newMessageId db calls) !! chatId opts = Some c'
      ∧ chat_userId c' = chat_userId c.
Proof.
  intros Hc Hne. split.
  - by apply upsertChat_foreign with c.
  - intros calls. by apply owner_runUpsertsFrom.
Qed.

(** C6: after an upsert that succeeds, [getChat] of that chat returns a
    conversation whose messages are as many as the upserted ones, with the
    same roles and contents in the same order; and [getChat] of an id no
    call was made for returns [null]. *)
Theorem getChat_returns_upserted calls :
  (∀ opts now db',
     upsertChat opts now (runUpserts newMessageId calls) = (Ok tt, db') →
     ∃ conv, getChat (chatId opts) db' = Some conv
       ∧ length (conv_messages conv) = length (messageList opts)
       ∧ role <$> conv_messages conv = role <$> messageList opts
       ∧ content <$> conv_messages conv = content <$> messageList opts)
  ∧ (∀ cid, cid ∉ (λ call, chatId call.1) <$> calls →
       getChat cid (runUpserts newMessageId calls) = None).
Proof.
  split.
  - intros opts now db' Hup.
    eexists. split.
    + apply (getChat_upsertChat _ _ _ _
               (wellFormed_runUpsertsFrom calls _ wellFormed_empty) Hup).
    + simpl. split; [apply length_imap|].
      split; apply list_eq; intros i;
        rewrite !list_lookup_fmap, list_lookup_imap;
        by destruct (messageList opts !! i).
  - intros cid Hcid. unfold getChat, runUpserts.
    rewrite chats_runUpsertsFrom_other.
    + unfold Db.empty; simpl. by rewrite lookup_empty.
    + intros call Hcall E. apply Hcid.
      apply list_elem_of_fmap. by exists call.
Qed.

End QueriesFacts.

Lemma upsertChat_owner_never_changes_witness :
  Db.upsertChat Sample.rowId Sample.bobChat 2
    (Db.runUpserts Sample.rowId [(Sample.aliceChat, 1)])
  = (Thrown Db.notOwner, Db.runUpserts Sample.rowId [(Sample.aliceChat, 1)])
  ∧ ∀ calls, ∃ c',
      Db.chats (Db.runUpsertsFrom Sample.rowId
                  (Db.runUpserts Sample.rowId [(Sample.aliceChat, 1)]) calls)
        !! "chat-1" = Some c'
      ∧ Db.chat_userId c' = "alice".
Proof.
  apply (upsertChat_owner_never_changes Sample.rowId
           (Db.runUpserts Sample.rowId [(Sample.aliceChat, 1)])
           Sample.bobChat 2 Sample.aliceRow).
  - vm_compute. reflexivity.
  - vm_compute. discriminate.
Defined.

Lemma getChat_returns_upserted_witness :
  (∃ conv,
     Db.getChat "chat-1"
       (Db.upsertChat Sample.rowId Sample.aliceChatSaved 2
          (Db.runUpserts Sample.rowId [(Sample.aliceChat, 1)])).2 = Some conv
     ∧ length (Db.conv_messages conv) = 2
     ∧ role <$> Db.conv_messages conv = [RoleUser; RoleAssistant]
     ∧ content <$> Db.conv_messages conv
       = ["What is Rocq?"; "A proof assistant."])
  ∧ Db.getChat "chat-2" (Db.runUpserts Sample.rowId [(Sample.aliceChat, 1)])
    = None.
Proof.
  destruct (getChat_returns_upserted Sample.rowId [(Sample.aliceChat, 1)])
    as [Hread Hnone].
  split.
  - apply (Hread Sample.aliceChatSaved 2). vm_compute. reflexivity.
  - apply Hnone. apply (bool_decide_unpack _). vm_compute. exact I.
Defined.

(** ** The Cache Layer *)

Section MemoizeFacts.

Import Cache.

Context {Args Output Blob W : Type}.
Variable serializeArgs : Args → string.
Variable hash : string → string.
Variable serialize : Output → Blob.
Variable deserialize : Blob → Output.
Variable ttl : nat.

Local Abbreviation cacheWithRedis :=
  (Cache.cacheWithRedis (W := W) serializeArgs hash serialize deserialize
     ttl).
Local Abbreviation cacheKey := (Cache.cacheKey serializeArgs hash).
Local Abbreviation storeSet := (Cache.storeSet (Blob := Blob) ttl).

(** An entry absent or expired now is absent or expired later. *)
Lemma storeGet_miss_later (store : gmap string (CacheEntry Blob)) key now later :
  now ≤ later → storeGet now key store = None →
  storeGet later key store = None.
Proof.
  unfold storeGet. intros Hle.
  destruct (store !! key) as [e|]; [|done].
  case_bool_decide; [done|]. intros _.
  rewrite bool_decide_eq_false_2; [done|lia].
Qed.

(** An entry written at [now] is served until [now + ttl]. *)
Lemma storeGet_storeSet (store : gmap string (CacheEntry Blob)) key v now later :
  later < now + ttl →
  storeGet later key (storeSet now key v store) = Some v.
Proof.
  intros Hlt. unfold storeGet, Cache.storeSet.
  rewrite lookup_insert_eq. simpl. by rewrite bool_decide_eq_true_2.
Qed.

Lemma cacheWithRedis_hit name fn args now store w v :
  storeGet now (cacheKey name args) store = Some v →
  cacheWithRedis name fn args now (store, w) = (Ok (deserialize v), (store, w)).
Proof. intros H. unfold Cache.cacheWithRedis. by rewrite H. Qed.

Lemma cacheWithRedis_miss name (fn : Args → Eff W Output) args now store w :
  storeGet now (cacheKey name args) store = None →
  cacheWithRedis name fn args now (store, w) =
    match fn args w with
    | (Ok out, w') =>
        (Ok out, (storeSet now (cacheKey name args) (serialize out) store, w'))
    | (Thrown e, w') => (Thrown e, (store, w'))
    end.
Proof. intros H. unfold Cache.cacheWithRedis. by rewrite H. Qed.

(** C4: when a call through the memoized wrapper fails, the error is the one
    [fn] rejected with, the store is left as it was, and a later call with
    the same arguments runs [fn] again: its outcome is that of [fn] on the
    world the failure left. *)
Theorem cacheWithRedis_failure_not_cached name (fn : Args → Eff W Output)
    args now store w e store' w' :
  cacheWithRedis name fn args now (store, w) = (Thrown e, (store', w')) →
  fn args w = (Thrown e, w')
  ∧ store' = store
  ∧ ∀ later, now ≤ later →
      cacheWithRedis name fn args later (store', w') =
        match fn args w' with
        | (Ok out, w'') =>
            (Ok out,
             (storeSet later (cacheKey name args) (serialize out) store', w''))
        | (Thrown e', w'') => (Thrown e', (store', w''))
        end.
Proof.
  intros Hcall.
  destruct (storeGet now (cacheKey name args) store) as [v|] eqn:Hget.
  { rewrite (cacheWithRedis_hit _ _ _ _ _ _ v Hget) in Hcall. discriminate. }
  rewrite (cacheWithRedis_miss _ _ _ _ _ _ Hget) in Hcall.
  destruct (fn args w) as [[out|e0] w0]; [discriminate|].
  injection Hcall as -> -> ->.
  split; [done|]. split; [done|].
  intros later Hle. apply cacheWithRedis_miss.
  by apply storeGet_miss_later with now.
Qed.

End MemoizeFacts.

Lemma cacheWithRedis_failure_not_cached_witness :
  Sample.flaky "q" 0 = (Thrown "connection reset", 1)
  ∧ (∅ : gmap string (Cache.CacheEntry string)) = ∅
  ∧ ∀ later, 5 ≤ later →
      Cache.cacheWithRedis Sample.idString Sample.idString Sample.idString
        Sample.idString 60 "op" Sample.flaky "q" later (∅, 1) =
        match Sample.flaky "q" 1 with
        | (Ok out, w'') =>
            (Ok out,
             (Cache.storeSet 60 later
                (Cache.cacheKey Sample.idString Sample.idString "op" "q")
                (Sample.idString out) ∅, w''))
        | (Thrown e', w'') => (Thrown e', (∅, w''))
        end.
Proof.
  apply (cacheWithRedis_failure_not_cached Sample.idString Sample.idString
           Sample.idString Sample.idString 60 "op" Sample.flaky "q" 5 ∅ 0
           "connection reset" ∅ 1).
  reflexivity.
Defined.

(** ** The search tool *)

Section SearchFacts.

Import Tools.

Context {W : Type}.
Variable searchSerper : SerperRequest → AbortSignal → Eff W SerperResponse.

(** C7: the executor of the search tool calls the provider once, with the
    query, a result count of 10 and the cancellation token of the step, and
    gives one record per organic result, in the provider's order, holding the
    title, the link, the snippet and, in the day-3 handler, the optional
    date of that result. *)
Theorem searchWeb_calls_provider_and_maps query abortSignal w calls :
  let request := {| q := query; num := 10 |} in
  let answer := searchSerper request abortSignal w in
  let after := (answer.2, calls ++ [(request, abortSignal)]) in
  match answer.1 with
  | Ok results =>
      (∃ hits,
         searchWeb_execute_dated (recorded searchSerper) query abortSignal
           (w, calls) = (Ok hits, after)
         ∧ length hits = length (organic results)
         ∧ ∀ i, hits !! i =
             (λ r, {| dated_title := organic_title r;
                      dated_link := organic_link r;
                      dated_snippet := organic_snippet r;
                      dated_date := organic_date r |}) <$> organic results !! i)
      ∧ (∃ hits,
           searchWeb_execute (recorded searchSerper) query abortSignal
             (w, calls) = (Ok hits, after)
           ∧ length hits = length (organic results)
           ∧ ∀ i, hits !! i =
               (λ r, {| hit_title := organic_title r;
                        hit_link := organic_link r;
                        hit_snippet := organic_snippet r |})
                 <$> organic results !! i)
  | Thrown e =>
      searchWeb_execute_dated (recorded searchSerper) query abortSignal
        (w, calls) = (Thrown e, after)
      ∧ searchWeb_execute (recorded searchSerper) query abortSignal
          (w, calls) = (Thrown e, after)
  end.
Proof.
  intros request answer after.
  unfold searchWeb_execute_dated, searchWeb_execute, bind, recorded, ret.
  subst after answer request.
  destruct (searchSerper {| q := query; num := 10 |} abortSignal w)
    as [[results|e] w']; simpl; [|done].
  split; eexists; (split; [reflexivity|]);
    (split; [apply length_map|]); intros i; apply list_lookup_fmap.
Qed.

End SearchFacts.

Section CachedSearchFacts.

Import Tools.

Context {W Blob : Type}.
Variable serializeArgs : SerperRequest → string.
Variable hash : string → string.
Variable serialize : SerperResponse → Blob.
Variable deserialize : Blob → SerperResponse.
Variable ttl : nat.
Variable fetchFromSerper : SerperRequest → AbortSignal → Eff W SerperResponse.

Local Abbreviation searchSerper :=
  (cachedSearchSerper serializeArgs hash serialize deserialize ttl
     fetchFromSerper).
Local Abbreviation keyOf :=
  (Cache.cacheKey serializeArgs hash "serper").

(** C2: the search call goes through the Cache Layer.  After an invocation
    of the search tool that succeeds at [now], there is a time [until] up to
    which every invocation with the same query returns the same records
    and leaves the world of the provider untouched, the provider not being
    invoked; when the first invocation was answered by the provider, that
    time is [now + ttl], and when it was answered by the cache it is later
    than [now]. *)
Theorem searchWeb_repeated_query_served_from_cache
    query signal now store w hits store1 w1 :
  (∀ r, deserialize (serialize r) = r) →
  searchWeb_execute_dated (searchSerper now) query signal (store, w)
    = (Ok hits, (store1, w1)) →
  ∃ until,
    (Cache.storeGet now (keyOf {| q := query; num := 10 |}) store = None →
       until = now + ttl
       ∧ (fetchFromSerper {| q := query; num := 10 |} signal w).2 = w1)
    ∧ (Cache.storeGet now (keyOf {| q := query; num := 10 |}) store ≠ None →
         now < until ∧ w1 = w)
    ∧ ∀ signal' later, now ≤ later < until →
        searchWeb_execute_dated (searchSerper later) query signal'
          (store1, w1) = (Ok hits, (store1, w1)).
Proof.
  intros Hround Hcall.
  unfold searchWeb_execute_dated, bind, cachedSearchSerper in Hcall |- *.
  set (request := {| q := query; num := 10 |}) in *.
  destruct (Cache.storeGet now (keyOf request) store) as [v|] eqn:Hget.
  - (* answered by the cache *)
    rewrite (cacheWithRedis_hit _ _ _ _ _ _ _ _ _ _ _ v Hget) in Hcall.
    simpl in Hcall. injection Hcall as <- <- <-.
    unfold Cache.storeGet in Hget.
    destruct (store !! keyOf request) as [entry|] eqn:Hentry; [|done].
    case_bool_decide as Hlive; [|done]. injection Hget as <-.
    exists (Cache.expiry entry).
    split; [done|]. split; [done|].
    intros signal' later [_ Hlater].
    rewrite (cacheWithRedis_hit _ _ _ _ _ _ _ _ _ _ _ (Cache.value entry)); [done|].
    unfold Cache.storeGet. rewrite Hentry.
    by rewrite bool_decide_eq_true_2.
  - (* answered by the provider *)
    rewrite (cacheWithRedis_miss _ _ _ _ _ _ _ _ _ _ _ Hget) in Hcall.
    destruct (fetchFromSerper request signal w) as [[results|e] w0] eqn:Hfetch;
      [|discriminate].
    simpl in Hcall. injection Hcall as <- <- <-.
    exists (now + ttl).
    split; [done|]. split; [done|].
    intros signal' later [_ Hlater].
    rewrite (cacheWithRedis_hit _ _ _ _ _ _ _ _ _ _ _ (serialize results)).
    + simpl. by rewrite Hround.
    + by apply storeGet_storeSet.
Qed.

End CachedSearchFacts.

Lemma searchWeb_repeated_query_served_from_cache_witness :
  ∃ until,
    (Cache.storeGet 100
       (Cache.cacheKey Sample.requestText Sample.idString "serper"
          Sample.rocqRequest) Sample.emptyStore
       = None →
     until = 100 + 3600
     ∧ (Sample.loggingProvider Sample.rocqRequest Sample.standing []).2
       = [Sample.rocqRequest])
    ∧ (Cache.storeGet 100
         (Cache.cacheKey Sample.requestText Sample.idString "serper"
            Sample.rocqRequest) Sample.emptyStore
         ≠ None →
       100 < until ∧ [Sample.rocqRequest] = [])
    ∧ ∀ signal' later, 100 ≤ later < until →
        Sample.cachedSearch later "rocq" signal'
          (Sample.storeAfterSearch, [Sample.rocqRequest])
        = (Ok Sample.rocqHits, (Sample.storeAfterSearch, [Sample.rocqRequest])).
Proof.
  apply (searchWeb_repeated_query_served_from_cache
           Sample.requestText Sample.idString Sample.idResponse
           Sample.idResponse 3600 Sample.loggingProvider
           "rocq" Sample.standing 100 Sample.emptyStore []
           Sample.rocqHits Sample.storeAfterSearch [Sample.rocqRequest]).
  - reflexivity.
  - vm_compute. reflexivity.
Defined.

(** ** The Bulk Extractor *)

Section BulkExtractorFacts.

Import Crawler.

Variable fetchPage : string → nat → nat → string + FetchFailure.
Variable transient : FetchFailure → bool.
Variable maxLength : nat.
Variable pick : nat → nat.
Variable opts : CrawlOptions.

Local Abbreviation crawlWebsite :=
  (Crawler.crawlWebsite fetchPage transient maxLength opts).
Local Abbreviation finishOne :=
  (Crawler.finishOne fetchPage transient maxLength pick opts).
Local Abbreviation runPool :=
  (Crawler.runPool fetchPage transient maxLength pick opts).
Local Abbreviation crawlAll :=
  (Crawler.crawlAll fetchPage transient maxLength pick).

Local Abbreviation record :=
  (Crawler.record fetchPage transient maxLength opts).
Local Abbreviation allOutcomes :=
  (Crawler.allOutcomes fetchPage transient maxLength opts).

Lemma refill_allOutcomes size p : allOutcomes (refill size p) = allOutcomes p.
Proof.
  unfold Crawler.allOutcomes, refill; simpl.
  rewrite fmap_app, <- (assoc_L (++) (record <$> inflight p)).
  by rewrite <- fmap_app, take_drop.
Qed.

Lemma refill_pending size p : pending (refill size p) = pending p.
Proof.
  unfold pending, refill; simpl.
  rewrite length_app, length_take, length_drop. lia.
Qed.

Lemma refill_inflight size p :
  0 < size → 0 < pending p → 0 < length (inflight (refill size p)).
Proof.
  unfold pending, refill; simpl. intros Hsize Hpending.
  rewrite length_app, length_take. lia.
Qed.

Lemma finishOne_allOutcomes t p : allOutcomes (finishOne t p) ≡ₚ allOutcomes p.
Proof.
  unfold Crawler.allOutcomes, Crawler.finishOne.
  destruct (inflight p !! (pick t `mod` length (inflight p)))
    as [[i u]|] eqn:Hj; [|done].
  simpl.
  pose proof (delete_Permutation (inflight p) _ _ Hj) as Hd.
  rewrite <- (assoc_L (++) (completed p)).
  apply Permutation_app_head.
  change ((record (i, u)
             :: (record <$> delete (pick t `mod` length (inflight p))
                              (inflight p)))
          ++ (record <$> queue p)
          ≡ₚ (record <$> inflight p) ++ (record <$> queue p)).
  apply Permutation_app_tail. symmetry.
  rewrite <- fmap_cons. by apply fmap_Permutation.
Qed.

Lemma finishOne_idle t p : inflight p = [] → finishOne t p = p.
Proof. intros Hin. unfold Crawler.finishOne. by rewrite Hin. Qed.

Lemma finishOne_pending t p :
  0 < length (inflight p) → pending (finishOne t p) = pred (pending p).
Proof.
  intros Hpos. unfold pending, Crawler.finishOne.
  assert (pick t `mod` length (inflight p) < length (inflight p)) as Hlt
    by (apply Nat.mod_upper_bound; lia).
  destruct (lookup_lt_is_Some_2 _ _ Hlt) as [[i u] Hj]. rewrite Hj. simpl.
  rewrite length_delete by eauto. lia.
Qed.

(** With at least one worker, every step completes one pending URL; no
    outcome is lost or invented along the way. *)
Lemma runPool_drains steps t p :
  0 < maxConcurrency opts → pending p ≤ steps →
  pending (runPool t steps p) = 0
  ∧ allOutcomes (runPool t steps p) ≡ₚ allOutcomes p.
Proof.
  intros Hsize. revert t p.
  induction steps as [|steps IH]; intros t p Hpending; simpl.
  { split; [lia|done]. }
  set (p1 := refill (maxConcurrency opts) p).
  destruct (decide (pending p = 0)) as [Hzero|Hnz].
  - (* nothing left: the step changes nothing that matters *)
    assert (pending p1 = 0) as H1 by (unfold p1; by rewrite refill_pending).
    assert (pending (finishOne t p1) = 0) as Hp.
    { rewrite finishOne_idle; [done|].
      unfold pending in H1. apply length_zero_iff_nil. lia. }
    destruct (IH (S t) (finishOne t p1)) as [H0 Hperm]; [lia|].
    split; [done|].
    rewrite Hperm, finishOne_allOutcomes. unfold p1.
    by rewrite refill_allOutcomes.
  - assert (pending (finishOne t p1) = pred (pending p)) as Hp.
    { rewrite finishOne_pending.
      - unfold p1. by rewrite refill_pending.
      - apply refill_inflight; lia. }
    destruct (IH (S t) (finishOne t p1)) as [H0 Hperm]; [lia|].
    split; [done|].
    rewrite Hperm, finishOne_allOutcomes. unfold p1.
    by rewrite refill_allOutcomes.
Qed.

Global Instance byPosition_transitive : Transitive byPosition.
Proof. unfold byPosition. intros a b c. lia. Qed.

Global Instance byPosition_total : Total byPosition.
Proof. unfold byPosition. intros a b. lia. Qed.

Lemma tasks_sorted (urls : list string) :
  Sorted byPosition (record <$> imap (λ i u, (i, u)) urls).
Proof.
  apply StronglySorted_Sorted.
  assert (∀ (g : nat → string → nat * string) k,
            (∀ i u, (g i u).1 = k + i) →
            StronglySorted byPosition (record <$> imap g urls)) as Hgen.
  { induction urls as [|u urls IH]; intros g k Hg; [constructor|].
    rewrite imap_cons, fmap_cons. constructor.
    - apply (IH _ (S k)). intros i x. simpl. rewrite Hg. lia.
    - apply Forall_forall. intros y Hy.
      apply list_elem_of_fmap in Hy as (task & -> & Htask).
      apply elem_of_lookup_imap in Htask as (i & x & -> & _).
      unfold byPosition, Crawler.record. simpl. rewrite !Hg. lia. }
  apply (Hgen _ 0). done.
Qed.

(** Putting the completed outcomes back in input order gives the outcome of
    each URL at the position of that URL. *)
Lemma resequence (urls : list string) (done : list (nat * CrawlOutcome)) :
  done ≡ₚ record <$> imap (λ i u, (i, u)) urls →
  (merge_sort byPosition done).*2 = crawlWebsite <$> urls.
Proof.
  intros Hperm.
  assert (merge_sort byPosition done = record <$> imap (λ i u, (i, u)) urls)
    as ->.
  { apply (Sorted_unique_strong byPosition).
    - intros x1 x2 Hx1 Hx2 H12 H21.
      rewrite merge_sort_Permutation, Hperm in Hx1.
      apply list_elem_of_fmap in Hx1 as (t1 & -> & Ht1).
      apply list_elem_of_fmap in Hx2 as (t2 & -> & Ht2).
      apply elem_of_lookup_imap in Ht1 as (i & a & -> & Ha).
      apply elem_of_lookup_imap in Ht2 as (j & b & -> & Hb).
      unfold byPosition, Crawler.record in *. simpl in *.
      assert (i = j) as -> by lia. congruence.
    - apply Sorted_merge_sort; apply _.
    - apply tasks_sorted.
    - by rewrite merge_sort_Permutation. }
  apply list_eq. intros i.
  rewrite !list_lookup_fmap, list_lookup_imap.
  by destruct (urls !! i).
Qed.

(** The batch of a pool with at least one worker. *)
Lemma crawlAll_batch (urls : list string) :
  0 < maxConcurrency opts →
  crawlAll urls opts =
    Ok {| outcomes := crawlWebsite <$> urls;
          overallSuccess :=
            forallb (λ o, crawl_success (outcome_result o))
              (crawlWebsite <$> urls) |}.
Proof.
  intros Hsize. unfold Crawler.crawlAll.
  rewrite bool_decide_eq_false_2 by lia.
  set (start := {| queue := imap (λ i u, (i, u)) urls; inflight := [];
                   completed := [] |}).
  destruct (runPool_drains (length urls) 0 start Hsize) as [Hdone Hperm].
  { unfold pending, start; simpl. by rewrite length_imap. }
  assert (completed (runPool 0 (length urls) start)
            ≡ₚ record <$> imap (λ i u, (i, u)) urls) as Hcompleted.
  { unfold pending in Hdone.
    assert (inflight (runPool 0 (length urls) start) = []) as Hin
      by (apply length_zero_iff_nil; lia).
    assert (queue (runPool 0 (length urls) start) = []) as Hq
      by (apply length_zero_iff_nil; lia).
    unfold Crawler.allOutcomes in Hperm. rewrite Hin, Hq in Hperm.
    simpl in Hperm. by rewrite app_nil_r in Hperm. }
  by rewrite (resequence urls _ Hcompleted).
Qed.

(** C1: for every list of URLs, whatever the web answers and in whatever
    order the workers complete, the bulk crawl returns a batch with one
    outcome per URL, the outcome at each position being that of the URL at
    that position, and [overallSuccess] holds exactly when every outcome
    succeeded. *)
Theorem crawlAll_one_outcome_per_url (urls : list string) :
  0 < maxConcurrency opts →
  ∃ batch,
    crawlAll urls opts = Ok batch
    ∧ length (outcomes batch) = length urls
    ∧ outcome_url <$> outcomes batch = urls
    ∧ (∀ i u, urls !! i = Some u →
         ∃ o, outcomes batch !! i = Some o ∧ outcome_url o = u
              ∧ o = crawlWebsite u)
    ∧ (overallSuccess batch = true ↔
         ∀ o, o ∈ outcomes batch → crawl_success (outcome_result o) = true).
Proof.
  intros Hsize. eexists. split; [by apply crawlAll_batch|]. simpl.
  split; [apply length_fmap|].
  split.
  { rewrite <- list_fmap_compose. simpl. apply list_fmap_id. }
  split.
  - intros i u Hu. exists (crawlWebsite u).
    by rewrite list_lookup_fmap, Hu.
  - rewrite forallb_forall. split; intros H o Ho.
    + apply H. by apply list_elem_of_In.
    + apply H. by apply list_elem_of_In.
Qed.

End BulkExtractorFacts.

Lemma crawlAll_one_outcome_per_url_witness :
  ∃ batch,
    Crawler.crawlAll Sample.web Sample.retryable 2000 Sample.lastFirst
      Sample.threeUrls Sample.twoWorkers = Ok batch
    ∧ length (Crawler.outcomes batch) = length Sample.threeUrls
    ∧ Crawler.outcome_url <$> Crawler.outcomes batch = Sample.threeUrls
    ∧ (∀ i u, Sample.threeUrls !! i = Some u →
         ∃ o, Crawler.outcomes batch !! i = Some o ∧ Crawler.outcome_url o = u
              ∧ o = Crawler.crawlWebsite Sample.web Sample.retryable 2000
                      Sample.twoWorkers u)
    ∧ (Crawler.overallSuccess batch = true ↔
         ∀ o, o ∈ Crawler.outcomes batch →
              Crawler.crawl_success (Crawler.outcome_result o) = true).
Proof.
  apply (crawlAll_one_outcome_per_url Sample.web Sample.retryable 2000
           Sample.lastFirst Sample.twoWorkers Sample.threeUrls).
  simpl. lia.
Defined.

(** ** The scraping tool *)

Section ExtractorResponse.

Import Crawler.

Variable fetchPage : string → nat → nat → string + FetchFailure.
Variable transient : FetchFailure → bool.
Variable maxLength : nat.
Variable pick : nat → nat.
Variable opts : CrawlOptions.

Lemma mapM_successData_urls (os : list CrawlOutcome) rs :
  mapM successData os = Some rs → rs.*1 = outcome_url <$> os.
Proof.
  intros H. apply mapM_Some in H.
  induction H as [|o r os rs Hr _ IH]; [done|].
  simpl. f_equal; [|exact IH].
  unfold successData in Hr.
  destruct (outcome_result o); [|done]. by injection Hr as <-.
Qed.

(** The response of the extractor has one result per requested URL. *)
Lemma bulkCrawlWebsites_covers (urls : list string) :
  0 < maxConcurrency opts →
  ∃ r, Crawler.bulkCrawlWebsites fetchPage transient maxLength pick opts urls
       = Ok r
       ∧ Tools.coversUrls urls r.
Proof.
  intros Hsize. unfold Crawler.bulkCrawlWebsites.
  rewrite crawlAll_batch by done. simpl.
  assert (outcome_url <$>
            (Crawler.crawlWebsite fetchPage transient maxLength opts <$> urls)
          = urls) as Hurls.
  { rewrite <- list_fmap_compose. apply list_fmap_id. }
  match goal with
  | |- context [match ?c with Some _ => _ | None => _ end] =>
      destruct c as [rs|] eqn:Hrs
  end.
  - eexists. split; [reflexivity|]. simpl.
    destruct (forallb _ _); [|done].
    apply mapM_successData_urls in Hrs. by rewrite Hrs.
  - eexists. split; [reflexivity|]. exact Hurls.
Qed.

End ExtractorResponse.

Section ScrapeFacts.

Import Tools.

Context {W Blob : Type}.
Variable serializeArgs : list string → string.
Variable hash : string → string.
Variable serialize : list ScrapedPage → Blob.
Variable deserialize : Blob → list ScrapedPage.
Variable ttl : nat.
Variable bulkCrawlWebsites : list string → Eff W Crawler.BulkCrawlResponse.

Local Abbreviation keyOf :=
  (Cache.cacheKey serializeArgs hash "scrapePages").
Local Abbreviation coherent := (Tools.coherent serializeArgs hash deserialize).
Local Abbreviation scrapeUncached := (Tools.scrapeUncached bulkCrawlWebsites).

(** Distinct URL lists have distinct keys, and what is stored is read back as
    it was. *)
Hypothesis keys_differ : ∀ a b, keyOf a = keyOf b → a = b.
Hypothesis read_back : ∀ pages, deserialize (serialize pages) = pages.
(** The extractor answers every request with one result per URL. *)
Hypothesis extractor_covers :
  ∀ urls w, ∃ r w', bulkCrawlWebsites urls w = (Ok r, w') ∧ coversUrls urls r.

Lemma describes_urls urls pages :
  describes urls pages → page_url <$> pages = urls.
Proof.
  intros (outcomes & <- & ->).
  rewrite <- list_fmap_compose. apply list_fmap_ext.
  intros i o _. simpl. unfold pageOfOutcome.
  by destruct (Crawler.outcome_result o).
Qed.

Lemma scrapeUncached_describes urls w :
  ∃ pages w', scrapeUncached urls w = (Ok pages, w') ∧ describes urls pages.
Proof.
  destruct (extractor_covers urls w) as (r & w' & Hcall & Hcovers).
  unfold Tools.scrapeUncached, bind. rewrite Hcall.
  destruct r as [results|results msg]; simpl in *.
  - eexists _, _. split; [reflexivity|].
    exists ((λ '(u, d), {| Crawler.outcome_url := u;
                           Crawler.outcome_result := Crawler.CrawlSuccess d |})
              <$> results).
    split.
    + rewrite <- Hcovers, <- list_fmap_compose.
      apply list_fmap_ext. by intros i [u d] _.
    + rewrite <- list_fmap_compose.
      apply list_fmap_ext. by intros i [u d] _.
  - eexists _, _. split; [reflexivity|].
    exists results. split; [done|].
    apply list_fmap_ext. intros i o _. unfold pageOfOutcome.
    by destruct (Crawler.outcome_result o).
Qed.

Lemma coherent_empty : coherent ∅.
Proof. intros urls e H. by rewrite lookup_empty in H. Qed.


End ScrapeFacts.

Lemma encodeUrl_split u v r r' :
  Sample.encodeUrl u +:+ r = Sample.encodeUrl v +:+ r' → u = v ∧ r = r'.
Proof.
  revert v. induction u as [|c u IH]; intros [|d v]; simpl; intros H.
  - by injection H.
  - discriminate.
  - discriminate.
  - injection H as -> H. by destruct (IH _ H) as [-> ->].
Qed.

Lemma encodeUrls_inj a b : Sample.encodeUrls a = Sample.encodeUrls b → a = b.
Proof.
  revert b. induction a as [|u a IH]; intros [|v b]; simpl; intros H.
  - done.
  - by destruct v.
  - by destruct u.
  - apply encodeUrl_split in H as [-> H]. f_equal. by apply IH.
Qed.


(** ** The agent loop *)

Section LoopFacts.

Import Agent.

Context {W : Type}.
Variable generate : list Message → list AgentStep → Eff W StepOutput.
Variable executeTool : ToolCall → Eff W string.

Local Abbreviation dispatch := (Agent.dispatch executeTool).
Local Abbreviation loop := (Agent.loop generate executeTool).

(** Dispatching never fails and starts no generation. *)
Lemma dispatch_total calls w n :
  ∃ rs w', dispatch calls (w, n) = (Ok rs, (w', n)).
Proof.
  revert w. induction calls as [|c calls IH]; intros w; simpl.
  { by eexists _, _. }
  unfold bind, dispatchOne.
  destruct (executeTool c w) as [r w1].
  destruct (IH w1) as (rs & w2 & ->).
  by eexists _, _.
Qed.

(** What a run of the loop with [budget] steps left amounts to. *)
Lemma loop_outcome budget transcript steps w n r w' n' :
  loop budget transcript steps (w, n) = (r, (w', n')) →
  n ≤ n' ≤ n + budget
  ∧ match r with
    | Thrown e => ∃ steps0 w0, (generate transcript steps0 w0).1 = Thrown e
    | Ok steps' =>
        ∃ added,
          steps' = steps ++ added
          ∧ length added = n' - n
          ∧ (∀ i s, added !! i = Some s →
               stepIndex s = length steps + i
               ∧ ∃ w0, (generate transcript (steps ++ take i added) w0).1
                       = Ok (raw s))
          ∧ (n' - n < budget →
               ∃ s, last steps' = Some s ∧ step_toolCalls (raw s) = [])
    end.
Proof.
  revert steps w n.
  induction budget as [|budget IH]; intros steps w n Hrun; simpl in Hrun.
  { injection Hrun as <- <- <-. split; [lia|].
    exists []. rewrite app_nil_r. split; [done|]. split; [simpl; lia|].
    split; [by intros i s H|lia]. }
  unfold bind, generateStep in Hrun.
  destruct (generate transcript steps w) as [[out|e] w1] eqn:Hgen.
  2: { injection Hrun as <- <- <-. split; [lia|].
       exists steps, w. by rewrite Hgen. }
  destruct (step_toolCalls out) as [|c cs] eqn:Hcalls.
  - injection Hrun as <- <- <-. split; [lia|].
    eexists [_]. split; [done|]. split; [simpl; lia|]. split.
    + intros [|i] s; simpl; [|done]. intros [= <-]. simpl.
      split; [lia|]. exists w. by rewrite app_nil_r, Hgen.
    + intros _. rewrite last_snoc. by eexists.
  - destruct (dispatch_total (c :: cs) w1 (S n)) as (rs & w2 & Hd).
    rewrite Hd in Hrun.
    apply IH in Hrun as [Hbound Hr]. split; [lia|].
    destruct r as [steps'|e]; [|done].
    destruct Hr as (added & -> & Hlen & Hlink & Hstop).
    eexists (_ :: added). split; [by rewrite <- (assoc_L (++))|].
    split; [simpl; lia|]. split.
    + intros [|i] s; simpl.
      * intros [= <-]. simpl. split; [lia|]. exists w.
        by rewrite app_nil_r, Hgen.
      * intros Hs. destruct (Hlink i s Hs) as [Hidx (w0 & Hw0)].
        rewrite length_app in Hidx. simpl in Hidx. split; [lia|].
        exists w0. by rewrite <- (assoc_L (++)) in Hw0.
    + intros Hlt. apply Hstop. lia.
Qed.

End LoopFacts.

Section StreamTextFacts.

Import Agent Route.

Context {W : Type}.
Variable generate : list Message → list AgentStep → Eff W StepOutput.
Variable executeTool : ToolCall → Eff W string.

(** C8: both handlers give [streamText] a step budget of exactly 10; the
    loop then starts at most 10 generations; only a failure of the model
    provider makes it fail; it stops before the budget only on a step
    without tool calls; and when the budget is reached it returns its steps
    without error, the final text being the text of the last step
    generated. *)
Theorem streamText_step_budget (messages : list Message) (world : World W) :
  Forall (λ opts,
    opt_maxSteps opts = 10
    ∧ let out := streamText generate executeTool opts world in
      let cycles := (agent out.2).2 - (agent world).2 in
      cycles ≤ 10
      ∧ match out.1 with
        | Thrown e => ∃ steps0 w0, (generate messages steps0 w0).1 = Thrown e
        | Ok steps =>
            length steps = cycles
            ∧ (∀ i s, steps !! i = Some s →
                 stepIndex s = i
                 ∧ ∃ w0, (generate messages (take i steps) w0).1 = Ok (raw s))
            ∧ (cycles < 10 →
                 ∃ s, last steps = Some s ∧ step_toolCalls (raw s) = [])
            ∧ (cycles = 10 →
                 ∃ s, last steps = Some s
                      ∧ finalText steps = Some (step_text (raw s)))
        end)
    [SearchRoute.options messages; Day3Route.options messages].
Proof.
  assert (∀ opts, opt_maxSteps opts = 10 → opt_messages opts = messages →
            let out := streamText generate executeTool opts world in
            let cycles := (agent out.2).2 - (agent world).2 in
            cycles ≤ 10
            ∧ match out.1 with
              | Thrown e =>
                  ∃ steps0 w0, (generate messages steps0 w0).1 = Thrown e
              | Ok steps =>
                  length steps = cycles
                  ∧ (∀ i s, steps !! i = Some s →
                       stepIndex s = i
                       ∧ ∃ w0, (generate messages (take i steps) w0).1
                               = Ok (raw s))
                  ∧ (cycles < 10 →
                       ∃ s, last steps = Some s
                            ∧ step_toolCalls (raw s) = [])
                  ∧ (cycles = 10 →
                       ∃ s, last steps = Some s
                            ∧ finalText steps = Some (step_text (raw s)))
              end) as Hrun.
  { intros opts Hmax Hmsgs.
    unfold streamText, bind, emit, modify, onAgent, Agent.run. simpl.
    rewrite Hmax, Hmsgs.
    destruct (agent world) as [w n] eqn:Hagent.
    destruct (Agent.loop generate executeTool 10 messages [] (w, n))
      as [r [w' n']] eqn:Hloop.
    apply loop_outcome in Hloop as [Hbound Hr]. simpl.
    split; [lia|].
    destruct r as [steps|e]; [|exact Hr].
    destruct Hr as (added & Hsteps & Hlen & Hlink & Hstop).
    simpl in Hsteps. subst added.
    split; [done|]. split; [|split].
    - intros i s Hs. destruct (Hlink i s Hs) as [Hidx Hw]. by split.
    - exact Hstop.
    - intros Hfull. destruct (last steps) as [s|] eqn:Hlast.
      + exists s. split; [done|]. unfold finalText. by rewrite Hlast.
      + apply last_None in Hlast. subst steps. simpl in Hlen. lia. }
  apply Forall_cons_2; [split; [done|by apply Hrun]|].
  apply Forall_cons_2; [split; [done|by apply Hrun]|].
  apply Forall_nil_2.
Qed.

End StreamTextFacts.

Lemma streamText_step_budget_witness :
  Forall (λ opts,
    Route.opt_maxSteps opts = 10
    ∧ let out := Route.streamText Sample.alwaysSearching Sample.echoTool opts
                   Sample.freshWorld in
      let cycles := (Route.agent out.2).2 - (Route.agent Sample.freshWorld).2 in
      cycles ≤ 10
      ∧ match out.1 with
        | Thrown e =>
            ∃ steps0 w0,
              (Sample.alwaysSearching [Sample.hello] steps0 w0).1 = Thrown e
        | Ok steps =>
            length steps = cycles
            ∧ (∀ i s, steps !! i = Some s →
                 Agent.stepIndex s = i
                 ∧ ∃ w0, (Sample.alwaysSearching [Sample.hello]
                            (take i steps) w0).1 = Ok (Agent.raw s))
            ∧ (cycles < 10 →
                 ∃ s, last steps = Some s
                      ∧ Agent.step_toolCalls (Agent.raw s) = [])
            ∧ (cycles = 10 →
                 ∃ s, last steps = Some s
                      ∧ Agent.finalText steps
                        = Some (Agent.step_text (Agent.raw s)))
        end)
    [SearchRoute.options [Sample.hello]; Day3Route.options [Sample.hello]].
Proof.
  exact (streamText_step_budget Sample.alwaysSearching Sample.echoTool
           [Sample.hello] Sample.freshWorld).
Defined.

(** ** The route handlers *)

Section TraceLogic.

Import Route.

Context {W : Type}.
Implicit Types P : Event → Prop.

Lemma appends_ret {A} P (a : A) : appends (W := W) P (ret a).
Proof. intros w. exists []. by rewrite app_nil_r. Qed.

Lemma appends_throw {A} P e : appends (W := W) (A := A) P (throw e).
Proof. intros w. exists []. by rewrite app_nil_r. Qed.

Lemma appends_gets {A} P (f : World W → A) : appends P (gets f).
Proof. intros w. exists []. by rewrite app_nil_r. Qed.

Lemma appends_emit P e : P e → appends (W := W) P (emit e).
Proof. intros He w. exists [e]. split; [done|]. by constructor. Qed.

Lemma appends_onDb {A} P (c : nat → Eff Db.Database A) :
  appends (W := W) P (onDb c).
Proof.
  intros w. exists []. unfold onDb.
  destruct (c (clock w) (db w)). simpl. by rewrite app_nil_r.
Qed.

Lemma appends_onAgent {A} P (c : Eff (W * nat) A) : appends P (onAgent c).
Proof.
  intros w. exists []. unfold onAgent.
  destruct (c (agent w)). simpl. by rewrite app_nil_r.
Qed.

Lemma appends_bind {A B} P (c : Eff (World W) A) (k : A → Eff (World W) B) :
  appends P c → (∀ a, appends P (k a)) → appends P (bind c k).
Proof.
  intros Hc Hk w. unfold bind.
  destruct (Hc w) as (new1 & E1 & F1).
  destruct (c w) as [[a|e] w1]; simpl in *.
  - destruct (Hk a w1) as (new2 & E2 & F2).
    exists (new1 ++ new2). rewrite E2, E1, (assoc_L (++)).
    split; [done|]. by apply Forall_app.
  - by exists new1.
Qed.

(** A value known in advance is passed on as it is. *)
Lemma appends_after_ret {A B} P (a : A) (k : A → Eff (World W) B) :
  appends P (k a) → appends P (bind (ret a) k).
Proof. intros Hk w. unfold bind, ret. apply Hk. Qed.

Lemma appends_try_catch {A} P (c : Eff (World W) A) h :
  appends P c → (∀ e, appends P (h e)) → appends P (try_catch c h).
Proof.
  intros Hc Hh w. unfold try_catch.
  destruct (Hc w) as (new1 & E1 & F1).
  destruct (c w) as [[a|e] w1]; simpl in *.
  - by exists new1.
  - destruct (Hh e w1) as (new2 & E2 & F2).
    exists (new1 ++ new2). rewrite E2, E1, (assoc_L (++)).
    split; [done|]. by apply Forall_app.
Qed.

Lemma mentions_emit e : mentions (W := W) e (emit e).
Proof. intros w. exists [e]. split; [done|]. by left. Qed.

(** What the first part of a sequence emits stays in the trace. *)
Lemma mentions_bind_l {A B} P e (c : Eff (World W) A)
    (k : A → Eff (World W) B) :
  mentions e c → (∀ a, appends P (k a)) → mentions e (bind c k).
Proof.
  intros Hc Hk w. unfold bind.
  destruct (Hc w) as (new1 & E1 & He).
  destruct (c w) as [[a|x] w1]; simpl in *; [|by exists new1].
  destruct (Hk a w1) as (new2 & E2 & _).
  exists (new1 ++ new2). rewrite E2, E1, (assoc_L (++)).
  split; [done|]. apply elem_of_app. by left.
Qed.

Lemma mentions_after_emit {B} e e' (k : unit → Eff (World W) B) :
  mentions e (k tt) → mentions e (bind (emit e') k).
Proof.
  intros Hk w. unfold bind, emit, modify.
  destruct (Hk {| db := db w; clock := clock w; agent := agent w;
                  events := events w ++ [e'] |}) as (new & E & He).
  exists (e' :: new). simpl in E. rewrite E, <- (assoc_L (++)).
  split; [done|]. by right.
Qed.

Lemma mentions_after_ret {A B} e (a : A) (k : A → Eff (World W) B) :
  mentions e (k a) → mentions e (bind (ret a) k).
Proof. intros Hk w. unfold bind, ret. apply Hk. Qed.

Lemma mentions_try_catch {A} P e (c : Eff (World W) A) h :
  mentions e c → (∀ x, appends P (h x)) → mentions e (try_catch c h).
Proof.
  intros Hc Hh w. unfold try_catch.
  destruct (Hc w) as (new1 & E1 & He).
  destruct (c w) as [[a|x] w1]; simpl in *; [by exists new1|].
  destruct (Hh x w1) as (new2 & E2 & _).
  exists (new1 ++ new2). rewrite E2, E1, (assoc_L (++)).
  split; [done|]. apply elem_of_app. by left.
Qed.

(** The events added satisfy what [appends] says and contain what
    [mentions] says. *)
Lemma appends_mentions {A} P e (c : Eff (World W) A) w :
  appends P c → mentions e c →
  ∃ new, events (c w).2 = events w ++ new ∧ Forall P new ∧ e ∈ new.
Proof.
  intros Ha Hm.
  destruct (Ha w) as (new1 & E1 & F1). destruct (Hm w) as (new2 & E2 & He).
  exists new1. split; [done|]. split; [done|].
  rewrite E1 in E2. by apply app_inv_head in E2 as ->.
Qed.

End TraceLogic.

Create HintDb trace discriminated.

#[export] Hint Resolve appends_ret appends_throw appends_gets appends_onDb
  appends_onAgent : trace.
#[export] Hint Extern 1 (Route.titled _ _) => exact I : trace.
#[export] Hint Extern 1 (Route.titled _ (Route.EvUpsertChat _)) =>
  reflexivity : trace.

(** Decompose a goal [appends P c] along the structure of [c]. *)
Ltac trace_step :=
  match goal with
  | |- Route.appends _ (bind (ret _) _) => apply appends_after_ret
  | |- Route.appends _ (bind _ _) => apply appends_bind; [|intros ?]
  | |- Route.appends _ (try_catch _ _) =>
      apply appends_try_catch; [|intros ?]
  | |- Route.appends _ (Route.emit _) => apply appends_emit; auto with trace
  | |- Route.appends _ (if ?b then _ else _) => destruct b
  | |- Route.appends _ (match ?x with _ => _ end) => destruct x
  | |- Route.appends _ _ => solve [auto with trace]
  end.

Section HandlerFacts.

Import Route.

Context {W : Type}.
Variable newMessageId : nat → string.
Variable generate :
  list Message → list Agent.AgentStep → Eff W Agent.StepOutput.
Variable executeTool : Agent.ToolCall → Eff W string.
Variable appendResponseMessages :
  list Message → list Agent.AgentStep → list Message.

Local Abbreviation searchPOST :=
  (SearchRoute.POST newMessageId generate executeTool appendResponseMessages).
Local Abbreviation day3POST :=
  (Day3Route.POST newMessageId generate executeTool appendResponseMessages).
Local Abbreviation searchOnFinish :=
  (SearchRoute.onFinish (W := W) newMessageId appendResponseMessages).
Local Abbreviation day3OnFinish :=
  (Day3Route.onFinish (W := W) newMessageId appendResponseMessages).
Local Abbreviation upsertChat := (Route.upsertChat (W := W) newMessageId).

(** C9: an authenticated request whose message list is empty is answered
    with status 400 and the body ["No messages provided"], and the world is
    left as it was: no chat was created or looked up, and the model was not
    invoked. *)
Theorem empty_messages_rejected session body (world : World W) :
  messages body = [] →
  Forall (λ POST : option Session → Body → Eff (World W) Response,
            POST (Some session) body world
            = (Ok {| response_body := Text "No messages provided";
                     status := 400 |}, world))
    [searchPOST; day3POST].
Proof.
  intros Hempty.
  apply Forall_cons_2; [|apply Forall_cons_2; [|apply Forall_nil_2]].
  - unfold SearchRoute.POST. by rewrite Hempty.
  - unfold Day3Route.POST. by rewrite Hempty.
Qed.

Lemma upsertChat_appends P opts :
  P (EvUpsertChat opts) → appends P (upsertChat opts).
Proof.
  intros H. unfold Route.upsertChat.
  apply appends_bind; [by apply appends_emit|intros _; auto with trace].
Qed.

Lemma upsertChat_mentions opts : mentions (EvUpsertChat opts) (upsertChat opts).
Proof.
  unfold Route.upsertChat.
  apply (mentions_bind_l (λ _, True)); [apply mentions_emit|].
  intros _. auto with trace.
Qed.

Lemma streamText_appends P opts :
  P (EvStreamText opts) →
  appends P (Route.streamText generate executeTool opts).
Proof.
  intros H. unfold Route.streamText.
  apply appends_bind; [by apply appends_emit|intros _; auto with trace].
Qed.

Lemma findFirst_appends P cid :
  P (EvFindChat cid) → appends (W := W) P (Route.findFirst cid).
Proof.
  intros H. unfold Route.findFirst.
  apply appends_bind; [by apply appends_emit|intros _; auto with trace].
Qed.

Lemma searchOnFinish_appends session body response m :
  Js.lastElement (messages body) = Some m →
  appends (titled (Js.slice (content m) 0 50 +:+ "..."))
    (searchOnFinish session body response).
Proof.
  intros Hlast. unfold SearchRoute.onFinish. rewrite Hlast.
  apply appends_bind; [by apply upsertChat_appends|intros _].
  by apply appends_emit.
Qed.

Lemma day3OnFinish_appends session body response m :
  Js.lastElement (messages body) = Some m →
  appends (titled (Js.slice (content m) 0 50 +:+ "..."))
    (day3OnFinish session body response).
Proof.
  intros Hlast. unfold Day3Route.onFinish, inSpan. rewrite Hlast.
  repeat first
    [ apply upsertChat_appends; reflexivity
    | trace_step ].
Qed.

Lemma searchPOST_appends session body m :
  Js.lastElement (messages body) = Some m →
  appends (titled (Js.slice (content m) 0 50 +:+ "..."))
    (searchPOST (Some session) body).
Proof.
  intros Hlast.
  unfold SearchRoute.POST, createDataStreamResponse, lastContent.
  rewrite Hlast.
  repeat first
    [ apply upsertChat_appends; reflexivity
    | apply findFirst_appends; exact I
    | apply streamText_appends; exact I
    | by apply searchOnFinish_appends
    | trace_step ].
Qed.

Lemma day3POST_appends session body m :
  Js.lastElement (messages body) = Some m →
  appends (titled (Js.slice (content m) 0 50 +:+ "..."))
    (day3POST (Some session) body).
Proof.
  intros Hlast.
  unfold Day3Route.POST, createDataStreamResponse, lastContent.
  rewrite Hlast.
  repeat first
    [ apply upsertChat_appends; reflexivity
    | apply findFirst_appends; exact I
    | apply streamText_appends; exact I
    | by apply day3OnFinish_appends
    | trace_step ].
Qed.

Lemma searchOnFinish_mentions session body response m :
  Js.lastElement (messages body) = Some m →
  mentions
    (EvUpsertChat
       {| Db.userId := user_id session; Db.chatId := chatId body;
          Db.title := Js.slice (content m) 0 50 +:+ "...";
          Db.messageList :=
            appendResponseMessages (messages body) response |})
    (searchOnFinish session body response).
Proof.
  intros Hlast. unfold SearchRoute.onFinish. rewrite Hlast.
  apply (mentions_bind_l (λ _, True)); [apply upsertChat_mentions|].
  intros _. by apply appends_emit.
Qed.

Lemma day3OnFinish_mentions session body response m :
  Js.lastElement (messages body) = Some m →
  mentions
    (EvUpsertChat
       {| Db.userId := user_id session; Db.chatId := chatId body;
          Db.title := Js.slice (content m) 0 50 +:+ "...";
          Db.messageList :=
            appendResponseMessages (messages body) response |})
    (day3OnFinish session body response).
Proof.
  intros Hlast. unfold Day3Route.onFinish, inSpan. rewrite Hlast.
  apply (mentions_bind_l (λ _, True)); [|intros _; by apply appends_emit].
  apply mentions_after_emit.
  apply (mentions_try_catch (λ _, True)).
  - apply (mentions_bind_l (λ _, True)); [apply upsertChat_mentions|].
    intros ?. repeat trace_step.
  - intros x. repeat trace_step.
Qed.

Lemma searchPOST_mentions session body m :
  Js.lastElement (messages body) = Some m →
  isNewChat body = true →
  mentions
    (EvUpsertChat
       {| Db.userId := user_id session; Db.chatId := chatId body;
          Db.title := Js.slice (content m) 0 50 +:+ "...";
          Db.messageList := messages body |})
    (searchPOST (Some session) body).
Proof.
  intros Hlast Hnew.
  pose proof (searchOnFinish_appends session body) as Hfinish.
  unfold SearchRoute.POST, createDataStreamResponse, lastContent.
  rewrite Hlast, Hnew.
  destruct (messages body) as [|m0 ms] eqn:Hms; [done|].
  rewrite bool_decide_eq_false_2 by done.
  apply mentions_after_emit.
  apply (mentions_bind_l (titled (Js.slice (content m) 0 50 +:+ "..."))).
  - apply mentions_after_ret.
    apply (mentions_bind_l (λ _, True)); [apply upsertChat_mentions|].
    intros _. auto with trace.
  - intros early.
    repeat first
      [ apply streamText_appends; exact I
      | by apply Hfinish
      | trace_step ].
Qed.

Lemma day3POST_mentions session body m :
  Js.lastElement (messages body) = Some m →
  isNewChat body = true →
  mentions
    (EvUpsertChat
       {| Db.userId := user_id session; Db.chatId := chatId body;
          Db.title := Js.slice (content m) 0 50 +:+ "...";
          Db.messageList := messages body |})
    (day3POST (Some session) body).
Proof.
  intros Hlast Hnew.
  pose proof (day3OnFinish_appends session body) as Hfinish.
  unfold Day3Route.POST, createDataStreamResponse, lastContent.
  rewrite Hlast, Hnew.
  destruct (messages body) as [|m0 ms] eqn:Hms; [done|].
  rewrite bool_decide_eq_false_2 by done.
  apply mentions_after_emit.
  apply (mentions_bind_l (titled (Js.slice (content m) 0 50 +:+ "..."))).
  - apply mentions_after_ret. apply mentions_after_emit.
    apply (mentions_bind_l (λ _, True)); [|intros _; auto with trace].
    apply (mentions_try_catch (λ _, True)).
    + apply (mentions_bind_l (λ _, True)); [apply upsertChat_mentions|].
      intros ?. repeat trace_step.
    + intros x. repeat trace_step.
  - intros early.
    repeat first
      [ apply streamText_appends; exact I
      | by apply Hfinish
      | trace_step ].
Qed.

Lemma slice_short (s : string) (n : nat) :
  String.length s ≤ n → Js.slice s 0 n = s.
Proof.
  unfold Js.slice. rewrite Nat.sub_0_r. revert n.
  induction s as [|c s IH]; intros [|n] Hlen; simpl in *; try done; try lia.
  f_equal. apply IH. lia.
Qed.

Lemma titled_upserts t new :
  Forall (titled t) new →
  ∀ opts, EvUpsertChat opts ∈ new → Db.title opts = t.
Proof.
  intros F opts Hin. rewrite Forall_forall in F. exact (F _ Hin).
Qed.


End HandlerFacts.

Lemma empty_messages_rejected_witness :
  Forall (λ POST : option Route.Session → Route.Body
                   → Eff (Route.World unit) Route.Response,
            POST (Some Sample.alice) Sample.noMessages Sample.freshWorld
            = (Ok {| Route.response_body := Route.Text "No messages provided";
                     Route.status := 400 |}, Sample.freshWorld))
    [SearchRoute.POST Sample.rowId Sample.alwaysSearching Sample.echoTool
       Sample.assistantTurns;
     Day3Route.POST Sample.rowId Sample.alwaysSearching Sample.echoTool
       Sample.assistantTurns].
Proof.
  apply (empty_messages_rejected Sample.rowId Sample.alwaysSearching
           Sample.echoTool Sample.assistantTurns Sample.alice
           Sample.noMessages Sample.freshWorld).
  reflexivity.
Defined.


(** ** The earlier handler *)

(** The handler that takes an optional chat id is not one of the two
    above: it has no check for an empty message list, and it titles a chat
    with the first 100 characters of the last message, with dots only when
    something was cut. *)
Remark first_handler_differs :
  FirstRoute.title "hi" = "hi"
  ∧ Route.upsertTitles
      (Route.events
         (FirstRoute.POST Sample.rowId Sample.alwaysSearching
            Sample.echoTool Sample.assistantTurns Sample.uuid
            (Some Sample.alice) Sample.justHi Sample.freshWorld).2)
    = ["hi"; "hi"]
  ∧ (FirstRoute.POST Sample.rowId Sample.alwaysSearching
       Sample.echoTool Sample.assistantTurns Sample.uuid
       (Some Sample.alice) Sample.nothing Sample.freshWorld).1
    = Ok Route.streamResponse.
Proof. vm_compute. done. Qed.

(** * Further properties *)

(** ** The conversation store: frames, invariants and listings *)

Section StoreFacts.

Import Db.

Variable newMessageId : nat → string.

Local Abbreviation upsertChat := (Db.upsertChat newMessageId).
Local Abbreviation rowsOf := (Db.rowsOf newMessageId).

Lemma rowsOf_orders base cid ms :
  msg_order <$> rowsOf base cid ms = seq 0 (length ms).
Proof.
  unfold Db.rowsOf. apply list_eq. intros i.
  rewrite list_lookup_fmap, list_lookup_imap.
  destruct (ms !! i) as [m|] eqn:Hi; simpl.
  - symmetry. apply lookup_seq_lt. by apply lookup_lt_Some in Hi.
  - symmetry. apply lookup_seq_ge. by apply lookup_ge_None in Hi.
Qed.

Lemma rowsOf_length base cid ms : length (rowsOf base cid ms) = length ms.
Proof. apply length_imap. Qed.

Lemma filter_chat_other (l : list MessageRow) a b :
  a ≠ b →
  filter (λ m, msg_chatId m = b) (filter (λ m, msg_chatId m ≠ a) l)
  = filter (λ m, msg_chatId m = b) l.
Proof.
  intros Hne. induction l as [|m l IH]; [done|].
  rewrite !filter_cons.
  destruct (decide (msg_chatId m ≠ a)) as [Hm|Hm].
  - rewrite filter_cons. destruct (decide (msg_chatId m = b)); by rewrite IH.
  - rewrite IH. destruct (decide (msg_chatId m = b)) as [Hb|]; [|done].
    exfalso. apply Hm. congruence.
Qed.

(** The rows of each chat after an accepted call. *)
Lemma rowsOfChat_accepted db opts now db' cid :
  wellFormed db →
  upsertChat opts now db = (Ok tt, db') →
  rowsOfChat cid db' =
    if decide (cid = chatId opts)
    then rowsOf (idSeq db) (chatId opts) (messageList opts)
    else rowsOfChat cid db.
Proof.
  intros Hwf Hup.
  destruct (upsertChat_cases newMessageId db opts now)
    as [(c & _ & _ & E)|Hown]; [congruence|].
  destruct (upsertChat_accepted newMessageId db opts now Hown)
    as (db2 & E & _ & Hms).
  assert (db2 = db') as -> by congruence.
  unfold rowsOfChat. rewrite Hms, filter_app.
  destruct (decide (cid = chatId opts)) as [->|Hne].
  - rewrite (filter_all _ (Db.rowsOf _ _ _ _))
      by (intros m; apply rowsOf_chatId).
    rewrite filter_none; [done|].
    intros m Hm Hcid.
    destruct (chats db !! chatId opts) eqn:Hc.
    + by apply list_elem_of_filter in Hm as [? _].
    + apply Hwf in Hm. rewrite Hcid, Hc in Hm. by destruct Hm.
  - rewrite (filter_none _ (Db.rowsOf _ _ _ _)).
    + rewrite app_nil_r.
      destruct (chats db !! chatId opts); [|done].
      by apply filter_chat_other.
    + intros m Hm Hcid. apply rowsOf_chatId in Hm. congruence.
Qed.

Lemma consistent_empty : consistent Db.empty.
Proof.
  split; [apply wellFormed_empty|]. split.
  - intros k c H. simpl in H. by rewrite lookup_empty in H.
  - intros cid. done.
Qed.

Lemma consistent_upsertChat db opts now :
  consistent db → consistent (upsertChat opts now db).2.
Proof.
  intros (Hwf & Hkey & Hnum).
  destruct (upsertChat_cases newMessageId db opts now)
    as [(c & _ & _ & ->)|Hown]; [done|].
  destruct (upsertChat_accepted newMessageId db opts now Hown)
    as (db' & Hup & Hch & Hms).
  pose proof (wellFormed_upsertChat newMessageId db opts now Hwf) as Hwf'.
  rewrite Hup in Hwf' |- *. simpl in *.
  split; [done|]. split.
  - intros k c. rewrite Hch.
    destruct (decide (chatId opts = k)) as [<-|Hne].
    + rewrite lookup_insert_eq. intros [= <-]. unfold rowAfter.
      destruct (chats db !! chatId opts) as [c0|] eqn:Hc0; simpl; [|done].
      by apply Hkey.
    + rewrite lookup_insert_ne by done. apply Hkey.
  - intros cid. rewrite (rowsOfChat_accepted db opts now db' cid Hwf Hup).
    destruct (decide (cid = chatId opts)); [|apply Hnum].
    by rewrite rowsOf_orders, rowsOf_length.
Qed.

Lemma consistent_runUpsertsFrom calls db :
  consistent db → consistent (runUpsertsFrom newMessageId db calls).
Proof.
  unfold runUpsertsFrom.
  revert db. induction calls as [|call calls IH]; intros db H; [done|].
  simpl. apply IH. by apply consistent_upsertChat.
Qed.

(** A call for one chat leaves every other chat as it reads. *)
Lemma getChat_upsertChat_other db opts now cid :
  chatId opts ≠ cid →
  getChat cid (upsertChat opts now db).2 = getChat cid db.
Proof.
  intros Hne.
  destruct (upsertChat_cases newMessageId db opts now)
    as [(c & _ & _ & ->)|Hown]; [done|].
  destruct (upsertChat_accepted newMessageId db opts now Hown)
    as (db' & -> & Hch & Hms).
  simpl. unfold getChat. rewrite Hch, lookup_insert_ne by done.
  destruct (chats db !! cid) as [chat|]; [|done].
  do 3 f_equal. rewrite Hms, filter_app.
  rewrite (filter_none _ (Db.rowsOf _ _ _ _)).
  - rewrite app_nil_r.
    destruct (chats db !! chatId opts); [|done].
    by rewrite filter_chat_other.
  - intros m Hm Hcid. apply rowsOf_chatId in Hm. congruence.
Qed.

(** The owner of the row an accepted call writes is the caller. *)
Lemma rowAfter_owner db opts now :
  (∀ c, chats db !! chatId opts = Some c → chat_userId c = userId opts) →
  chat_userId (rowAfter db opts now) = userId opts.
Proof.
  intros Hown. unfold rowAfter.
  destruct (chats db !! chatId opts) as [c|] eqn:Hc; simpl; auto.
Qed.

(** What an accepted call leaves under the id of its chat. *)
Lemma upsertChat_stored db opts now db' :
  wellFormed db →
  upsertChat opts now db = (Ok tt, db') →
  ∃ conv, getChat (chatId opts) db' = Some conv
    ∧ chat_userId (conv_chat conv) = userId opts
    ∧ chat_title (conv_chat conv) = title opts
    ∧ chat_updatedAt (conv_chat conv) = now
    ∧ role <$> conv_messages conv = role <$> messageList opts
    ∧ content <$> conv_messages conv = content <$> messageList opts.
Proof.
  intros Hwf Hup. eexists. split.
  { by apply (getChat_upsertChat newMessageId db opts now db'). }
  simpl.
  assert (Hown : ∀ c, chats db !! chatId opts = Some c →
                      chat_userId c = userId opts).
  { destruct (upsertChat_cases newMessageId db opts now)
      as [(c & _ & _ & E)|Hown]; [congruence|done]. }
  split.
  { unfold rowAfter.
    destruct (chats db !! chatId opts) as [c|] eqn:Hc; simpl; auto. }
  split; [unfold rowAfter; by destruct (chats db !! chatId opts)|].
  split; [unfold rowAfter; by destruct (chats db !! chatId opts)|].
  split; apply list_eq; intros i;
    rewrite !list_lookup_fmap, list_lookup_imap;
    by destruct (messageList opts !! i).
Qed.

Lemma upsertChat_Ok_owner db opts now db' c :
  upsertChat opts now db = (Ok tt, db') →
  chats db' !! chatId opts = Some c →
  chat_userId c = userId opts.
Proof.
  intros Hup Hc.
  destruct (upsertChat_cases newMessageId db opts now)
    as [(c0 & _ & _ & E)|Hown]; [congruence|].
  destruct (upsertChat_accepted newMessageId db opts now Hown)
    as (db2 & E & Hch & _).
  assert (db2 = db') as -> by congruence.
  rewrite Hch, lookup_insert_eq in Hc. injection Hc as <-.
  unfold rowAfter.
  destruct (chats db !! chatId opts) as [c1|] eqn:Hc1; simpl; auto.
Qed.

Lemma upsertChat_Ok_chat db opts now db' :
  upsertChat opts now db = (Ok tt, db') →
  ∃ c, chats db' !! chatId opts = Some c ∧ chat_userId c = userId opts.
Proof.
  intros Hup.
  destruct (upsertChat_cases newMessageId db opts now)
    as [(c0 & _ & _ & E)|Hown]; [congruence|].
  destruct (upsertChat_accepted newMessageId db opts now Hown)
    as (db2 & E & Hch & _).
  assert (db2 = db') as -> by congruence.
  exists (rowAfter db opts now). rewrite Hch, lookup_insert_eq.
  split; [done|]. by apply rowAfter_owner.
Qed.

(** X1: a call to [upsertChat] for one chat, accepted or not, leaves what
    [getChat] returns for every other chat as it was: the row, the messages
    and their order. *)
Theorem upsertChat_leaves_other_chats db opts now cid :
  cid ≠ chatId opts →
  getChat cid (upsertChat opts now db).2 = getChat cid db.
Proof. intros Hne. by apply getChat_upsertChat_other. Qed.

(** X2: when the owner upserts a chat that exists, the call succeeds and the
    chat row keeps its id, its owner and its creation time; only the title
    and the update time are replaced. *)
Theorem upsertChat_updates_title_and_time db opts now c :
  chats db !! chatId opts = Some c →
  chat_userId c = userId opts →
  ∃ db', upsertChat opts now db = (Ok tt, db')
    ∧ chats db' !! chatId opts
      = Some {| chat_id := chat_id c; chat_title := title opts;
                chat_userId := chat_userId c;
                chat_createdAt := chat_createdAt c;
                chat_updatedAt := now |}.
Proof.
  intros Hc Hown.
  destruct (upsertChat_accepted newMessageId db opts now)
    as (db' & Hup & Hch & _).
  { intros c' Hc'. congruence. }
  exists db'. split; [done|].
  rewrite Hch, lookup_insert_eq. unfold rowAfter. by rewrite Hc.
Qed.

(** X3: on every store reached from the empty one by calls to [upsertChat],
    accepted or rejected, every message row belongs to a chat row, every
    chat row is stored under its own id, and the message rows of each chat
    carry the orders 0, 1, 2, ... in table order, so that [ORDER BY order]
    never meets a tie. *)
Theorem runUpserts_consistent calls :
  let db := runUpserts newMessageId calls in
  (∀ m, m ∈ messages db → is_Some (chats db !! msg_chatId m))
  ∧ (∀ k c, chats db !! k = Some c → chat_id c = k)
  ∧ (∀ cid, msg_order <$> filter (λ m, msg_chatId m = cid) (messages db)
            = seq 0 (length (filter (λ m, msg_chatId m = cid) (messages db)))).
Proof.
  exact (consistent_runUpsertsFrom calls Db.empty consistent_empty).
Qed.

(** *** The chat list of a user *)

Local Instance byUpdatedDesc_transitive : Transitive byUpdatedDesc.
Proof. unfold byUpdatedDesc. intros a b c ? ?. lia. Qed.

Local Instance byUpdatedDesc_total : Total byUpdatedDesc.
Proof. unfold byUpdatedDesc. intros a b. lia. Qed.

Lemma getChats_Permutation uid db :
  getChats uid db ≡ₚ summary <$> chatsOf uid (chats db).
Proof. unfold getChats, chatsOf. by rewrite merge_sort_Permutation. Qed.

Lemma elem_of_chatsOf uid m c :
  c ∈ chatsOf uid m ↔ chat_userId c = uid ∧ ∃ k, m !! k = Some c.
Proof.
  unfold chatsOf. rewrite list_elem_of_filter, list_elem_of_fmap.
  split.
  - intros [Hu ([k c'] & -> & Hin)]. split; [done|].
    exists k. by apply elem_of_map_to_list.
  - intros [Hu [k Hk]]. split; [done|].
    exists (k, c). split; [done|]. by apply elem_of_map_to_list.
Qed.

Lemma elem_of_getChats uid db s :
  s ∈ getChats uid db ↔
  ∃ k c, chats db !! k = Some c ∧ chat_userId c = uid ∧ s = summary c.
Proof.
  rewrite getChats_Permutation, list_elem_of_fmap.
  split.
  - intros (c & -> & Hc). apply elem_of_chatsOf in Hc as [Hu [k Hk]].
    by exists k, c.
  - intros (k & c & Hk & Hu & ->). exists c. split; [done|].
    apply elem_of_chatsOf. eauto.
Qed.

Lemma getChats_sorted uid db :
  StronglySorted (λ a b, summary_updatedAt b ≤ summary_updatedAt a)
    (getChats uid db).
Proof.
  unfold getChats.
  apply (StronglySorted_fmap summary byUpdatedDesc); [by intros a b|].
  apply StronglySorted_merge_sort; apply _.
Qed.

Lemma keyed_ids m :
  (∀ k c, m !! k = Some c → chat_id c = k) →
  chat_id <$> (map_to_list m).*2 = (map_to_list m).*1.
Proof.
  intros Hkey. rewrite <- list_fmap_compose.
  apply list_fmap_ext. intros i [k c] Hi. simpl.
  apply Hkey. apply elem_of_map_to_list. by eapply list_elem_of_lookup_2.
Qed.

Lemma getChats_ids_NoDup uid db :
  keyed db → NoDup (summary_id <$> getChats uid db).
Proof.
  intros Hkey. rewrite getChats_Permutation, <- list_fmap_compose.
  change (summary_id ∘ summary) with chat_id.
  unfold chatsOf.
  apply (sublist_NoDup _ (chat_id <$> (map_to_list (chats db)).*2)).
  - rewrite (keyed_ids (chats db)) by done. apply NoDup_fst_map_to_list.
  - apply fmap_sublist. apply sublist_filter.
Qed.

(** The rows of the table after an insert under key [k], up to order. *)
Lemma rows_insert (m : gmap string ChatRow) k row :
  (map_to_list (<[k := row]> m)).*2 ≡ₚ row :: (map_to_list (delete k m)).*2.
Proof.
  rewrite <- insert_delete_eq.
  rewrite map_to_list_insert by apply lookup_delete_eq. done.
Qed.

Lemma rows_lookup (m : gmap string ChatRow) k :
  (map_to_list m).*2
  ≡ₚ match m !! k with Some c => [c] | None => [] end
     ++ (map_to_list (delete k m)).*2.
Proof.
  destruct (m !! k) as [c|] eqn:Hk.
  - by rewrite <- (map_to_list_delete m k c Hk).
  - by rewrite delete_id.
Qed.

Lemma getChats_upsertChat_other db opts now uid :
  uid ≠ userId opts →
  getChats uid (upsertChat opts now db).2 ≡ₚ getChats uid db.
Proof.
  intros Hne.
  destruct (upsertChat_cases newMessageId db opts now)
    as [(c & _ & _ & ->)|Hown]; [done|].
  destruct (upsertChat_accepted newMessageId db opts now Hown)
    as (db' & -> & Hch & _).
  simpl. rewrite !getChats_Permutation. apply fmap_Permutation.
  unfold chatsOf. rewrite Hch, rows_insert, (rows_lookup (chats db) (chatId opts)).
  rewrite filter_cons, filter_app.
  rewrite decide_False
    by (rewrite (rowAfter_owner db opts now Hown); congruence).
  destruct (chats db !! chatId opts) as [c|] eqn:Hc; [|done].
  rewrite filter_cons, decide_False; [done|].
  rewrite (Hown c eq_refl). congruence.
Qed.

Local Instance ChatSummary_eq_dec : EqDecision ChatSummary.
Proof. solve_decision. Defined.

Lemma sorted_head_newest (l : list ChatSummary) s :
  StronglySorted (λ a b, summary_updatedAt b ≤ summary_updatedAt a) l →
  s ∈ l →
  (∀ x, x ∈ l → x ≠ s → summary_updatedAt x < summary_updatedAt s) →
  head l = Some s.
Proof.
  intros Hs Hin Hlt. destruct l as [|h t]; [by apply elem_of_nil in Hin|].
  simpl. f_equal. destruct (decide (h = s)) as [|Hne]; [done|].
  exfalso. apply elem_of_cons in Hin as [->|Hin]; [done|].
  apply StronglySorted_inv in Hs as [_ Hall].
  rewrite Forall_forall in Hall. specialize (Hall s Hin).
  specialize (Hlt h (list_elem_of_here _ _) Hne). lia.
Qed.

(** X4: on every store reached by calls to [upsertChat], [getChats] returns
    exactly the summaries of the chat rows owned by the given user, each
    chat once, sorted by update time, newest first. *)
Theorem getChats_lists_own_chats_newest_first calls uid :
  let db := runUpserts newMessageId calls in
  (∀ s, s ∈ getChats uid db ↔
        ∃ c, chats db !! summary_id s = Some c ∧ chat_userId c = uid
             ∧ s = summary c)
  ∧ NoDup (summary_id <$> getChats uid db)
  ∧ StronglySorted (λ a b, summary_updatedAt b ≤ summary_updatedAt a)
      (getChats uid db).
Proof.
  destruct (consistent_runUpsertsFrom calls Db.empty consistent_empty)
    as (_ & Hkey & _).
  fold (runUpserts newMessageId calls) in Hkey.
  split; [|split].
  - intros s. rewrite elem_of_getChats. split.
    + intros (k & c & Hk & Hu & ->). exists c.
      simpl. by rewrite (Hkey k c Hk).
    + intros (c & Hk & Hu & Hs). eauto.
  - by apply getChats_ids_NoDup.
  - apply getChats_sorted.
Qed.

(** X5: a call to [upsertChat] by one user, accepted or rejected, leaves the
    chat list of every other user with the same entries. *)
Theorem upsertChat_leaves_other_users_lists db opts now uid :
  uid ≠ userId opts →
  getChats uid (upsertChat opts now db).2 ≡ₚ getChats uid db.
Proof. intros Hne. by apply getChats_upsertChat_other. Qed.

(** X6: after an accepted call made at a time later than every update time
    in the store, the chat comes first in its owner's list, under its id,
    with the new title and the time of the call. *)
Theorem upsertChat_moves_chat_to_top db opts now db' :
  consistent db →
  (∀ k c, chats db !! k = Some c → chat_updatedAt c < now) →
  upsertChat opts now db = (Ok tt, db') →
  ∃ created,
    head (getChats (userId opts) db')
    = Some {| summary_id := chatId opts; summary_title := title opts;
              summary_createdAt := created; summary_updatedAt := now |}
    ∧ created = match chats db !! chatId opts with
                | Some c => chat_createdAt c
                | None => now
                end.
Proof.
  intros Hcons Hold Hup.
  destruct (upsertChat_cases newMessageId db opts now)
    as [(c & _ & _ & E)|Hown]; [congruence|].
  destruct (upsertChat_accepted newMessageId db opts now Hown)
    as (db2 & E & Hch & _).
  assert (db2 = db') as -> by congruence.
  destruct Hcons as (_ & Hkey & _).
  eexists. split; [|reflexivity].
  assert (Hrow : summary (rowAfter db opts now)
    = {| summary_id := chatId opts; summary_title := title opts;
         summary_createdAt := match chats db !! chatId opts with
                              | Some c => chat_createdAt c
                              | None => now
                              end;
         summary_updatedAt := now |}).
  { unfold rowAfter, summary.
    destruct (chats db !! chatId opts) as [c|] eqn:Hc; simpl; [|done].
    by rewrite (Hkey _ _ Hc). }
  rewrite <- Hrow.
  apply sorted_head_newest.
  - apply getChats_sorted.
  - apply elem_of_getChats. exists (chatId opts), (rowAfter db opts now).
    rewrite Hch, lookup_insert_eq.
    split; [done|]. split; [|done]. by apply rowAfter_owner.
  - intros x Hx Hne. apply elem_of_getChats in Hx as (k & c & Hk & _ & ->).
    rewrite Hch in Hk.
    destruct (decide (chatId opts = k)) as [<-|Hk'].
    + rewrite lookup_insert_eq in Hk. by injection Hk as <-.
    + rewrite lookup_insert_ne in Hk by done.
      rewrite Hrow. simpl. by eapply Hold.
Qed.

End StoreFacts.

Lemma upsertChat_leaves_other_chats_witness :
  Db.getChat "chat-1"
    (Db.upsertChat Sample.rowId Sample.carolChat 5
       (Db.runUpserts Sample.rowId [(Sample.aliceChat, 1)])).2
  = Db.getChat "chat-1" (Db.runUpserts Sample.rowId [(Sample.aliceChat, 1)]).
Proof.
  apply (upsertChat_leaves_other_chats Sample.rowId
           (Db.runUpserts Sample.rowId [(Sample.aliceChat, 1)])
           Sample.carolChat 5 "chat-1").
  vm_compute. discriminate.
Defined.

Lemma upsertChat_updates_title_and_time_witness :
  ∃ db',
    Db.upsertChat Sample.rowId Sample.aliceRetitled 9
      (Db.runUpserts Sample.rowId [(Sample.aliceChat, 1)]) = (Ok tt, db')
    ∧ Db.chats db' !! "chat-1"
      = Some {| Db.chat_id := "chat-1"; Db.chat_title := "Rocq, again";
                Db.chat_userId := "alice"; Db.chat_createdAt := 1;
                Db.chat_updatedAt := 9 |}.
Proof.
  apply (upsertChat_updates_title_and_time Sample.rowId
           (Db.runUpserts Sample.rowId [(Sample.aliceChat, 1)])
           Sample.aliceRetitled 9 Sample.aliceRow).
  - vm_compute. reflexivity.
  - reflexivity.
Defined.

Lemma upsertChat_leaves_other_users_lists_witness :
  Db.getChats "alice"
    (Db.upsertChat Sample.rowId Sample.carolChat 5
       (Db.runUpserts Sample.rowId [(Sample.aliceChat, 1)])).2
  ≡ₚ Db.getChats "alice" (Db.runUpserts Sample.rowId [(Sample.aliceChat, 1)]).
Proof.
  apply (upsertChat_leaves_other_users_lists Sample.rowId
           (Db.runUpserts Sample.rowId [(Sample.aliceChat, 1)])
           Sample.carolChat 5 "alice").
  vm_compute. discriminate.
Defined.

Lemma upsertChat_moves_chat_to_top_witness :
  ∃ created,
    head (Db.getChats "alice"
            (Db.upsertChat Sample.rowId Sample.aliceRetitled 9
               (Db.runUpserts Sample.rowId
                  [(Sample.aliceChat, 1); (Sample.carolChat, 5)])).2)
    = Some {| Db.summary_id := "chat-1"; Db.summary_title := "Rocq, again";
              Db.summary_createdAt := created; Db.summary_updatedAt := 9 |}
    ∧ created = 1.
Proof.
  apply (upsertChat_moves_chat_to_top Sample.rowId
           (Db.runUpserts Sample.rowId
              [(Sample.aliceChat, 1); (Sample.carolChat, 5)])
           Sample.aliceRetitled 9).
  - apply consistent_runUpsertsFrom, consistent_empty.
  - intros k c.
    assert (Db.chats (Db.runUpserts Sample.rowId
                        [(Sample.aliceChat, 1); (Sample.carolChat, 5)])
            = <["chat-1" := Sample.aliceRow]>
                {[ "chat-2" :=
                     {| Db.chat_id := "chat-2"; Db.chat_title := "hi";
                        Db.chat_userId := "carol"; Db.chat_createdAt := 5;
                        Db.chat_updatedAt := 5 |} ]}) as ->
      by (vm_compute; reflexivity).
    intros [[_ <-]|[_ [_ <-]%lookup_singleton_Some]]%lookup_insert_Some;
      simpl; lia.
  - vm_compute. reflexivity.
Defined.

(** ** What the handlers do to the store *)

Section KeepsLogic.

Import Route.

Context {W : Type}.
Variable R : relation Db.Database.
Hypothesis R_refl : ∀ d, R d d.
Hypothesis R_trans : ∀ d1 d2 d3, R d1 d2 → R d2 d3 → R d1 d3.

Lemma keeps_ret {A} (a : A) : keeps (W := W) R (ret a).
Proof. intros w. apply R_refl. Qed.

Lemma keeps_throw {A} e : keeps (W := W) (A := A) R (throw e).
Proof. intros w. apply R_refl. Qed.

Lemma keeps_gets {A} (f : World W → A) : keeps R (gets f).
Proof. intros w. apply R_refl. Qed.

Lemma keeps_emit e : keeps (W := W) R (emit e).
Proof. intros w. apply R_refl. Qed.

Lemma keeps_onAgent {A} (c : Eff (W * nat) A) : keeps R (onAgent c).
Proof. intros w. unfold onAgent. destruct (c (agent w)). apply R_refl. Qed.

Lemma keeps_onDb {A} (c : nat → Eff Db.Database A) :
  (∀ now d, R d (c now d).2) → keeps (W := W) R (onDb c).
Proof.
  intros Hc w. unfold onDb. specialize (Hc (clock w) (db w)).
  by destruct (c (clock w) (db w)).
Qed.

Lemma keeps_bind {A B} (c : Eff (World W) A) (k : A → Eff (World W) B) :
  keeps R c → (∀ a, keeps R (k a)) → keeps R (bind c k).
Proof.
  intros Hc Hk w. unfold bind. specialize (Hc w).
  destruct (c w) as [[a|e] w1]; simpl in *; [|done].
  eapply R_trans; [exact Hc|apply Hk].
Qed.

Lemma keeps_after_ret {A B} (a : A) (k : A → Eff (World W) B) :
  keeps R (k a) → keeps R (bind (ret a) k).
Proof. intros Hk w. unfold bind, ret. apply Hk. Qed.

Lemma keeps_try_catch {A} (c : Eff (World W) A) h :
  keeps R c → (∀ e, keeps R (h e)) → keeps R (try_catch c h).
Proof.
  intros Hc Hh w. unfold try_catch. specialize (Hc w).
  destruct (c w) as [[a|e] w1]; simpl in *; [done|].
  eapply R_trans; [exact Hc|apply Hh].
Qed.

Lemma keeps_upsertChat newMessageId opts :
  (∀ now d, R d (Db.upsertChat newMessageId opts now d).2) →
  keeps (W := W) R (Route.upsertChat newMessageId opts).
Proof.
  intros H. unfold Route.upsertChat.
  apply keeps_bind; [apply keeps_emit|intros _]. by apply keeps_onDb.
Qed.

Lemma keeps_streamText generate executeTool opts :
  keeps (W := W) R (Route.streamText generate executeTool opts).
Proof.
  unfold Route.streamText.
  apply keeps_bind; [apply keeps_emit|intros _]. apply keeps_onAgent.
Qed.

End KeepsLogic.

(** Decompose a goal [keeps R c] along the structure of [c]; a call to
    [upsertChat] is left to the caller. *)
Ltac keeps_step :=
  match goal with
  | |- Route.keeps _ (bind (ret _) _) => apply keeps_after_ret
  | |- Route.keeps _ (bind _ _) =>
      apply keeps_bind; [assumption| |intros ?]
  | |- Route.keeps _ (try_catch _ _) =>
      apply keeps_try_catch; [assumption| |intros ?]
  | |- Route.keeps _ (ret _) => apply keeps_ret; assumption
  | |- Route.keeps _ (throw _) => apply keeps_throw; assumption
  | |- Route.keeps _ (gets _) => apply keeps_gets; assumption
  | |- Route.keeps _ (Route.emit _) => apply keeps_emit; assumption
  | |- Route.keeps _ (Route.streamText _ _ _) =>
      apply keeps_streamText; assumption
  | |- Route.keeps _ (Route.findFirst _) => unfold Route.findFirst
  | |- Route.keeps _ (Route.lastContent _) => unfold Route.lastContent
  | |- Route.keeps _ (Route.createDataStreamResponse _ _) =>
      unfold Route.createDataStreamResponse
  | |- Route.keeps _ (Route.inSpan _ _) => unfold Route.inSpan
  | |- Route.keeps _ (if ?b then _ else _) => destruct b
  | |- Route.keeps _ (match ?x with _ => _ end) => destruct x
  end.

Section HandlersKeep.

Import Route.

Context {W : Type}.
Variable newMessageId : nat → string.
Variable generate :
  list Message → list Agent.AgentStep → Eff W Agent.StepOutput.
Variable executeTool : Agent.ToolCall → Eff W string.
Variable appendResponseMessages :
  list Message → list Agent.AgentStep → list Message.
Variable randomUUID : nat → string.

Local Abbreviation searchPOST :=
  (SearchRoute.POST newMessageId generate executeTool appendResponseMessages).
Local Abbreviation day3POST :=
  (Day3Route.POST newMessageId generate executeTool appendResponseMessages).
Local Abbreviation firstPOST :=
  (FirstRoute.POST newMessageId generate executeTool appendResponseMessages
     randomUUID).

Variable R : relation Db.Database.
Hypothesis R_refl : ∀ d, R d d.
Hypothesis R_trans : ∀ d1 d2 d3, R d1 d2 → R d2 d3 → R d1 d3.

(** What holds across every call to [upsertChat] a request of [session] for
    the chat [cid] can make, holds across the handler. *)
Lemma searchPOST_keeps session body :
  (∀ s opts now d,
     session = Some s → Db.userId opts = user_id s →
     Db.chatId opts = chatId body →
     R d (Db.upsertChat newMessageId opts now d).2) →
  keeps R (searchPOST session body).
Proof.
  intros HR. unfold SearchRoute.POST, SearchRoute.onFinish.
  destruct session as [s|]; [|keeps_step].
  repeat keeps_step;
    (apply keeps_upsertChat; [assumption|assumption|];
     intros now d; by apply (HR s)).
Qed.

Lemma day3POST_keeps session body :
  (∀ s opts now d,
     session = Some s → Db.userId opts = user_id s →
     Db.chatId opts = chatId body →
     R d (Db.upsertChat newMessageId opts now d).2) →
  keeps R (day3POST session body).
Proof.
  intros HR. unfold Day3Route.POST, Day3Route.onFinish.
  destruct session as [s|]; [|keeps_step].
  repeat keeps_step;
    (apply keeps_upsertChat; [assumption|assumption|];
     intros now d; by apply (HR s)).
Qed.

Lemma firstPOST_keeps session body :
  (∀ s opts now d,
     session = Some s → Db.userId opts = user_id s →
     R d (Db.upsertChat newMessageId opts now d).2) →
  keeps R (firstPOST session body).
Proof.
  intros HR. unfold FirstRoute.POST, FirstRoute.onFinish.
  destruct session as [s|]; [|keeps_step].
  repeat keeps_step;
    (apply keeps_upsertChat; [assumption|assumption|];
     intros now d; by apply (HR s)).
Qed.

End HandlersKeep.

Section HandlerFrames.

Import Route.

Context {W : Type}.
Variable newMessageId : nat → string.
Variable generate :
  list Message → list Agent.AgentStep → Eff W Agent.StepOutput.
Variable executeTool : Agent.ToolCall → Eff W string.
Variable appendResponseMessages :
  list Message → list Agent.AgentStep → list Message.
Variable randomUUID : nat → string.

Local Abbreviation searchPOST :=
  (SearchRoute.POST newMessageId generate executeTool appendResponseMessages).
Local Abbreviation day3POST :=
  (Day3Route.POST newMessageId generate executeTool appendResponseMessages).
Local Abbreviation firstPOST :=
  (FirstRoute.POST newMessageId generate executeTool appendResponseMessages
     randomUUID).

(** X13: a request touches no chat but its own: whatever the session, the
    body and the outcome, [getChat] returns for every other chat id what it
    returned before the request. *)
Theorem request_leaves_other_chats session body (w : World W) cid :
  cid ≠ chatId body →
  Forall (λ POST : option Session → Body → Eff (World W) Response,
            Db.getChat cid (db (POST session body w).2)
            = Db.getChat cid (db w))
    [searchPOST; day3POST].
Proof.
  intros Hne.
  pose (R := λ d d' : Db.Database, Db.getChat cid d' = Db.getChat cid d).
  assert (R_refl : ∀ d, R d d) by (intros d; unfold R; reflexivity).
  assert (R_trans : ∀ d1 d2 d3, R d1 d2 → R d2 d3 → R d1 d3).
  { unfold R. intros d1 d2 d3 H1 H2. by rewrite H2. }
  assert (HR : ∀ s opts now d,
            session = Some s → Db.userId opts = user_id s →
            Db.chatId opts = chatId body →
            R d (Db.upsertChat newMessageId opts now d).2).
  { intros s opts now d _ _ Hid. unfold R.
    apply getChat_upsertChat_other. congruence. }
  apply Forall_cons_2; [|apply Forall_cons_2; [|apply Forall_nil_2]].
  - exact (searchPOST_keeps _ _ _ _ R R_refl R_trans session body HR w).
  - exact (day3POST_keeps _ _ _ _ R R_refl R_trans session body HR w).
Qed.

(** X14: the requests of one user leave the chat lists of all other users
    with the same entries, through each of the three handlers that store
    chats. *)
Theorem request_leaves_other_users_lists s (w : World W) uid :
  uid ≠ user_id s →
  (∀ body,
     Forall (λ POST : option Session → Body → Eff (World W) Response,
               Db.getChats uid (db (POST (Some s) body w).2)
               ≡ₚ Db.getChats uid (db w))
       [searchPOST; day3POST])
  ∧ (∀ body,
       Db.getChats uid (db (firstPOST (Some s) body w).2)
       ≡ₚ Db.getChats uid (db w)).
Proof.
  intros Hne.
  pose (R := λ d d' : Db.Database, Db.getChats uid d' ≡ₚ Db.getChats uid d).
  assert (R_refl : ∀ d, R d d) by (intros d; unfold R; reflexivity).
  assert (R_trans : ∀ d1 d2 d3, R d1 d2 → R d2 d3 → R d1 d3).
  { unfold R. intros d1 d2 d3 H1 H2. by rewrite H2. }
  assert (HR : ∀ s' opts now d,
            Some s = Some s' → Db.userId opts = user_id s' →
            R d (Db.upsertChat newMessageId opts now d).2).
  { intros s' opts now d [= <-] Hu. unfold R.
    apply getChats_upsertChat_other. congruence. }
  split.
  - intros body.
    apply Forall_cons_2; [|apply Forall_cons_2; [|apply Forall_nil_2]].
    + apply (searchPOST_keeps _ _ _ _ R R_refl R_trans (Some s) body).
      intros s' opts now d Hs Hu _. by apply (HR s').
    + apply (day3POST_keeps _ _ _ _ R R_refl R_trans (Some s) body).
      intros s' opts now d Hs Hu _. by apply (HR s').
  - intros body.
    exact (firstPOST_keeps _ _ _ _ _ R R_refl R_trans (Some s) body HR w).
Qed.

(** X15: no request changes the owner of a chat: a chat that is in the store
    before a request is in the store after it, with the same owner, through
    each of the three handlers that store chats. *)
Theorem request_never_changes_owner session (w : World W) k c :
  Db.chats (db w) !! k = Some c →
  (∀ body,
     Forall (λ POST : option Session → Body → Eff (World W) Response,
               ∃ c', Db.chats (db (POST session body w).2) !! k = Some c'
                     ∧ Db.chat_userId c' = Db.chat_userId c)
       [searchPOST; day3POST])
  ∧ (∀ body,
       ∃ c', Db.chats (db (firstPOST session body w).2) !! k = Some c'
             ∧ Db.chat_userId c' = Db.chat_userId c).
Proof.
  intros Hc.
  pose (R := λ d d' : Db.Database,
          ∀ c0, Db.chats d !! k = Some c0 →
                ∃ c', Db.chats d' !! k = Some c'
                      ∧ Db.chat_userId c' = Db.chat_userId c0).
  assert (R_refl : ∀ d, R d d) by (intros d c0 H0; by exists c0).
  assert (R_trans : ∀ d1 d2 d3, R d1 d2 → R d2 d3 → R d1 d3).
  { unfold R. intros d1 d2 d3 H1 H2 c0 H0.
    destruct (H1 c0 H0) as (c1 & Hc1 & E1).
    destruct (H2 c1 Hc1) as (c2 & Hc2 & E2).
    exists c2. split; [done|congruence]. }
  assert (HR : ∀ opts now d, R d (Db.upsertChat newMessageId opts now d).2).
  { intros opts now d c0 H0. by apply owner_upsertChat. }
  split.
  - intros body.
    apply Forall_cons_2; [|apply Forall_cons_2; [|apply Forall_nil_2]].
    + apply (searchPOST_keeps _ _ _ _ R R_refl R_trans session body);
        [intros; apply HR|done].
    + apply (day3POST_keeps _ _ _ _ R R_refl R_trans session body);
        [intros; apply HR|done].
  - intros body.
    apply (firstPOST_keeps _ _ _ _ _ R R_refl R_trans session body);
      [intros; apply HR|done].
Qed.

End HandlerFrames.

(** ** The handlers, request by request *)

Section WpRules.

Context {S : Type}.

Lemma wp_bind {A B} (c : Eff S A) (k : A → Eff S B) Q s :
  wp c (λ r s', match r with
                | Ok a => wp (k a) Q s'
                | Thrown e => Q (Thrown e) s'
                end) s →
  wp (bind c k) Q s.
Proof. unfold wp, bind. by destruct (c s) as [[a|e] s']. Qed.

Lemma wp_try_catch {A} (c : Eff S A) h Q s :
  wp c (λ r s', match r with
                | Ok a => Q (Ok a) s'
                | Thrown e => wp (h e) Q s'
                end) s →
  wp (try_catch c h) Q s.
Proof. unfold wp, try_catch. by destruct (c s) as [[a|e] s']. Qed.

Lemma wp_ret {A} (a : A) (Q : Result A → S → Prop) s :
  Q (Ok a) s → wp (ret a) Q s.
Proof. done. Qed.

Lemma wp_throw {A} e (Q : Result A → S → Prop) s :
  Q (Thrown e) s → wp (throw e) Q s.
Proof. done. Qed.

Lemma wp_gets {A} (f : S → A) (Q : Result A → S → Prop) s :
  Q (Ok (f s)) s → wp (gets f) Q s.
Proof. done. Qed.

Lemma wp_weaken {A} (c : Eff S A) (Q Q' : Result A → S → Prop) s :
  wp c Q s → (∀ r s', Q r s' → Q' r s') → wp c Q' s.
Proof. unfold wp. auto. Qed.

End WpRules.

Section WorldRules.

Import Route.

Context {W : Type}.
Variable newMessageId : nat → string.
Variable generate :
  list Message → list Agent.AgentStep → Eff W Agent.StepOutput.
Variable executeTool : Agent.ToolCall → Eff W string.

Lemma wp_emit e (Q : Result unit → World W → Prop) w :
  Q (Ok tt) {| db := db w; clock := clock w; agent := agent w;
               events := events w ++ [e] |} →
  wp (emit e) Q w.
Proof. done. Qed.

Lemma wp_upsertChat opts (Q : Result unit → World W → Prop) w :
  (∀ r d, Db.upsertChat newMessageId opts (clock w) (db w) = (r, d) →
          Q r {| db := d; clock := clock w; agent := agent w;
                 events := events w ++ [EvUpsertChat opts] |}) →
  wp (Route.upsertChat newMessageId opts) Q w.
Proof.
  intros H. unfold wp, Route.upsertChat, bind, emit, modify, onDb.
  cbn [db clock agent events].
  specialize (H (Db.upsertChat newMessageId opts (clock w) (db w)).1
                (Db.upsertChat newMessageId opts (clock w) (db w)).2).
  destruct (Db.upsertChat newMessageId opts (clock w) (db w)) as [r d].
  by apply H.
Qed.

Lemma wp_streamText opts (Q : Result _ → World W → Prop) w :
  (∀ r a, Agent.run generate executeTool (opt_maxSteps opts)
            (opt_messages opts) (agent w) = (r, a) →
          Q r {| db := db w; clock := clock w; agent := a;
                 events := events w ++ [EvStreamText opts] |}) →
  wp (Route.streamText generate executeTool opts) Q w.
Proof.
  intros H. unfold wp, Route.streamText, bind, emit, modify, onAgent.
  cbn [db clock agent events].
  specialize (H (Agent.run generate executeTool (opt_maxSteps opts)
                   (opt_messages opts) (agent w)).1
                (Agent.run generate executeTool (opt_maxSteps opts)
                   (opt_messages opts) (agent w)).2).
  destruct (Agent.run generate executeTool (opt_maxSteps opts)
              (opt_messages opts) (agent w)) as [r a].
  by apply H.
Qed.

Lemma wp_findFirst cid (Q : Result _ → World W → Prop) w :
  Q (Ok (Db.chats (db w) !! cid))
    {| db := db w; clock := clock w; agent := agent w;
       events := events w ++ [EvFindChat cid] |} →
  wp (findFirst cid) Q w.
Proof. done. Qed.

End WorldRules.

(** One step of a run: the rule of the computation at the head. *)
Ltac wp_step :=
  match goal with
  | |- wp (bind _ _) _ _ => apply wp_bind
  | |- wp (try_catch _ _) _ _ => apply wp_try_catch
  | |- wp (ret _) _ _ => apply wp_ret
  | |- wp (throw _) _ _ => apply wp_throw
  | |- wp (gets _) _ _ => apply wp_gets
  | |- wp (Route.emit _) _ _ => apply wp_emit
  | |- wp (Route.findFirst _) _ _ => apply wp_findFirst
  | |- wp (Route.lastContent _) _ _ => unfold Route.lastContent
  | |- wp (Route.createDataStreamResponse _ _) _ _ =>
      unfold Route.createDataStreamResponse
  | |- wp (Route.inSpan _ _) _ _ => unfold Route.inSpan
  | |- wp (SearchRoute.onFinish _ _ _ _ _) _ _ =>
      unfold SearchRoute.onFinish; cbv zeta
  | |- wp (Day3Route.onFinish _ _ _ _ _) _ _ =>
      unfold Day3Route.onFinish; cbv zeta
  | |- wp (FirstRoute.onFinish _ _ _ _ _ _) _ _ =>
      unfold FirstRoute.onFinish; cbv zeta
  | |- wp (Route.upsertChat _ _) _ _ =>
      let H := fresh "Hup" in
      apply wp_upsertChat;
      cbn [Route.db Route.clock Route.agent Route.events];
      intros [[]|?] ? H
  | |- wp (Route.streamText _ _ _) _ _ =>
      let H := fresh "Hrun" in
      apply wp_streamText;
      cbn [Route.db Route.clock Route.agent Route.events];
      intros [?|?] ? H
  end;
  cbn [Route.db Route.clock Route.agent Route.events].

(** The options of a handler, field by field. *)
Ltac wp_options H :=
  cbn [Route.opt_maxSteps Route.opt_messages SearchRoute.options
       Day3Route.options FirstRoute.options Day1Route.options
       GroundingRoute.options] in H.

(** A run along every branch. *)
Ltac wp_case :=
  match goal with
  | |- wp (if ?b then _ else _) _ _ => destruct b eqn:?
  | |- wp (match ?x with _ => _ end) _ _ => destruct x eqn:?
  end.

Ltac wp_run := repeat (wp_step || wp_case).

(** A run up to and including the next call to [upsertChat]. *)
Ltac wp_to_upsert :=
  repeat (lazymatch goal with
          | |- wp (Route.upsertChat _ _) _ _ => fail
          | _ => wp_step
          end);
  wp_step.

(** A run up to and including the next call to [streamText]. *)
Ltac wp_to_stream :=
  repeat (lazymatch goal with
          | |- wp (Route.streamText _ _ _) _ _ => fail
          | _ => wp_step
          end);
  wp_step.

Section HandlerRuns.

Import Route.

Context {W : Type}.
Variable newMessageId : nat → string.
Variable generate :
  list Message → list Agent.AgentStep → Eff W Agent.StepOutput.
Variable executeTool : Agent.ToolCall → Eff W string.
Variable appendResponseMessages :
  list Message → list Agent.AgentStep → list Message.
Variable randomUUID : nat → string.

Local Abbreviation searchPOST :=
  (SearchRoute.POST newMessageId generate executeTool appendResponseMessages).
Local Abbreviation day3POST :=
  (Day3Route.POST newMessageId generate executeTool appendResponseMessages).
Local Abbreviation firstPOST :=
  (FirstRoute.POST newMessageId generate executeTool appendResponseMessages
     randomUUID).
Local Abbreviation upsertChat := (Route.upsertChat (W := W) newMessageId).
Local Abbreviation streamText := (Route.streamText generate executeTool).

(** The response of [createDataStreamResponse] is the stream, whatever
    [execute] does. *)
Lemma createDataStreamResponse_result execute onError (w : World W) :
  (createDataStreamResponse execute onError w).1 = Ok streamResponse.
Proof.
  unfold createDataStreamResponse, bind, try_catch, emit, modify, ret.
  by destruct (execute w) as [[[]|e] w1].
Qed.

(** A call that throws has written nothing. *)
Lemma upsertChat_thrown opts now d e d' :
  Db.upsertChat newMessageId opts now d = (Thrown e, d') →
  e = Db.notOwner ∧ d' = d
  ∧ ∃ c, Db.chats d !! Db.chatId opts = Some c
         ∧ Db.chat_userId c ≠ Db.userId opts.
Proof.
  intros Hup.
  destruct (upsertChat_cases newMessageId d opts now)
    as [(c & Hc & Hne & E)|Hown].
  - rewrite E in Hup. injection Hup as <- <-. eauto.
  - destruct (upsertChat_accepted newMessageId d opts now Hown)
      as (d2 & E & _). congruence.
Qed.

Lemma searchPOST_rejected session body (w : World W) :
  wp (searchPOST session body)
     (λ r w', r = Ok streamResponse ∨ db w' = db w ∧ agent w' = agent w) w.
Proof.
  unfold SearchRoute.POST.
  wp_run; try (by left); try (by right).
  all: apply upsertChat_thrown in Hup as (_ & -> & _); by right.
Qed.

Lemma day3POST_rejected session body (w : World W) :
  wp (day3POST session body)
     (λ r w', r = Ok streamResponse ∨ db w' = db w ∧ agent w' = agent w) w.
Proof.
  unfold Day3Route.POST.
  wp_run; try (by left); try (by right).
  all: apply upsertChat_thrown in Hup as (_ & -> & _); by right.
Qed.

(** X7: a request that is not answered with the stream, because it is
    refused with another status or because the handler throws, has stored
    nothing and has not invoked the model. *)
Theorem refused_request_changes_nothing session body (w : World W) :
  Forall (λ POST : option Session → Body → Eff (World W) Response,
            (POST session body w).1 = Ok streamResponse
            ∨ db (POST session body w).2 = db w
              ∧ agent (POST session body w).2 = agent w)
    [searchPOST; day3POST].
Proof.
  apply Forall_cons_2; [|apply Forall_cons_2; [|apply Forall_nil_2]].
  - apply searchPOST_rejected.
  - apply day3POST_rejected.
Qed.

Lemma nonempty_length {A} (l : list A) :
  l ≠ [] → bool_decide (length l = 0) = false.
Proof. intros H. apply bool_decide_eq_false_2. by destruct l. Qed.

Lemma nonempty_last {A} (l : list A) : l ≠ [] → is_Some (Js.lastElement l).
Proof.
  intros H. unfold Js.lastElement.
  destruct (last l) eqn:E; [by eexists|]. by apply last_None in E.
Qed.

Lemma searchPOST_foreign s body (w : World W) c :
  messages body ≠ [] →
  Db.chats (db w) !! chatId body = Some c →
  Db.chat_userId c ≠ user_id s →
  wp (searchPOST (Some s) body)
     (λ r w',
        r = (if isNewChat body then Thrown Db.notOwner
             else Ok (textResponse "Chat not found or unauthorized" 404))
        ∧ db w' = db w ∧ agent w' = agent w) w.
Proof.
  intros Hne Hc Hown. unfold SearchRoute.POST.
  rewrite (nonempty_length _ Hne).
  destruct (nonempty_last _ Hne) as [m Hm].
  destruct (isNewChat body).
  - unfold lastContent. rewrite Hm. wp_to_upsert.
    + rewrite (upsertChat_foreign newMessageId _ _ _ c) in Hup by done.
      discriminate.
    + apply upsertChat_thrown in Hup as (-> & -> & _). done.
  - repeat wp_step. rewrite Hc.
    rewrite bool_decide_eq_true_2 by done. by repeat wp_step.
Qed.

Lemma day3POST_foreign s body (w : World W) c :
  messages body ≠ [] →
  Db.chats (db w) !! chatId body = Some c →
  Db.chat_userId c ≠ user_id s →
  wp (day3POST (Some s) body)
     (λ r w',
        r = (if isNewChat body then Thrown Db.notOwner
             else Ok (textResponse "Chat not found or unauthorized" 404))
        ∧ db w' = db w ∧ agent w' = agent w) w.
Proof.
  intros Hne Hc Hown. unfold Day3Route.POST.
  rewrite (nonempty_length _ Hne).
  destruct (nonempty_last _ Hne) as [m Hm].
  destruct (isNewChat body).
  - unfold lastContent. rewrite Hm. wp_to_upsert.
    + rewrite (upsertChat_foreign newMessageId _ _ _ c) in Hup by done.
      discriminate.
    + apply upsertChat_thrown in Hup as (-> & -> & _). by repeat wp_step.
  - repeat wp_step. rewrite Hc.
    rewrite bool_decide_eq_true_2 by done. by repeat wp_step.
Qed.

(** X8: a chat owned by another user cannot be reached through the
    handlers: a request for it with messages is refused, with the store's
    ownership error when it claims the chat is new and with status 404
    otherwise; the store is left as it was and the model is not invoked. *)
Theorem foreign_chat_is_refused s body (w : World W) c :
  messages body ≠ [] →
  Db.chats (db w) !! chatId body = Some c →
  Db.chat_userId c ≠ user_id s →
  Forall (λ POST : option Session → Body → Eff (World W) Response,
            (POST (Some s) body w).1
            = (if isNewChat body then Thrown Db.notOwner
               else Ok {| response_body :=
                            Text "Chat not found or unauthorized";
                          status := 404 |})
            ∧ db (POST (Some s) body w).2 = db w
            ∧ agent (POST (Some s) body w).2 = agent w)
    [searchPOST; day3POST].
Proof.
  intros Hne Hc Hown.
  apply Forall_cons_2; [|apply Forall_cons_2; [|apply Forall_nil_2]].
  - by apply (searchPOST_foreign s body w c).
  - by apply (day3POST_foreign s body w c).
Qed.

Lemma searchPOST_finished s body (w : World W) m steps a' :
  Db.wellFormed (db w) →
  Js.lastElement (messages body) = Some m →
  (∀ c, Db.chats (db w) !! chatId body = Some c →
        Db.chat_userId c = user_id s) →
  (isNewChat body = false → is_Some (Db.chats (db w) !! chatId body)) →
  Agent.run generate executeTool 10 (messages body) (agent w)
  = (Ok steps, a') →
  wp (searchPOST (Some s) body)
     (λ r w',
        r = Ok streamResponse ∧ agent w' = a'
        ∧ ∃ conv, Db.getChat (chatId body) (db w') = Some conv
          ∧ Db.chat_userId (Db.conv_chat conv) = user_id s
          ∧ Db.chat_title (Db.conv_chat conv)
            = Js.slice (content m) 0 50 +:+ "..."
          ∧ Db.chat_updatedAt (Db.conv_chat conv) = clock w
          ∧ role <$> Db.conv_messages conv
            = role <$> appendResponseMessages (messages body) steps
          ∧ content <$> Db.conv_messages conv
            = content <$> appendResponseMessages (messages body) steps) w.
Proof.
  intros Hwf Hm Hown Hold Hrun0. unfold SearchRoute.POST.
  assert (Hne : messages body ≠ []) by (intros E; by rewrite E in Hm).
  rewrite (nonempty_length _ Hne).
  destruct (isNewChat body).
  - unfold lastContent. rewrite Hm. wp_to_upsert.
    2:{ apply upsertChat_thrown in Hup as (_ & _ & c & Hc & Hc').
        by destruct Hc'; apply Hown. }
    wp_to_stream; wp_options Hrun; rewrite Hrun0 in Hrun; [|done].
    injection Hrun as <- <-.
    wp_step. rewrite Hm. wp_to_upsert.
    2:{ apply upsertChat_thrown in Hup0 as (_ & _ & c & Hc & Hc').
        destruct Hc'. by apply (upsertChat_Ok_owner _ _ _ _ _ _ Hup). }
    repeat wp_step. split; [done|]. split; [done|].
    pose proof (wellFormed_upsertChat newMessageId _
                  {| Db.userId := user_id s; Db.chatId := chatId body;
                     Db.title := Js.slice (content m) 0 50 +:+ "...";
                     Db.messageList := messages body |} (clock w) Hwf)
      as Hwf'.
    rewrite Hup in Hwf'.
    exact (upsertChat_stored newMessageId _ _ _ _ Hwf' Hup0).
  - repeat wp_step. destruct Hold as [c Hc]; [done|]. rewrite Hc.
    rewrite bool_decide_eq_false_2 by (intros H; apply H; by apply Hown).
    wp_to_stream; wp_options Hrun; rewrite Hrun0 in Hrun; [|done].
    injection Hrun as <- <-.
    wp_step. rewrite Hm. wp_to_upsert.
    2:{ apply upsertChat_thrown in Hup as (_ & _ & c' & Hc' & Hc'').
        destruct Hc''. by apply Hown. }
    repeat wp_step. split; [done|]. split; [done|].
    exact (upsertChat_stored newMessageId _ _ _ _ Hwf Hup).
Qed.

Lemma day3POST_finished s body (w : World W) m steps a' :
  Db.wellFormed (db w) →
  Js.lastElement (messages body) = Some m →
  (∀ c, Db.chats (db w) !! chatId body = Some c →
        Db.chat_userId c = user_id s) →
  (isNewChat body = false → is_Some (Db.chats (db w) !! chatId body)) →
  Agent.run generate executeTool 10 (messages body) (agent w)
  = (Ok steps, a') →
  wp (day3POST (Some s) body)
     (λ r w',
        r = Ok streamResponse ∧ agent w' = a'
        ∧ ∃ conv, Db.getChat (chatId body) (db w') = Some conv
          ∧ Db.chat_userId (Db.conv_chat conv) = user_id s
          ∧ Db.chat_title (Db.conv_chat conv)
            = Js.slice (content m) 0 50 +:+ "..."
          ∧ Db.chat_updatedAt (Db.conv_chat conv) = clock w
          ∧ role <$> Db.conv_messages conv
            = role <$> appendResponseMessages (messages body) steps
          ∧ content <$> Db.conv_messages conv
            = content <$> appendResponseMessages (messages body) steps) w.
Proof.
  intros Hwf Hm Hown Hold Hrun0. unfold Day3Route.POST.
  assert (Hne : messages body ≠ []) by (intros E; by rewrite E in Hm).
  rewrite (nonempty_length _ Hne).
  destruct (isNewChat body).
  - unfold lastContent. rewrite Hm. wp_to_upsert.
    2:{ apply upsertChat_thrown in Hup as (_ & _ & c & Hc & Hc').
        by destruct Hc'; apply Hown. }
    wp_to_stream; wp_options Hrun; rewrite Hrun0 in Hrun; [|done].
    injection Hrun as <- <-.
    wp_step. rewrite Hm. wp_to_upsert.
    2:{ apply upsertChat_thrown in Hup0 as (_ & _ & c & Hc & Hc').
        destruct Hc'. by apply (upsertChat_Ok_owner _ _ _ _ _ _ Hup). }
    repeat wp_step. split; [done|]. split; [done|].
    pose proof (wellFormed_upsertChat newMessageId _
                  {| Db.userId := user_id s; Db.chatId := chatId body;
                     Db.title := Js.slice (content m) 0 50 +:+ "...";
                     Db.messageList := messages body |} (clock w) Hwf)
      as Hwf'.
    rewrite Hup in Hwf'.
    exact (upsertChat_stored newMessageId _ _ _ _ Hwf' Hup0).
  - repeat wp_step. destruct Hold as [c Hc]; [done|]. rewrite Hc.
    rewrite bool_decide_eq_false_2 by (intros H; apply H; by apply Hown).
    wp_to_stream; wp_options Hrun; rewrite Hrun0 in Hrun; [|done].
    injection Hrun as <- <-.
    wp_step. rewrite Hm. wp_to_upsert.
    2:{ apply upsertChat_thrown in Hup as (_ & _ & c' & Hc' & Hc'').
        destruct Hc''. by apply Hown. }
    repeat wp_step. split; [done|]. split; [done|].
    exact (upsertChat_stored newMessageId _ _ _ _ Hwf Hup).
Qed.

(** X9: a turn that the model finishes is stored.  For a request with
    messages, for a chat that is new or already the user's, or that exists
    and is the user's when the request does not say it is new, the handler
    answers with the stream, and afterwards [getChat] returns the chat under
    the request's id, owned by the user, titled with the first 50 characters
    of the last message and ["..."], updated at the time of the request, and
    holding the messages that [appendResponseMessages] made of the request's
    messages and the response, in order. *)
Theorem finished_turn_is_stored s body (w : World W) m steps a' :
  Db.wellFormed (db w) →
  Js.lastElement (messages body) = Some m →
  (∀ c, Db.chats (db w) !! chatId body = Some c →
        Db.chat_userId c = user_id s) →
  (isNewChat body = false → is_Some (Db.chats (db w) !! chatId body)) →
  Agent.run generate executeTool 10 (messages body) (agent w)
  = (Ok steps, a') →
  Forall (λ POST : option Session → Body → Eff (World W) Response,
            (POST (Some s) body w).1 = Ok streamResponse
            ∧ agent (POST (Some s) body w).2 = a'
            ∧ ∃ conv,
                Db.getChat (chatId body) (db (POST (Some s) body w).2)
                = Some conv
                ∧ Db.chat_userId (Db.conv_chat conv) = user_id s
                ∧ Db.chat_title (Db.conv_chat conv)
                  = Js.slice (content m) 0 50 +:+ "..."
                ∧ Db.chat_updatedAt (Db.conv_chat conv) = clock w
                ∧ role <$> Db.conv_messages conv
                  = role <$> appendResponseMessages (messages body) steps
                ∧ content <$> Db.conv_messages conv
                  = content <$> appendResponseMessages (messages body) steps)
    [searchPOST; day3POST].
Proof.
  intros Hwf Hm Hown Hold Hrun.
  apply Forall_cons_2; [|apply Forall_cons_2; [|apply Forall_nil_2]].
  - by apply (searchPOST_finished s body w m steps a').
  - by apply (day3POST_finished s body w m steps a').
Qed.

(** The events added in a run, once the trace is a list built by [++]. *)
Ltac added_events H :=
  rewrite <- ?(assoc_L (++)), ?drop_app_length, ?drop_all in H;
  simpl in H.

Ltac announces_run s Hup Hup0 :=
  wp_run;
  (let cid := fresh "cid" in
   let Hin := fresh "Hin" in
   intros cid Hin; added_events Hin;
   repeat (apply elem_of_cons in Hin as [Hin|Hin]; [try discriminate|]);
   try (by apply elem_of_nil in Hin);
   injection Hin as ->);
  (split; [done|]; split; [done|]; exists s);
  try (apply upsertChat_thrown in Hup0 as (_ & -> & _));
  first [ destruct (upsertChat_Ok_chat _ _ _ _ _ Hup0) as (? & ? & ?)
        | destruct (upsertChat_Ok_chat _ _ _ _ _ Hup) as (? & ? & ?) ];
  eauto.

Lemma searchPOST_announces session body (w : World W) :
  wp (searchPOST session body)
     (λ r w',
        ∀ cid, EvWriteData cid ∈ drop (length (events w)) (events w') →
          isNewChat body = true ∧ cid = chatId body
          ∧ ∃ s c, session = Some s
              ∧ Db.chats (db w') !! cid = Some c
              ∧ Db.chat_userId c = user_id s) w.
Proof. unfold SearchRoute.POST. announces_run s Hup Hup0. Qed.

Lemma day3POST_announces session body (w : World W) :
  wp (day3POST session body)
     (λ r w',
        ∀ cid, EvWriteData cid ∈ drop (length (events w)) (events w') →
          isNewChat body = true ∧ cid = chatId body
          ∧ ∃ s c, session = Some s
              ∧ Db.chats (db w') !! cid = Some c
              ∧ Db.chat_userId c = user_id s) w.
Proof. unfold Day3Route.POST. announces_run s Hup Hup0. Qed.

(** X11: the handlers announce a new chat to the client only for a request
    that says the chat is new, only under the id of the request, and only
    once the chat is in the store, owned by the user of the session. *)
Theorem new_chat_announced_once_stored session body (w : World W) :
  Forall (λ POST : option Session → Body → Eff (World W) Response,
            ∀ cid, EvWriteData cid ∈ added (POST session body) w →
              isNewChat body = true ∧ cid = chatId body
              ∧ ∃ s c, session = Some s
                  ∧ Db.chats (db (POST session body w).2) !! cid = Some c
                  ∧ Db.chat_userId c = user_id s)
    [searchPOST; day3POST].
Proof.
  apply Forall_cons_2; [|apply Forall_cons_2; [|apply Forall_nil_2]].
  - apply searchPOST_announces.
  - apply day3POST_announces.
Qed.

Lemma searchPOST_model_failure s body (w : World W) m e a' :
  Db.wellFormed (db w) →
  Js.lastElement (messages body) = Some m →
  (∀ c, Db.chats (db w) !! chatId body = Some c →
        Db.chat_userId c = user_id s) →
  (isNewChat body = false → is_Some (Db.chats (db w) !! chatId body)) →
  Agent.run generate executeTool 10 (messages body) (agent w)
  = (Thrown e, a') →
  wp (searchPOST (Some s) body)
     (λ r w',
        r = Ok streamResponse ∧ agent w' = a'
        ∧ last (events w') = Some (EvStreamError "Oops, an error occurred!")
        ∧ if isNewChat body
          then ∃ conv, Db.getChat (chatId body) (db w') = Some conv
                 ∧ role <$> Db.conv_messages conv = role <$> messages body
                 ∧ content <$> Db.conv_messages conv
                   = content <$> messages body
          else db w' = db w) w.
Proof.
  intros Hwf Hm Hown Hold Hrun0. unfold SearchRoute.POST.
  assert (Hne : messages body ≠ []) by (intros E; by rewrite E in Hm).
  rewrite (nonempty_length _ Hne).
  destruct (isNewChat body).
  - unfold lastContent. rewrite Hm. wp_to_upsert.
    2:{ apply upsertChat_thrown in Hup as (_ & _ & c & Hc & Hc').
        by destruct Hc'; apply Hown. }
    wp_to_stream; wp_options Hrun; rewrite Hrun0 in Hrun; [done|].
    injection Hrun as <- <-.
    repeat wp_step. split; [done|]. split; [done|].
    split; [apply last_snoc|].
    destruct (upsertChat_stored newMessageId _ _ _ _ Hwf Hup)
      as (conv & Hconv & _ & _ & _ & Hroles & Hcontents).
    by exists conv.
  - repeat wp_step. destruct Hold as [c Hc]; [done|]. rewrite Hc.
    rewrite bool_decide_eq_false_2 by (intros H; apply H; by apply Hown).
    wp_to_stream; wp_options Hrun; rewrite Hrun0 in Hrun; [done|].
    injection Hrun as <- <-.
    repeat wp_step. split; [done|]. split; [done|].
    split; [apply last_snoc|done].
Qed.

Lemma day3POST_model_failure s body (w : World W) m e a' :
  Db.wellFormed (db w) →
  Js.lastElement (messages body) = Some m →
  (∀ c, Db.chats (db w) !! chatId body = Some c →
        Db.chat_userId c = user_id s) →
  (isNewChat body = false → is_Some (Db.chats (db w) !! chatId body)) →
  Agent.run generate executeTool 10 (messages body) (agent w)
  = (Thrown e, a') →
  wp (day3POST (Some s) body)
     (λ r w',
        r = Ok streamResponse ∧ agent w' = a'
        ∧ last (events w') = Some (EvStreamError "Oops, an error occurred!")
        ∧ if isNewChat body
          then ∃ conv, Db.getChat (chatId body) (db w') = Some conv
                 ∧ role <$> Db.conv_messages conv = role <$> messages body
                 ∧ content <$> Db.conv_messages conv
                   = content <$> messages body
          else db w' = db w) w.
Proof.
  intros Hwf Hm Hown Hold Hrun0. unfold Day3Route.POST.
  assert (Hne : messages body ≠ []) by (intros E; by rewrite E in Hm).
  rewrite (nonempty_length _ Hne).
  destruct (isNewChat body).
  - unfold lastContent. rewrite Hm. wp_to_upsert.
    2:{ apply upsertChat_thrown in Hup as (_ & _ & c & Hc & Hc').
        by destruct Hc'; apply Hown. }
    wp_to_stream; wp_options Hrun; rewrite Hrun0 in Hrun; [done|].
    injection Hrun as <- <-.
    repeat wp_step. split; [done|]. split; [done|].
    split; [apply last_snoc|].
    destruct (upsertChat_stored newMessageId _ _ _ _ Hwf Hup)
      as (conv & Hconv & _ & _ & _ & Hroles & Hcontents).
    by exists conv.
  - repeat wp_step. destruct Hold as [c Hc]; [done|]. rewrite Hc.
    rewrite bool_decide_eq_false_2 by (intros H; apply H; by apply Hown).
    wp_to_stream; wp_options Hrun; rewrite Hrun0 in Hrun; [done|].
    injection Hrun as <- <-.
    repeat wp_step. split; [done|]. split; [done|].
    split; [apply last_snoc|done].
Qed.

(** X10: when the model fails, the request is still answered with the
    stream, whose last event is the error ["Oops, an error occurred!"], and
    nothing of the turn is saved: an existing chat is left as it was, and a
    new chat holds the messages of the request, as stored before the model
    was called. *)
Theorem failed_turn_is_not_stored s body (w : World W) m e a' :
  Db.wellFormed (db w) →
  Js.lastElement (messages body) = Some m →
  (∀ c, Db.chats (db w) !! chatId body = Some c →
        Db.chat_userId c = user_id s) →
  (isNewChat body = false → is_Some (Db.chats (db w) !! chatId body)) →
  Agent.run generate executeTool 10 (messages body) (agent w)
  = (Thrown e, a') →
  Forall (λ POST : option Session → Body → Eff (World W) Response,
            (POST (Some s) body w).1 = Ok streamResponse
            ∧ agent (POST (Some s) body w).2 = a'
            ∧ last (events (POST (Some s) body w).2)
              = Some (EvStreamError "Oops, an error occurred!")
            ∧ if isNewChat body
              then ∃ conv,
                     Db.getChat (chatId body) (db (POST (Some s) body w).2)
                     = Some conv
                     ∧ role <$> Db.conv_messages conv
                       = role <$> messages body
                     ∧ content <$> Db.conv_messages conv
                       = content <$> messages body
              else db (POST (Some s) body w).2 = db w)
    [searchPOST; day3POST].
Proof.
  intros Hwf Hm Hown Hold Hrun.
  apply Forall_cons_2; [|apply Forall_cons_2; [|apply Forall_nil_2]].
  - by apply (searchPOST_model_failure s body w m e a').
  - by apply (day3POST_model_failure s body w m e a').
Qed.

Lemma day3POST_spans session body (w : World W) :
  wp (day3POST session body)
     (λ r w',
        length (opened (drop (length (events w)) (events w')))
        = length (ended (drop (length (events w)) (events w')))) w.
Proof.
  unfold Day3Route.POST.
  wp_run; rewrite <- ?(assoc_L (++)), ?drop_app_length, ?drop_all;
    reflexivity.
Qed.

(** X12: on every path of the day-3 handler, also those on which the store
    or the model fails, every trace span the handler opens is ended: the
    events added by a request hold as many span ends as spans. *)
Theorem day3_spans_are_ended session body (w : World W) :
  length (opened (added (day3POST session body) w))
  = length (ended (added (day3POST session body) w)).
Proof. apply day3POST_spans. Qed.

(** *** The earlier handler *)

Lemma firstPOST_foreign s body (w : World W) cid c steps a' :
  FirstRoute.chatId body = Some cid →
  cid ≠ "" →
  Db.chats (db w) !! cid = Some c →
  Db.chat_userId c ≠ user_id s →
  Agent.run generate executeTool 10 (FirstRoute.messages body) (agent w)
  = (Ok steps, a') →
  wp (firstPOST (Some s) body)
     (λ r w',
        r = Ok streamResponse ∧ db w' = db w ∧ agent w' = a'
        ∧ drop (length (events w)) (events w')
          = EvStreamText (FirstRoute.options (FirstRoute.messages body))
            :: match Js.lastElement (FirstRoute.messages body) with
               | Some m =>
                   [EvUpsertChat
                      {| Db.userId := user_id s; Db.chatId := cid;
                         Db.title := FirstRoute.title (content m);
                         Db.messageList :=
                           appendResponseMessages
                             (FirstRoute.messages body) steps |}]
               | None => []
               end) w.
Proof.
  intros Hid Hcid Hc Hown Hrun0. unfold FirstRoute.POST.
  rewrite Hid. cbn [FirstRoute.falsy default].
  rewrite bool_decide_eq_false_2 by done.
  wp_to_stream; wp_options Hrun; rewrite Hrun0 in Hrun; [|done].
  injection Hrun as <- <-.
  wp_step. destruct (Js.lastElement (FirstRoute.messages body)) as [m|].
  - wp_to_upsert.
    + rewrite (upsertChat_foreign newMessageId _ _ _ c) in Hup by done.
      discriminate.
    + apply upsertChat_thrown in Hup as (_ & -> & _). repeat wp_step.
      rewrite <- ?(assoc_L (++)), drop_app_length. done.
  - repeat wp_step. rewrite <- ?(assoc_L (++)), drop_app_length. done.
Qed.

Lemma firstPOST_empty s body (w : World W) :
  FirstRoute.falsy (FirstRoute.chatId body) = true →
  FirstRoute.messages body = [] →
  wp (firstPOST (Some s) body)
     (λ r w',
        r = Ok streamResponse ∧ db w' = db w
        ∧ agent w'
          = (Agent.run generate executeTool 10 [] (agent w)).2
        ∧ take 2 (drop (length (events w)) (events w'))
          = [EvWriteData (randomUUID (clock w));
             EvStreamText (FirstRoute.options [])]) w.
Proof.
  intros Hid Hempty. unfold FirstRoute.POST.
  rewrite Hid, Hempty. cbn [Js.lastElement last].
  wp_to_stream; wp_options Hrun; rewrite Hrun; repeat wp_step;
    rewrite ?Hempty; cbn [Js.lastElement last]; repeat wp_step;
    rewrite <- ?(assoc_L (++)), drop_app_length; done.
Qed.

Lemma firstPOST_fresh s body (w : World W) m steps a' :
  Db.wellFormed (db w) →
  FirstRoute.falsy (FirstRoute.chatId body) = true →
  Js.lastElement (FirstRoute.messages body) = Some m →
  (∀ c, Db.chats (db w) !! randomUUID (clock w) = Some c →
        Db.chat_userId c = user_id s) →
  Agent.run generate executeTool 10 (FirstRoute.messages body) (agent w)
  = (Ok steps, a') →
  wp (firstPOST (Some s) body)
     (λ r w',
        r = Ok streamResponse
        ∧ EvWriteData (randomUUID (clock w))
          ∈ drop (length (events w)) (events w')
        ∧ ∃ conv, Db.getChat (randomUUID (clock w)) (db w') = Some conv
          ∧ Db.chat_userId (Db.conv_chat conv) = user_id s
          ∧ Db.chat_title (Db.conv_chat conv)
            = FirstRoute.title (content m)
          ∧ role <$> Db.conv_messages conv
            = role <$> appendResponseMessages (FirstRoute.messages body)
                         steps
          ∧ content <$> Db.conv_messages conv
            = content <$> appendResponseMessages (FirstRoute.messages body)
                            steps) w.
Proof.
  intros Hwf Hid Hm Hown Hrun0. unfold FirstRoute.POST.
  rewrite Hid, Hm. wp_to_upsert.
  2:{ apply upsertChat_thrown in Hup as (_ & _ & c & Hc & Hc').
      by destruct Hc'; apply Hown. }
  wp_to_stream; wp_options Hrun; rewrite Hrun0 in Hrun; [|done].
  injection Hrun as <- <-.
  wp_step. rewrite Hm. wp_to_upsert.
  2:{ apply upsertChat_thrown in Hup0 as (_ & _ & c & Hc & Hc').
      destruct Hc'. by apply (upsertChat_Ok_owner _ _ _ _ _ _ Hup). }
  repeat wp_step. split; [done|]. split.
  { rewrite <- ?(assoc_L (++)), drop_app_length. set_solver. }
  pose proof (wellFormed_upsertChat newMessageId _
                {| Db.userId := user_id s;
                   Db.chatId := randomUUID (clock w);
                   Db.title := FirstRoute.title (content m);
                   Db.messageList := FirstRoute.messages body |}
                (clock w) Hwf) as Hwf'.
  rewrite Hup in Hwf'.
  destruct (upsertChat_stored newMessageId _ _ _ _ Hwf' Hup0)
    as (conv & Hconv & Howner & Htitle & _ & Hroles & Hcontents).
  exists conv. done.
Qed.

(** X16: the earlier handler does not check who owns the chat it is given.
    For the id of a chat of another user it calls the model and answers with
    the stream; the save that follows is rejected by the store and the
    rejection is swallowed: the store is left as it was and the stream
    carries no error. *)
Theorem first_handler_streams_and_drops_the_save
    s body (w : World W) cid c steps a' :
  FirstRoute.chatId body = Some cid →
  cid ≠ "" →
  Db.chats (db w) !! cid = Some c →
  Db.chat_userId c ≠ user_id s →
  Agent.run generate executeTool 10 (FirstRoute.messages body) (agent w)
  = (Ok steps, a') →
  (firstPOST (Some s) body w).1 = Ok streamResponse
  ∧ db (firstPOST (Some s) body w).2 = db w
  ∧ agent (firstPOST (Some s) body w).2 = a'
  ∧ added (firstPOST (Some s) body) w
    = EvStreamText (FirstRoute.options (FirstRoute.messages body))
      :: match Js.lastElement (FirstRoute.messages body) with
         | Some m =>
             [EvUpsertChat
                {| Db.userId := user_id s; Db.chatId := cid;
                   Db.title := FirstRoute.title (content m);
                   Db.messageList :=
                     appendResponseMessages (FirstRoute.messages body)
                       steps |}]
         | None => []
         end.
Proof. apply firstPOST_foreign. Qed.


(** X18: for a request without chat id, the earlier handler creates the chat
    under a fresh id, announces that id, and saves the finished turn under
    it: afterwards [getChat] returns, under the announced id, the chat of
    the user, titled by the last message, with the messages that
    [appendResponseMessages] made of the request and the response. *)
Theorem first_handler_stores_under_fresh_id s body (w : World W) m steps a' :
  Db.wellFormed (db w) →
  FirstRoute.falsy (FirstRoute.chatId body) = true →
  Js.lastElement (FirstRoute.messages body) = Some m →
  (∀ c, Db.chats (db w) !! randomUUID (clock w) = Some c →
        Db.chat_userId c = user_id s) →
  Agent.run generate executeTool 10 (FirstRoute.messages body) (agent w)
  = (Ok steps, a') →
  (firstPOST (Some s) body w).1 = Ok streamResponse
  ∧ EvWriteData (randomUUID (clock w)) ∈ added (firstPOST (Some s) body) w
  ∧ ∃ conv,
      Db.getChat (randomUUID (clock w)) (db (firstPOST (Some s) body w).2)
      = Some conv
      ∧ Db.chat_userId (Db.conv_chat conv) = user_id s
      ∧ Db.chat_title (Db.conv_chat conv) = FirstRoute.title (content m)
      ∧ role <$> Db.conv_messages conv
        = role <$> appendResponseMessages (FirstRoute.messages body) steps
      ∧ content <$> Db.conv_messages conv
        = content <$> appendResponseMessages (FirstRoute.messages body)
                        steps.
Proof. apply firstPOST_fresh. Qed.

End HandlerRuns.

(** ** Titles and tool names *)

Section Strings.

Lemma string_app_cons x (a b : string) :
  String x a +:+ b = String x (a +:+ b).
Proof. reflexivity. Qed.

Lemma string_app_nil_r (a : string) : a +:+ "" = a.
Proof.
  induction a as [|x a IH]; [done|]. by rewrite string_app_cons, IH.
Qed.

Lemma string_app_assoc (a b c : string) : (a +:+ b) +:+ c = a +:+ b +:+ c.
Proof.
  induction a as [|x a IH]; [done|]. by rewrite !string_app_cons, IH.
Qed.

Lemma string_app_length (a b : string) :
  String.length (a +:+ b) = String.length a + String.length b.
Proof.
  induction a as [|x a IH]; [done|]. rewrite string_app_cons. simpl.
  by rewrite IH.
Qed.

Lemma slice_length (s : string) (n : nat) :
  String.length (Js.slice s 0 n) = n `min` String.length s.
Proof.
  unfold Js.slice. rewrite Nat.sub_0_r. revert n.
  induction s as [|c s IH]; intros [|n]; simpl; try done.
  by rewrite IH.
Qed.

Lemma slice_prefix (s : string) (n : nat) :
  ∃ rest, s = Js.slice s 0 n +:+ rest.
Proof.
  unfold Js.slice. rewrite Nat.sub_0_r. revert n.
  induction s as [|c s IH]; intros [|n]; simpl.
  - by exists "".
  - by exists "".
  - by exists (String c s).
  - destruct (IH n) as [rest E]. exists rest.
    rewrite string_app_cons. by rewrite <- E.
Qed.

(** X19: the title the earlier handler gives a chat is the content of the
    last message when that has at most 100 characters, and otherwise its
    first 100 characters followed by ["..."]; it never has more than 103
    characters. *)
Theorem first_title_is_bounded (c : string) :
  String.length (FirstRoute.title c) ≤ 103
  ∧ (String.length c ≤ 100 → FirstRoute.title c = c)
  ∧ (100 < String.length c →
       FirstRoute.title c = Js.slice c 0 100 +:+ "..."
       ∧ String.length (Js.slice c 0 100) = 100
       ∧ ∃ rest, c = Js.slice c 0 100 +:+ rest).
Proof.
  unfold FirstRoute.title. split; [|split].
  - rewrite string_app_length, slice_length.
    destruct (bool_decide (100 < String.length c));
      [assert (String.length "..." = 3) as -> by done
      |assert (String.length "" = 0) as -> by done]; lia.
  - intros Hlen. rewrite bool_decide_eq_false_2 by lia.
    rewrite slice_short by done. apply string_app_nil_r.
  - intros Hlen. rewrite bool_decide_eq_true_2 by done.
    split; [done|]. split; [rewrite slice_length; lia|apply slice_prefix].
Qed.

End Strings.

Section ToolNames.

Variable toUpperCase : string → string.

Local Abbreviation formatToolName := (ChatMessage.formatToolName toUpperCase).
Lemma split_nonempty sep s : Js.split sep s ≠ [].
Proof.
  destruct s as [|c s]; simpl; [done|].
  destruct (decide (c = sep)); [done|]. by destruct (Js.split sep s).
Qed.

Lemma split_app sep a b :
  Js.split sep (a +:+ String sep b) = Js.split sep a ++ Js.split sep b.
Proof.
  induction a as [|c a IH].
  - change ("" +:+ String sep b) with (String sep b). simpl.
    by rewrite decide_True.
  - rewrite string_app_cons. simpl.
    rewrite IH. destruct (decide (c = sep)); [done|].
    pose proof (split_nonempty sep a). by destruct (Js.split sep a).
Qed.

Lemma split_none sep s :
  (∀ i, String.get i s ≠ Some sep) → Js.split sep s = [s].
Proof.
  induction s as [|c s IH]; intros Hs; simpl; [done|].
  rewrite decide_False by (intros ->; by apply (Hs 0)).
  rewrite IH; [done|]. intros i. apply (Hs (S i)).
Qed.

Lemma join_app sep l1 l2 :
  l1 ≠ [] → l2 ≠ [] →
  Js.join sep (l1 ++ l2) = Js.join sep l1 +:+ sep +:+ Js.join sep l2.
Proof.
  intros H1 H2. induction l1 as [|w [|w' l1] IH]; [done| |].
  - simpl. by destruct l2.
  - change (Js.join sep ((w :: w' :: l1) ++ l2))
      with (w +:+ sep +:+ Js.join sep ((w' :: l1) ++ l2)).
    rewrite IH by done.
    change (Js.join sep (w :: w' :: l1))
      with (w +:+ sep +:+ Js.join sep (w' :: l1)).
    by rewrite !string_app_assoc.
Qed.

Lemma sliceFrom_tail c (s : string) : Js.sliceFrom (String c s) 1 = s.
Proof.
  unfold Js.sliceFrom, Js.slice. simpl. rewrite Nat.sub_0_r.
  induction s as [|x s IH]; [done|]. simpl. by rewrite IH.
Qed.

(** X20: [formatToolName] capitalizes a name word by word: a name without
    ["-"] has its first character put in upper case and the rest left as it
    is, and every ["-"] separates two words that are formatted on their own
    and joined by a space. *)
Theorem formatToolName_word_by_word :
  (∀ name, (∀ i, String.get i name ≠ Some ChatMessage.dash) →
           formatToolName name
           = toUpperCase (Js.charAt name 0) +:+ Js.sliceFrom name 1)
  ∧ (∀ c rest, (∀ i, String.get i (String c rest) ≠ Some ChatMessage.dash) →
               formatToolName (String c rest)
               = toUpperCase (String c "") +:+ rest)
  ∧ (∀ a b, formatToolName (a +:+ "-" +:+ b)
            = formatToolName a +:+ " " +:+ formatToolName b).
Proof.
  split; [|split].
  - intros name Hname. unfold ChatMessage.formatToolName.
    by rewrite split_none.
  - intros c rest Hname. unfold ChatMessage.formatToolName.
    rewrite split_none by done. simpl. by rewrite sliceFrom_tail.
  - intros a b. unfold ChatMessage.formatToolName.
    change ("-" +:+ b) with (String ChatMessage.dash b).
    rewrite split_app, map_app, join_app; [done| |].
    + pose proof (split_nonempty ChatMessage.dash a).
      by destruct (Js.split ChatMessage.dash a).
    + pose proof (split_nonempty ChatMessage.dash b).
      by destruct (Js.split ChatMessage.dash b).
Qed.

End ToolNames.

(** ** The handlers that store nothing *)

Section StatelessHandlers.

Import Route.

Context {W : Type}.
Variable generate :
  list Message → list Agent.AgentStep → Eff W Agent.StepOutput.
Variable executeTool : Agent.ToolCall → Eff W string.

Local Abbreviation day1POST :=
  (λ session messages,
     Day1Route.POST generate executeTool session
       {| Day1Route.messages := messages |}).
Local Abbreviation groundingPOST :=
  (λ session messages,
     GroundingRoute.POST generate executeTool session
       {| GroundingRoute.messages := messages |}).
Local Abbreviation run :=
  (λ messages, Agent.run generate executeTool 10 messages).

Lemma day1POST_run session messages (w : World W) :
  wp (day1POST session messages)
     (λ r w',
        db w' = db w
        ∧ match session with
          | None => r = Ok (textResponse "Unauthorized" 401) ∧ w' = w
          | Some _ =>
              r = Ok streamResponse
              ∧ agent w' = (run messages (agent w)).2
              ∧ ∀ e, (run messages (agent w)).1 = Thrown e →
                     last (events w')
                     = Some (EvStreamError "Oops, an error occured!")
          end) w.
Proof.
  unfold Day1Route.POST. destruct session as [s|]; [|done].
  wp_to_stream; wp_options Hrun; cbn [Day1Route.messages] in *;
    rewrite Hrun; repeat wp_step; (split; [done|]); (split; [done|]);
    (split; [done|]); intros e' [=]. apply last_snoc.
Qed.

Lemma groundingPOST_run session messages (w : World W) :
  wp (groundingPOST session messages)
     (λ r w',
        db w' = db w
        ∧ match session with
          | None => r = Ok (textResponse "Unauthorized" 401) ∧ w' = w
          | Some _ =>
              r = Ok streamResponse
              ∧ agent w' = (run messages (agent w)).2
              ∧ ∀ e, (run messages (agent w)).1 = Thrown e →
                     last (events w')
                     = Some (EvStreamError "Oops, an error occured!")
          end) w.
Proof.
  unfold GroundingRoute.POST. destruct session as [s|]; [|done].
  wp_to_stream; wp_options Hrun; cbn [GroundingRoute.messages] in *;
    rewrite Hrun; repeat wp_step; (split; [done|]); (split; [done|]);
    (split; [done|]); intros e' [=]. apply last_snoc.
Qed.


End StatelessHandlers.

(** ** The handler properties on sample requests *)

Lemma foreign_chat_is_refused_witness :
  Forall (λ POST : option Route.Session → Route.Body
                   → Eff (Route.World unit) Route.Response,
            (POST (Some Sample.bob) Sample.newChat Sample.aliceWorld).1
            = (if Route.isNewChat Sample.newChat then Thrown Db.notOwner
               else Ok {| Route.response_body :=
                            Route.Text "Chat not found or unauthorized";
                          Route.status := 404 |})
            ∧ Route.db
                (POST (Some Sample.bob) Sample.newChat Sample.aliceWorld).2
              = Route.db Sample.aliceWorld
            ∧ Route.agent
                (POST (Some Sample.bob) Sample.newChat Sample.aliceWorld).2
              = Route.agent Sample.aliceWorld)
    [SearchRoute.POST Sample.rowId Sample.answering Sample.echoTool
       Sample.assistantTurns;
     Day3Route.POST Sample.rowId Sample.answering Sample.echoTool
       Sample.assistantTurns].
Proof.
  apply (foreign_chat_is_refused Sample.rowId Sample.answering
           Sample.echoTool Sample.assistantTurns Sample.bob Sample.newChat
           Sample.aliceWorld Sample.aliceRow).
  - discriminate.
  - vm_compute. reflexivity.
  - vm_compute. discriminate.
Defined.

Lemma finished_turn_is_stored_witness :
  Forall (λ POST : option Route.Session → Route.Body
                   → Eff (Route.World unit) Route.Response,
            (POST (Some Sample.alice) Sample.newChat Sample.freshWorld).1
            = Ok Route.streamResponse
            ∧ Route.agent
                (POST (Some Sample.alice) Sample.newChat Sample.freshWorld).2
              = (tt, 1)
            ∧ ∃ conv,
                Db.getChat "chat-1"
                  (Route.db (POST (Some Sample.alice) Sample.newChat
                               Sample.freshWorld).2)
                = Some conv
                ∧ Db.chat_userId (Db.conv_chat conv) = "alice"
                ∧ Db.chat_title (Db.conv_chat conv)
                  = Js.slice "What is Rocq?" 0 50 +:+ "..."
                ∧ Db.chat_updatedAt (Db.conv_chat conv) = 7
                ∧ role <$> Db.conv_messages conv
                  = role <$> Sample.assistantTurns [Sample.hello]
                               Sample.oneStep
                ∧ content <$> Db.conv_messages conv
                  = content <$> Sample.assistantTurns [Sample.hello]
                                  Sample.oneStep)
    [SearchRoute.POST Sample.rowId Sample.answering Sample.echoTool
       Sample.assistantTurns;
     Day3Route.POST Sample.rowId Sample.answering Sample.echoTool
       Sample.assistantTurns].
Proof.
  apply (finished_turn_is_stored Sample.rowId Sample.answering
           Sample.echoTool Sample.assistantTurns Sample.alice Sample.newChat
           Sample.freshWorld Sample.hello Sample.oneStep (tt, 1)).
  - apply wellFormed_empty.
  - reflexivity.
  - intros c Hc. vm_compute in Hc. discriminate.
  - discriminate.
  - vm_compute. reflexivity.
Defined.

Lemma failed_turn_is_not_stored_witness :
  Forall (λ POST : option Route.Session → Route.Body
                   → Eff (Route.World unit) Route.Response,
            (POST (Some Sample.alice) Sample.newChat Sample.freshWorld).1
            = Ok Route.streamResponse
            ∧ Route.agent
                (POST (Some Sample.alice) Sample.newChat Sample.freshWorld).2
              = (tt, 1)
            ∧ last (Route.events
                      (POST (Some Sample.alice) Sample.newChat
                         Sample.freshWorld).2)
              = Some (Route.EvStreamError "Oops, an error occurred!")
            ∧ if Route.isNewChat Sample.newChat
              then ∃ conv,
                     Db.getChat "chat-1"
                       (Route.db (POST (Some Sample.alice) Sample.newChat
                                    Sample.freshWorld).2)
                     = Some conv
                     ∧ role <$> Db.conv_messages conv
                       = role <$> [Sample.hello]
                     ∧ content <$> Db.conv_messages conv
                       = content <$> [Sample.hello]
              else Route.db (POST (Some Sample.alice) Sample.newChat
                               Sample.freshWorld).2
                   = Route.db Sample.freshWorld)
    [SearchRoute.POST Sample.rowId Sample.failing Sample.echoTool
       Sample.assistantTurns;
     Day3Route.POST Sample.rowId Sample.failing Sample.echoTool
       Sample.assistantTurns].
Proof.
  apply (failed_turn_is_not_stored Sample.rowId Sample.failing
           Sample.echoTool Sample.assistantTurns Sample.alice Sample.newChat
           Sample.freshWorld Sample.hello "model overloaded" (tt, 1)).
  - apply wellFormed_empty.
  - reflexivity.
  - intros c Hc. vm_compute in Hc. discriminate.
  - discriminate.
  - vm_compute. reflexivity.
Defined.

Lemma request_leaves_other_chats_witness :
  Forall (λ POST : option Route.Session → Route.Body
                   → Eff (Route.World unit) Route.Response,
            Db.getChat "chat-2"
              (Route.db (POST (Some Sample.alice) Sample.newChat
                           Sample.aliceWorld).2)
            = Db.getChat "chat-2" (Route.db Sample.aliceWorld))
    [SearchRoute.POST Sample.rowId Sample.answering Sample.echoTool
       Sample.assistantTurns;
     Day3Route.POST Sample.rowId Sample.answering Sample.echoTool
       Sample.assistantTurns].
Proof.
  apply (request_leaves_other_chats Sample.rowId Sample.answering
           Sample.echoTool Sample.assistantTurns (Some Sample.alice)
           Sample.newChat Sample.aliceWorld "chat-2").
  vm_compute. discriminate.
Defined.

Lemma request_leaves_other_users_lists_witness :
  (∀ body,
     Forall (λ POST : option Route.Session → Route.Body
                      → Eff (Route.World unit) Route.Response,
               Db.getChats "alice"
                 (Route.db (POST (Some Sample.bob) body Sample.aliceWorld).2)
               ≡ₚ Db.getChats "alice" (Route.db Sample.aliceWorld))
       [SearchRoute.POST Sample.rowId Sample.answering Sample.echoTool
          Sample.assistantTurns;
        Day3Route.POST Sample.rowId Sample.answering Sample.echoTool
          Sample.assistantTurns])
  ∧ (∀ body,
       Db.getChats "alice"
         (Route.db (FirstRoute.POST Sample.rowId Sample.answering
                      Sample.echoTool Sample.assistantTurns Sample.uuid
                      (Some Sample.bob) body Sample.aliceWorld).2)
       ≡ₚ Db.getChats "alice" (Route.db Sample.aliceWorld)).
Proof.
  apply (request_leaves_other_users_lists Sample.rowId Sample.answering
           Sample.echoTool Sample.assistantTurns Sample.uuid Sample.bob
           Sample.aliceWorld "alice").
  vm_compute. discriminate.
Defined.

Lemma request_never_changes_owner_witness :
  (∀ body,
     Forall (λ POST : option Route.Session → Route.Body
                      → Eff (Route.World unit) Route.Response,
               ∃ c', Db.chats
                       (Route.db (POST (Some Sample.bob) body
                                    Sample.aliceWorld).2) !! "chat-1"
                     = Some c'
                     ∧ Db.chat_userId c' = "alice")
       [SearchRoute.POST Sample.rowId Sample.answering Sample.echoTool
          Sample.assistantTurns;
        Day3Route.POST Sample.rowId Sample.answering Sample.echoTool
          Sample.assistantTurns])
  ∧ (∀ body,
       ∃ c', Db.chats
               (Route.db (FirstRoute.POST Sample.rowId Sample.answering
                            Sample.echoTool Sample.assistantTurns
                            Sample.uuid (Some Sample.bob) body
                            Sample.aliceWorld).2) !! "chat-1"
             = Some c'
             ∧ Db.chat_userId c' = "alice").
Proof.
  apply (request_never_changes_owner Sample.rowId Sample.answering
           Sample.echoTool Sample.assistantTurns Sample.uuid
           (Some Sample.bob) Sample.aliceWorld "chat-1" Sample.aliceRow).
  vm_compute. reflexivity.
Defined.

Lemma first_handler_streams_and_drops_the_save_witness :
  let POST :=
    FirstRoute.POST Sample.rowId Sample.answering Sample.echoTool
      Sample.assistantTurns Sample.uuid in
  (POST (Some Sample.bob) Sample.intoAlices Sample.aliceWorld).1
  = Ok Route.streamResponse
  ∧ Route.db (POST (Some Sample.bob) Sample.intoAlices Sample.aliceWorld).2
    = Route.db Sample.aliceWorld
  ∧ Route.agent (POST (Some Sample.bob) Sample.intoAlices Sample.aliceWorld).2
    = (tt, 1)
  ∧ Route.added (POST (Some Sample.bob) Sample.intoAlices) Sample.aliceWorld
    = [Route.EvStreamText (FirstRoute.options [Sample.hi]);
       Route.EvUpsertChat
         {| Db.userId := "bob"; Db.chatId := "chat-1";
            Db.title := FirstRoute.title "hi";
            Db.messageList :=
              Sample.assistantTurns [Sample.hi] Sample.oneStep |}].
Proof.
  apply (first_handler_streams_and_drops_the_save Sample.rowId
           Sample.answering Sample.echoTool Sample.assistantTurns
           Sample.uuid Sample.bob Sample.intoAlices Sample.aliceWorld
           "chat-1" Sample.aliceRow Sample.oneStep (tt, 1)).
  - reflexivity.
  - discriminate.
  - vm_compute. reflexivity.
  - vm_compute. discriminate.
  - vm_compute. reflexivity.
Defined.


Lemma first_handler_stores_under_fresh_id_witness :
  let POST :=
    FirstRoute.POST Sample.rowId Sample.answering Sample.echoTool
      Sample.assistantTurns Sample.uuid in
  (POST (Some Sample.alice) Sample.justHi Sample.freshWorld).1
  = Ok Route.streamResponse
  ∧ Route.EvWriteData (Sample.uuid 7)
    ∈ Route.added (POST (Some Sample.alice) Sample.justHi) Sample.freshWorld
  ∧ ∃ conv,
      Db.getChat (Sample.uuid 7)
        (Route.db (POST (Some Sample.alice) Sample.justHi
                     Sample.freshWorld).2)
      = Some conv
      ∧ Db.chat_userId (Db.conv_chat conv) = "alice"
      ∧ Db.chat_title (Db.conv_chat conv) = FirstRoute.title "hi"
      ∧ role <$> Db.conv_messages conv
        = role <$> Sample.assistantTurns [Sample.hi] Sample.oneStep
      ∧ content <$> Db.conv_messages conv
        = content <$> Sample.assistantTurns [Sample.hi] Sample.oneStep.
Proof.
  apply (first_handler_stores_under_fresh_id Sample.rowId Sample.answering
           Sample.echoTool Sample.assistantTurns Sample.uuid Sample.alice
           Sample.justHi Sample.freshWorld Sample.hi Sample.oneStep (tt, 1)).
  - apply wellFormed_empty.
  - reflexivity.
  - reflexivity.
  - intros c Hc. vm_compute in Hc. discriminate.
  - vm_compute. reflexivity.
Defined.
